(** * The connection engine of the synchronisation protocol (protocol.go)

    A shallow embedding of [protocol/protocol.go].  Every method of
    [Connection] is a program of a small state-and-fault monad over the
    connection record; the places where a goroutine waits for another one
    (a receive on a result channel, a [go] statement) split a method into
    the pieces that run without interruption.  The mutex, the channels and
    the calls that leave the package (receiver, buffer pool, log, sink) are
    part of the state, so that statements about locking, waking callers and
    notifications are statements about values. *)

From Stdlib Require Import ZArith Lia.
From Corelib Require Import SpecFloat.
From stdpp Require Import base gmap list strings.

Local Open Scope Z_scope.

(** ** Constants and plain data *)

Definition messageTypeReserved : Z := 0.
Definition messageTypeIndex : Z := 1.
Definition messageTypeRequest : Z := 2.
Definition messageTypeResponse : Z := 3.
Definition messageTypePing : Z := 4.
Definition messageTypePong : Z := 5.

(** A Go [[]byte]: [None] is the nil slice. *)
Abbreviation bytes := (option (list Byte.byte)).

Record BlockInfo := { Length : Z; Hash : bytes }.

Record FileInfo := {
  Name : string;
  Flags : Z;
  Modified : Z;
  Blocks : list BlockInfo }.

(** Go error values.  [ErrClosed] is the package's own error; everything
    the codec or the transport reports is some other error value. *)
Inductive error :=
| ErrClosed
| ErrIO (msg : string).

#[global] Instance error_eq_dec : EqDecision error.
Proof. solve_decision. Defined.

Record asyncResult := { val : bytes; err : option error }.

(** The zero value of [asyncResult], what [asyncResult{}] and a receive
    from a closed channel give. *)
Definition asyncResult_zero : asyncResult := {| val := None; err := None |}.

(** [time.Duration] and [time.Time] are counted in nanoseconds. *)
Definition Second : Z := 1000000000.
Definition Minute : Z := 60 * Second.
Definition pingTimeout : Z := 30 * Second.
Definition pingIdleTime : Z := 5 * Minute.

Record Statistics := {
  At : Z;
  InBytesTotal : Z;
  InBytesPerSec : Z;
  OutBytesTotal : Z;
  OutBytesPerSec : Z;
  Latency : Z }.

(** ** Header and wire codec

    [header], [request], [encodeHeader], [marshalReader] and
    [marshalWriter] are declared in files of the package that are not part
    of the sources at hand; protocol.go only uses them. *)

(** Modelled from the spec: the message envelope [header], absent from the
    sources; protocol.go builds it positionally as
    [header{version, msgID, msgType}]. *)
Record header := { version : Z; msgID : Z; msgType : Z }.

(** Modelled from the spec: the payload [request] of a block fetch, absent
    from the sources; protocol.go builds it as
    [request{name, offset, size, hash}]. *)
Record request := { name : string; offset : Z; size : Z; hash : bytes }.

(** Modelled from the spec: the header codec [encodeHeader], absent from
    the sources.  A pure transform to a 32-bit word in which the
    correlation ID has the twelve bits of the range 0..4095: four bits of
    version, twelve of ID, eight of kind, eight unused. *)
Definition encodeHeader (h : header) : Z :=
  Z.shiftl (Z.land (version h) 0xf) 28
  + Z.shiftl (Z.land (msgID h) 0xfff) 16
  + Z.shiftl (Z.land (msgType h) 0xff) 8.

(** Modelled from the spec: the inverse transform [decodeHeader]. *)
Definition decodeHeader (u : Z) : header :=
  {| version := Z.land (Z.shiftr u 28) 0xf;
     msgID := Z.land (Z.shiftr u 16) 0xfff;
     msgType := Z.land (Z.shiftr u 8) 0xff |}.

(** What one codec operation puts on the compressed stream. *)
Inductive wire_item :=
| WUint32 (w : Z)
| WIndex (idx : list FileInfo)
| WRequest (r : request)
| WResponse (data : bytes).

(** The outcome of the transport underneath one codec operation: the
    number of bytes it moved and the error it reported, if any. *)
Record io := { io_n : Z; io_err : option error }.

Definition io_ok (n : Z) : io := {| io_n := n; io_err := None |}.
Definition io_fail (e : error) : io := {| io_n := 0; io_err := Some e |}.

(** Modelled from the spec: the reading half of the wire codec, absent from
    the sources: a byte counter and a sticky error. *)
Record marshalReader := { rtot : Z; rerr : option error }.

(** Modelled from the spec: the writing half of the wire codec. *)
Record marshalWriter := { wtot : Z; werr : option error }.

(** ** Mutex, channels and the outside world *)

(** [sync.RWMutex]: held by one writer or by a number of readers. *)
Record RWMutex := { w_held : bool; r_held : nat }.

Definition mu_free : RWMutex := {| w_held := false; r_held := 0 |}.

(** An unbuffered [chan asyncResult].  [sent] keeps every value handed
    over on the channel, oldest first, [taken] counts the receives that got
    one; a send is recorded at the moment the value is handed over. *)
Record chan := { sent : list asyncResult; taken : nat; ch_closed : bool }.

Definition chan_new : chan := {| sent := []; taken := 0; ch_closed := false |}.

(** Goroutines started with a [go] statement. *)
Inductive goroutine :=
| GoReaderLoop
| GoPingerLoop
| GoAnswer (id : Z) (req : request)
| GoPing.

(** Calls that leave the package, in the order they happen. *)
Inductive event :=
| Wrote (w : wire_item)
| Flushed (r : option error)
| ModelIndex (nodeID : string) (files : list FileInfo)
| ModelRequest (nodeID : string) (req : request)
| ModelClose (nodeID : string)
| BuffersPut (data : bytes)
| Go (g : goroutine)
| LogUnknownVersion (nodeID : string) (v : Z)
| LogUnknownType (nodeID : string) (t : Z)
| Slept (d : Z).

(** ** The connection

    The fields of the Go struct, followed by the channels made so far
    ([awaiting] holds references into [chans], as the Go map holds channel
    references) and the log of outside calls.  [awaiting = None] is the nil
    map.  [receiver], [reader] and [writer] are collaborators: what they
    are told is in [trace], what they answer is an argument of the method
    that asks. *)
Record Connection := {
  mu : RWMutex;
  ID : string;
  mreader : marshalReader;
  mwriter : marshalWriter;
  closed : bool;
  awaiting : option (gmap Z nat);
  nextId : Z;
  lastReceive : Z;
  peerLatency : Z;
  lastStatistics : Statistics;
  chans : list chan;
  trace : list event }.

Definition set_mu (x : RWMutex) (c : Connection) : Connection :=
  {| mu := x; ID := ID c; mreader := mreader c; mwriter := mwriter c;
     closed := closed c; awaiting := awaiting c; nextId := nextId c;
     lastReceive := lastReceive c; peerLatency := peerLatency c;
     lastStatistics := lastStatistics c; chans := chans c; trace := trace c |}.

Definition set_mreader (x : marshalReader) (c : Connection) : Connection :=
  {| mu := mu c; ID := ID c; mreader := x; mwriter := mwriter c;
     closed := closed c; awaiting := awaiting c; nextId := nextId c;
     lastReceive := lastReceive c; peerLatency := peerLatency c;
     lastStatistics := lastStatistics c; chans := chans c; trace := trace c |}.

Definition set_mwriter (x : marshalWriter) (c : Connection) : Connection :=
  {| mu := mu c; ID := ID c; mreader := mreader c; mwriter := x;
     closed := closed c; awaiting := awaiting c; nextId := nextId c;
     lastReceive := lastReceive c; peerLatency := peerLatency c;
     lastStatistics := lastStatistics c; chans := chans c; trace := trace c |}.

Definition set_closed (x : bool) (c : Connection) : Connection :=
  {| mu := mu c; ID := ID c; mreader := mreader c; mwriter := mwriter c;
     closed := x; awaiting := awaiting c; nextId := nextId c;
     lastReceive := lastReceive c; peerLatency := peerLatency c;
     lastStatistics := lastStatistics c; chans := chans c; trace := trace c |}.

Definition set_awaiting (x : option (gmap Z nat)) (c : Connection) : Connection :=
  {| mu := mu c; ID := ID c; mreader := mreader c; mwriter := mwriter c;
     closed := closed c; awaiting := x; nextId := nextId c;
     lastReceive := lastReceive c; peerLatency := peerLatency c;
     lastStatistics := lastStatistics c; chans := chans c; trace := trace c |}.

Definition set_nextId (x : Z) (c : Connection) : Connection :=
  {| mu := mu c; ID := ID c; mreader := mreader c; mwriter := mwriter c;
     closed := closed c; awaiting := awaiting c; nextId := x;
     lastReceive := lastReceive c; peerLatency := peerLatency c;
     lastStatistics := lastStatistics c; chans := chans c; trace := trace c |}.

Definition set_lastReceive (x : Z) (c : Connection) : Connection :=
  {| mu := mu c; ID := ID c; mreader := mreader c; mwriter := mwriter c;
     closed := closed c; awaiting := awaiting c; nextId := nextId c;
     lastReceive := x; peerLatency := peerLatency c;
     lastStatistics := lastStatistics c; chans := chans c; trace := trace c |}.

Definition set_peerLatency (x : Z) (c : Connection) : Connection :=
  {| mu := mu c; ID := ID c; mreader := mreader c; mwriter := mwriter c;
     closed := closed c; awaiting := awaiting c; nextId := nextId c;
     lastReceive := lastReceive c; peerLatency := x;
     lastStatistics := lastStatistics c; chans := chans c; trace := trace c |}.

Definition set_lastStatistics (x : Statistics) (c : Connection) : Connection :=
  {| mu := mu c; ID := ID c; mreader := mreader c; mwriter := mwriter c;
     closed := closed c; awaiting := awaiting c; nextId := nextId c;
     lastReceive := lastReceive c; peerLatency := peerLatency c;
     lastStatistics := x; chans := chans c; trace := trace c |}.

Definition set_chans (x : list chan) (c : Connection) : Connection :=
  {| mu := mu c; ID := ID c; mreader := mreader c; mwriter := mwriter c;
     closed := closed c; awaiting := awaiting c; nextId := nextId c;
     lastReceive := lastReceive c; peerLatency := peerLatency c;
     lastStatistics := lastStatistics c; chans := x; trace := trace c |}.

Definition set_trace (x : list event) (c : Connection) : Connection :=
  {| mu := mu c; ID := ID c; mreader := mreader c; mwriter := mwriter c;
     closed := closed c; awaiting := awaiting c; nextId := nextId c;
     lastReceive := lastReceive c; peerLatency := peerLatency c;
     lastStatistics := lastStatistics c; chans := chans c; trace := x |}.

(** ** The monad of a goroutine's uninterrupted run *)

(** Ways in which a run does not reach its end: the run-time panics of Go
    that protocol.go can raise, a wait that nothing in the run itself can
    end, and an access to a field the mutex guards outside the mutex. *)
Inductive fault :=
| NilMapWrite        (* panic: assignment to entry in nil map *)
| SendOnClosed       (* panic: send on closed channel *)
| CloseOfClosed      (* panic: close of closed channel *)
| UnlockOfUnlocked   (* fatal error: unlock of an unlocked mutex *)
| InitFailed (e : error)   (* panic(err) in NewConnection *)
| WouldBlock         (* a Lock that is held, a receive with nothing to get *)
| DataRace           (* a guarded field touched without the mutex *)
| NoSuchChan.        (* a channel reference that was never made *)

Inductive result (A : Type) :=
| Done (a : A) (c : Connection)
| Fault (f : fault) (c : Connection).
Arguments Done {A} a c.
Arguments Fault {A} f c.

Definition M (A : Type) : Type := Connection -> result A.

#[global] Instance M_ret : MRet M := fun A a c => Done a c.

#[global] Instance M_bind : MBind M := fun A B k m c =>
  match m c with
  | Done a c' => k a c'
  | Fault f c' => Fault f c'
  end.

Definition raise {A} (f : fault) : M A := fun c => Fault f c.

(** Final state of a run, whatever its outcome. *)
Definition final {A} (r : result A) : Connection :=
  match r with Done _ c => c | Fault _ c => c end.

(** Fields outside the mutex's protection ([ID], the codecs, the world). *)
Definition peek {A} (f : Connection -> A) : M A := fun c => Done (f c) c.
Definition poke (upd : Connection -> Connection) : M unit := fun c => Done tt (upd c).

Definition emit (e : event) : M unit := poke (fun c => set_trace (trace c ++ [e]) c).

(** The mutex. *)
Definition Lock : M unit := fun c =>
  if w_held (mu c) then Fault WouldBlock c
  else match r_held (mu c) with
       | O => Done tt (set_mu {| w_held := true; r_held := 0 |} c)
       | S _ => Fault WouldBlock c
       end.

Definition Unlock : M unit := fun c =>
  if w_held (mu c) then Done tt (set_mu {| w_held := false; r_held := r_held (mu c) |} c)
  else Fault UnlockOfUnlocked c.

Definition RLock : M unit := fun c =>
  if w_held (mu c) then Fault WouldBlock c
  else Done tt (set_mu {| w_held := false; r_held := S (r_held (mu c)) |} c).

Definition RUnlock : M unit := fun c =>
  match r_held (mu c) with
  | O => Fault UnlockOfUnlocked c
  | S n => Done tt (set_mu {| w_held := w_held (mu c); r_held := n |} c)
  end.

(** The fields the mutex guards ([closed], [awaiting], [nextId],
    [lastReceive], [peerLatency], [lastStatistics]) are read with [load],
    which wants the mutex held in either mode, and written with [store],
    which wants it held for writing. *)
Definition load {A} (f : Connection -> A) : M A := fun c =>
  if w_held (mu c) then Done (f c) c
  else match r_held (mu c) with
       | O => Fault DataRace c
       | S _ => Done (f c) c
       end.

Definition store (upd : Connection -> Connection) : M unit := fun c =>
  if w_held (mu c) then Done tt (upd c) else Fault DataRace c.

(** Channels. *)
Definition make_chan : M nat := fun c =>
  Done (length (chans c)) (set_chans (chans c ++ [chan_new]) c).

Definition chan_send (ch : nat) (v : asyncResult) : M unit := fun c =>
  match chans c !! ch with
  | None => Fault NoSuchChan c
  | Some st =>
      if ch_closed st then Fault SendOnClosed c
      else Done tt (set_chans (<[ch := {| sent := sent st ++ [v]; taken := taken st;
                                           ch_closed := false |}]> (chans c)) c)
  end.

Definition chan_close (ch : nat) : M unit := fun c =>
  match chans c !! ch with
  | None => Fault NoSuchChan c
  | Some st =>
      if ch_closed st then Fault CloseOfClosed c
      else Done tt (set_chans (<[ch := {| sent := sent st; taken := taken st;
                                           ch_closed := true |}]> (chans c)) c)
  end.

(** [v, ok := <-ch]: the next value not yet taken; without one, the zero
    value and [false] when the channel is closed; otherwise the goroutine
    has to wait. *)
Definition chan_recv (ch : nat) : M (asyncResult * bool) := fun c =>
  match chans c !! ch with
  | None => Fault NoSuchChan c
  | Some st =>
      match sent st !! taken st with
      | Some v => Done (v, true)
                    (set_chans (<[ch := {| sent := sent st; taken := S (taken st);
                                            ch_closed := ch_closed st |}]> (chans c)) c)
      | None => if ch_closed st then Done (asyncResult_zero, false) c
                else Fault WouldBlock c
      end
  end.

(** [for _, x := range xs { body x }] *)
Fixpoint for_range {A} (xs : list A) (body : A -> M unit) : M unit :=
  match xs with
  | [] => mret tt
  | x :: rest => body x ;; for_range rest body
  end.

(** The channels of a Go map of channels, [nil] map included. *)
Definition map_values (m : option (gmap Z nat)) : list nat :=
  match m with
  | None => []
  | Some m => (map_to_list m).*2
  end.

(** Modelled from the spec: one write operation of the wire codec, absent
    from the sources.  With the sticky error set it does nothing; otherwise
    the bytes moved are counted and the transport's error, if any, sticks. *)
Definition mwriter_write (w : wire_item) (r : io) : M unit := fun c =>
  match werr (mwriter c) with
  | Some _ => Done tt c
  | None =>
      let c' := set_mwriter {| wtot := wtot (mwriter c) + io_n r; werr := io_err r |} c in
      match io_err r with
      | None => Done tt (set_trace (trace c' ++ [Wrote w]) c')
      | Some _ => Done tt c'
      end
  end.

Definition writeUint32 (v : Z) (r : io) : M unit := mwriter_write (WUint32 v) r.
Definition writeHeader (h : header) (r : io) : M unit := writeUint32 (encodeHeader h) r.
Definition writeIndex (idx : list FileInfo) (r : io) : M unit := mwriter_write (WIndex idx) r.
Definition writeRequest (q : request) (r : io) : M unit := mwriter_write (WRequest q) r.
Definition writeResponse (data : bytes) (r : io) : M unit := mwriter_write (WResponse data) r.

(** Modelled from the spec: one read operation of the wire codec.  [x] is
    what the stream decodes to; with the sticky error set nothing is read
    and the zero value [z] comes back. *)
Definition mreader_read {A} (z x : A) (r : io) : M A := fun c =>
  match rerr (mreader c) with
  | Some _ => Done z c
  | None =>
      Done (match io_err r with None => x | Some _ => z end)
           (set_mreader {| rtot := rtot (mreader c) + io_n r; rerr := io_err r |} c)
  end.

Definition header_zero : header := {| version := 0; msgID := 0; msgType := 0 |}.
Definition request_zero : request := {| name := ""; offset := 0; size := 0; hash := None |}.

Definition readHeader (h : header) (r : io) : M header := mreader_read header_zero h r.
Definition readIndex (fs : list FileInfo) (r : io) : M (list FileInfo) := mreader_read [] fs r.
Definition readRequest (q : request) (r : io) : M request := mreader_read request_zero q r.
Definition readResponse (d : bytes) (r : io) : M bytes := mreader_read None d r.

(** ** Machine integers, durations and floats *)

(** Go's [int] and [time.Duration] are 64-bit two's complement. *)
Definition wrap64 (z : Z) : Z := (z + 2 ^ 63) mod 2 ^ 64 - 2 ^ 63.

Definition minInt64 : Z := - 2 ^ 63.
Definition maxInt64 : Z := 2 ^ 63 - 1.

(** [time.Since(t)] at clock reading [now]: the difference, kept within the
    range of [time.Duration]. *)
Definition time_Since (t now : Z) : Z := Z.max minInt64 (Z.min maxInt64 (now - t)).

(** [float64] is IEEE 754 binary64, rounding to nearest even. *)
Definition float64_of_int (n : Z) : spec_float := binary_normalize 53 1024 n 0 false.
Definition float64_add : spec_float -> spec_float -> spec_float := SFadd 53 1024.
Definition float64_div : spec_float -> spec_float -> spec_float := SFdiv 53 1024.

(** [time.Duration.Seconds] of the Go library: whole seconds plus the
    remaining nanoseconds over [1e9]. *)
Definition Duration_Seconds (d : Z) : spec_float :=
  float64_add (float64_of_int (Z.quot d Second))
              (float64_div (float64_of_int (Z.rem d Second)) (float64_of_int 1000000000)).

(** The integer part of a finite float, towards zero. *)
Definition float64_trunc (f : spec_float) : option Z :=
  match f with
  | S754_zero _ => Some 0
  | S754_finite s m e =>
      let a := match e with
               | Z0 => Zpos m
               | Zpos p => Zpos m * 2 ^ Zpos p
               | Zneg p => Zpos m / 2 ^ Zpos p
               end in
      Some (if s then - a else a)
  | _ => None
  end.

(** The conversion [int(f)].  Go fixes it when the integer part of [f] fits
    an [int]; for every other [f] (infinities, NaN, too large) the
    conversion still succeeds with a value the platform chooses, [arch f]. *)
Definition int_of_float64 (arch : spec_float -> Z) (f : spec_float) : Z :=
  match float64_trunc f with
  | Some z => if (minInt64 <=? z) && (z <=? maxInt64) then z else arch f
  | None => arch f
  end.

(** ** The methods of [Connection] *)

Definition notnil {A} (o : option A) : bool :=
  match o with Some _ => true | None => false end.

(** What the sink answers during one outbound frame: to the header, to the
    payload and to the flush. *)
Record sink := { on_header : io; on_body : io; on_flush : option error }.

Definition sink_ok : sink :=
  {| on_header := io_ok 4; on_body := io_ok 0; on_flush := None |}.

(** [NewConnection]: [flate_err] is the error of [flate.NewWriter], [t1]
    and [t2] the two readings of the clock. *)
Definition NewConnection (nodeID : string) (flate_err : option error) (t1 t2 : Z)
  : fault + Connection :=
  match flate_err with
  | Some e => inl (InitFailed e)
  | None =>
      inr {| mu := mu_free;
             ID := nodeID;
             mreader := {| rtot := 0; rerr := None |};
             mwriter := {| wtot := 0; werr := None |};
             closed := false;
             awaiting := Some ∅;
             nextId := 0;
             lastReceive := t1;
             peerLatency := 0;
             lastStatistics := {| At := t2; InBytesTotal := 0; InBytesPerSec := 0;
                                  OutBytesTotal := 0; OutBytesPerSec := 0; Latency := 0 |};
             chans := [];
             trace := [Go GoReaderLoop; Go GoPingerLoop] |}
  end.

(** [c.flush()]: the writer is the compressor, which has [Flush]; [r] is
    what that call returns. *)
Definition flush (r : option error) : M (option error) :=
  emit (Flushed r) ;; mret r.

(** [close()] *)
Definition close : M unit :=
  Lock ;;
  cl ← load closed ;
  if cl : bool then
    Unlock
  else
    store (set_closed true) ;;
    m ← load awaiting ;
    for_range (map_values m) chan_close ;;
    store (set_awaiting None) ;;
    Unlock ;;
    id ← peek ID ;
    emit (ModelClose id).

(** The two stretches of [close()] between which other goroutines can run:
    the one under the mutex, which tells whether this call made the
    transition, and the notification of the receiver. *)
Definition close_locked : M bool :=
  Lock ;;
  cl ← load closed ;
  if cl : bool then
    Unlock ;; mret false
  else
    store (set_closed true) ;;
    m ← load awaiting ;
    for_range (map_values m) chan_close ;;
    store (set_awaiting None) ;;
    Unlock ;;
    mret true.

Definition close_notify : M unit :=
  id ← peek ID ;
  emit (ModelClose id).

(** [c.awaiting[k] = rc] *)
Definition awaiting_assign (k : Z) (rc : nat) : M unit :=
  m ← load awaiting ;
  match m with
  | None => raise NilMapWrite
  | Some m => store (set_awaiting (Some (<[k := rc]> m)))
  end.

(** [rc, ok := c.awaiting[k]] *)
Definition awaiting_lookup (k : Z) : M (option nat) :=
  m ← load awaiting ;
  mret (match m with None => None | Some m => m !! k end).

(** [delete(c.awaiting, k)] *)
Definition awaiting_delete (k : Z) : M unit :=
  m ← load awaiting ;
  match m with
  | None => mret tt
  | Some m => store (set_awaiting (Some (delete k m)))
  end.

(** [Index] *)
Definition Index (idx : list FileInfo) (s : sink) : M unit :=
  Lock ;;
  id ← load nextId ;
  writeHeader {| version := 0; msgID := id; msgType := messageTypeIndex |} (on_header s) ;;
  writeIndex idx (on_body s) ;;
  err ← flush (on_flush s) ;
  n ← load nextId ;
  store (set_nextId (Z.land (wrap64 (n + 1)) 0xfff)) ;;
  Unlock ;;
  we ← peek (fun c => werr (mwriter c)) ;
  if notnil err || notnil we then close else mret tt.

(** [Request], up to the receive on the result channel: either the call has
    returned ([inr]) or it goes on to wait on the channel it registered
    ([inl]). *)
Definition Request_send (name : string) (offset size : Z) (hash : bytes) (s : sink)
  : M (nat + bytes * option error) :=
  Lock ;;
  rc ← make_chan ;
  id ← load nextId ;
  awaiting_assign id rc ;;
  writeHeader {| version := 0; msgID := id; msgType := messageTypeRequest |} (on_header s) ;;
  writeRequest {| name := name; offset := offset; size := size; hash := hash |} (on_body s) ;;
  we ← peek (fun c => werr (mwriter c)) ;
  if notnil we then
    Unlock ;;
    close ;;
    we' ← peek (fun c => werr (mwriter c)) ;
    mret (inr (None, we'))
  else
    err ← flush (on_flush s) ;
    if notnil err then
      Unlock ;;
      close ;;
      mret (inr (None, err))
    else
      n ← load nextId ;
      store (set_nextId (Z.land (wrap64 (n + 1)) 0xfff)) ;;
      Unlock ;;
      mret (inl rc).

(** [Request], from the receive on. *)
Definition Request_recv (rc : nat) : M (bytes * option error) :=
  r ← chan_recv rc ;
  if negb r.2 then mret (None, Some ErrClosed)
  else mret (val r.1, err r.1).

Definition Request (name : string) (offset size : Z) (hash : bytes) (s : sink)
  : M (bytes * option error) :=
  r ← Request_send name offset size hash s ;
  match r with
  | inl rc => Request_recv rc
  | inr res => mret res
  end.

(** [Ping], up to the receive; [t0] is the clock at the send. *)
Definition Ping_send (t0 : Z) (s : sink) : M (nat + Z * bool) :=
  Lock ;;
  rc ← make_chan ;
  id ← load nextId ;
  awaiting_assign id rc ;;
  writeHeader {| version := 0; msgID := id; msgType := messageTypePing |} (on_header s) ;;
  err ← flush (on_flush s) ;
  we ← peek (fun c => werr (mwriter c)) ;
  if notnil err || notnil we then
    Unlock ;;
    close ;;
    mret (inr (0, false))
  else
    n ← load nextId ;
    store (set_nextId (Z.land (wrap64 (n + 1)) 0xfff)) ;;
    Unlock ;;
    mret (inl rc).

(** [Ping], from the receive on; [now] is the clock after it. *)
Definition Ping_recv (t0 now : Z) (rc : nat) : M (Z * bool) :=
  r ← chan_recv rc ;
  mret (time_Since t0 now, r.2).

Definition Ping (t0 now : Z) (s : sink) : M (Z * bool) :=
  r ← Ping_send t0 s ;
  match r with
  | inl rc => Ping_recv t0 now rc
  | inr res => mret res
  end.

(** [Stop] *)
Definition Stop : M unit := mret tt.

(** [isClosed] *)
Definition isClosed : M bool :=
  RLock ;;
  cl ← load closed ;
  RUnlock ;;
  mret cl.

(** The goroutine that [processRequest] starts for a decoded request:
    [answer] is what the receiver returns, [s] what the sink does with the
    response frame. *)
Definition processRequest_go (msgID : Z) (req : request)
    (answer : bytes * option error) (s : sink) : M unit :=
  id ← peek ID ;
  emit (ModelRequest id req) ;;
  let data := answer.1 in
  Lock ;;
  writeUint32 (encodeHeader {| version := 0; msgID := msgID;
                               msgType := messageTypeResponse |}) (on_header s) ;;
  writeResponse data (on_body s) ;;
  err ← flush (on_flush s) ;
  Unlock ;;
  emit (BuffersPut data) ;;
  we ← peek (fun c => werr (mwriter c)) ;
  if notnil we || notnil err then close else mret tt.

(** [processRequest]: [q] with [r] is what the stream holds for the
    payload. *)
Definition processRequest (msgID : Z) (q : request) (r : io) : M unit :=
  req ← readRequest q r ;
  re ← peek (fun c => rerr (mreader c)) ;
  if notnil re then close
  else emit (Go (GoAnswer msgID req)).

(** What the reader loop meets during one turn: the header on the stream
    and the clock, then, by kind, the payload on the stream, and the sink's
    answers when a pong is written back. *)
Record inbound := {
  in_header : header;
  in_header_io : io;
  in_now : Z;
  in_files : list FileInfo;
  in_request : request;
  in_data : bytes;
  in_body_io : io;
  in_sink : sink }.

(** One turn of the loop of [readerLoop]; [true] stands for [break]. *)
Definition readerLoop_body (i : inbound) : M bool :=
  hdr ← readHeader (in_header i) (in_header_io i) ;
  re ← peek (fun c => rerr (mreader c)) ;
  if notnil re then
    close ;; mret true
  else if negb (version hdr =? 0) then
    id ← peek ID ;
    emit (LogUnknownVersion id (version hdr)) ;;
    close ;; mret true
  else
    Lock ;;
    store (set_lastReceive (in_now i)) ;;
    Unlock ;;
    (if msgType hdr =? messageTypeIndex then
       files ← readIndex (in_files i) (in_body_io i) ;
       re ← peek (fun c => rerr (mreader c)) ;
       if notnil re then close
       else id ← peek ID ; emit (ModelIndex id files)
     else if msgType hdr =? messageTypeRequest then
       processRequest (msgID hdr) (in_request i) (in_body_io i) ;;
       re ← peek (fun c => rerr (mreader c)) ;
       we ← peek (fun c => werr (mwriter c)) ;
       if notnil re || notnil we then close else mret tt
     else if msgType hdr =? messageTypeResponse then
       data ← readResponse (in_data i) (in_body_io i) ;
       re ← peek (fun c => rerr (mreader c)) ;
       if notnil re then close
       else
         RLock ;;
         rc ← awaiting_lookup (msgID hdr) ;
         RUnlock ;;
         match rc with
         | Some rc =>
             re ← peek (fun c => rerr (mreader c)) ;
             chan_send rc {| val := data; err := re |} ;;
             chan_close rc ;;
             Lock ;;
             awaiting_delete (msgID hdr) ;;
             Unlock
         | None => mret tt
         end
     else if msgType hdr =? messageTypePing then
       Lock ;;
       writeUint32 (encodeHeader {| version := 0; msgID := msgID hdr;
                                    msgType := messageTypePong |})
                   (on_header (in_sink i)) ;;
       err ← flush (on_flush (in_sink i)) ;
       Unlock ;;
       we ← peek (fun c => werr (mwriter c)) ;
       if notnil err || notnil we then close else mret tt
     else if msgType hdr =? messageTypePong then
       RLock ;;
       rc ← awaiting_lookup (msgID hdr) ;
       RUnlock ;;
       match rc with
       | Some rc =>
           chan_send rc asyncResult_zero ;;
           chan_close rc ;;
           Lock ;;
           awaiting_delete (msgID hdr) ;;
           Unlock
       | None => mret tt
       end
     else
       id ← peek ID ;
       emit (LogUnknownType id (msgType hdr)) ;;
       close) ;;
    mret false.

(** [readerLoop], over what arrives; it stops where the input stops. *)
Fixpoint readerLoop (input : list inbound) : M unit :=
  match input with
  | [] => mret tt
  | i :: rest =>
      cl ← isClosed ;
      if cl : bool then mret tt
      else
        brk ← readerLoop_body i ;
        if brk : bool then mret tt else readerLoop rest
  end.

(** What the pinger meets during one turn: the clock, and, when it pings,
    which case of the [select] fires: [Some lat] when the goroutine running
    [Ping] hands over its latency before the timer, [None] when the timer
    of [pingTimeout] fires first. *)
Record tick := { tick_now : Z; tick_select : option Z }.

(** One turn of the loop of [pingerLoop]. *)
Definition pingerLoop_body (t : tick) : M unit :=
  RLock ;;
  lr ← load lastReceive ;
  RUnlock ;;
  (if pingIdleTime <? time_Since lr (tick_now t) then
     emit (Go GoPing) ;;
     match tick_select t with
     | Some lat =>
         Lock ;;
         old ← load peerLatency ;
         store (set_peerLatency (Z.quot (wrap64 (old + lat)) 2)) ;;
         Unlock
     | None => close
     end
   else mret tt) ;;
  emit (Slept Second).

Fixpoint pingerLoop (ticks : list tick) : M unit :=
  match ticks with
  | [] => mret tt
  | t :: rest =>
      cl ← isClosed ;
      if cl : bool then mret tt
      else pingerLoop_body t ;; pingerLoop rest
  end.

(** [Statistics]: [t1] and [t2] are the two readings of the clock, in
    [time.Since] and in [time.Now]. *)
Definition Connection_Statistics (arch : spec_float -> Z) (t1 t2 : Z) : M Statistics :=
  Lock ;;
  last ← load lastStatistics ;
  let secs := Duration_Seconds (time_Since (At last) t1) in
  rt ← peek (fun c => rtot (mreader c)) ;
  wt ← peek (fun c => wtot (mwriter c)) ;
  lat ← load peerLatency ;
  let stats :=
    {| At := t2;
       InBytesTotal := rt;
       InBytesPerSec :=
         int_of_float64 arch
           (float64_div (float64_of_int (wrap64 (rt - InBytesTotal last))) secs);
       OutBytesTotal := wt;
       OutBytesPerSec :=
         int_of_float64 arch
           (float64_div (float64_of_int (wrap64 (wt - OutBytesTotal last))) secs);
       Latency := lat |} in
  store (set_lastStatistics stats) ;;
  Unlock ;;
  mret stats.

(** ** Running the programs in proofs *)

Lemma bind_Done {A B} (m : M A) (k : A -> M B) c a c' :
  m c = Done a c' -> (m ≫= k) c = k a c'.
Proof. intros H. unfold mbind, M_bind. now rewrite H. Qed.

Lemma bind_Fault {A B} (m : M A) (k : A -> M B) c f c' :
  m c = Fault f c' -> (m ≫= k) c = Fault f c'.
Proof. intros H. unfold mbind, M_bind. now rewrite H. Qed.

(** The channels after [close(ch)] for every [ch] of [l]. *)
Definition mark_closed (st : chan) : chan :=
  {| sent := sent st; taken := taken st; ch_closed := true |}.

Definition close_each (l : list nat) (cs : list chan) : list chan :=
  imap (fun i st => if decide (i ∈ l) then mark_closed st else st) cs.

Lemma close_each_lookup l cs i :
  close_each l cs !! i =
  (fun st => if decide (i ∈ l) then mark_closed st else st) <$> cs !! i.
Proof. unfold close_each. now rewrite list_lookup_imap. Qed.

Lemma close_each_nil cs : close_each [] cs = cs.
Proof.
  apply list_eq. intros i. rewrite close_each_lookup.
  destruct (cs !! i); simpl; [|done].
  destruct (decide (i ∈ [])) as [H|]; [|done]. now apply elem_of_nil in H.
Qed.

Lemma close_each_cons ch l cs st :
  cs !! ch = Some st -> ch ∉ l ->
  close_each l (<[ch := mark_closed st]> cs) = close_each (ch :: l) cs.
Proof.
  intros Hch Hnl. apply list_eq. intros i. rewrite !close_each_lookup.
  destruct (decide (i = ch)) as [->|Hne].
  - rewrite list_lookup_insert_eq by (eapply lookup_lt_Some; eauto).
    rewrite Hch. simpl.
    destruct (decide (ch ∈ l)); [done|].
    destruct (decide (ch ∈ ch :: l)) as [|Hn]; [done|].
    exfalso. apply Hn. left.
  - rewrite list_lookup_insert_ne by done.
    destruct (cs !! i); simpl; [|done].
    destruct (decide (i ∈ l)), (decide (i ∈ ch :: l)) as [H'|H']; try done.
    + exfalso. apply H'. now right.
    + apply elem_of_cons in H'. destruct H'; congruence.
Qed.

Lemma for_range_chan_close l : forall c,
  NoDup l ->
  (forall ch, ch ∈ l -> exists st, chans c !! ch = Some st /\ ch_closed st = false) ->
  for_range l chan_close c = Done tt (set_chans (close_each l (chans c)) c).
Proof.
  induction l as [|ch l IH]; intros c Hnd Hopen.
  - simpl. rewrite close_each_nil. now destruct c.
  - inversion Hnd as [|? ? Hnotin Hnd']; subst.
    destruct (Hopen ch) as (st & Hst & Hcl); [left|].
    simpl. erewrite bind_Done; cycle 1.
    { unfold chan_close. rewrite Hst, Hcl. reflexivity. }
    rewrite IH; [| done |].
    + simpl. f_equal. fold (mark_closed st).
      rewrite (close_each_cons ch l (chans c) st) by done. now destruct c.
    + intros ch' Hin. simpl.
      destruct (Hopen ch') as (st' & Hst' & Hcl'); [now right|].
      exists st'. split; [|done].
      rewrite list_lookup_insert_ne; [done|]. intros ->. done.
Qed.

(** ** Well-formed connections *)

(** [k] is pending with result channel [ch]. *)
Definition registered (c : Connection) (k : Z) (ch : nat) : Prop :=
  exists m, awaiting c = Some m /\ m !! k = Some ch.

(** The calls of [receiver.Close] so far, by the node ID they passed. *)
Definition close_calls (tr : list event) : list string :=
  omap (fun e => match e with ModelClose id => Some id | _ => None end) tr.

Definition notified (c : Connection) : list string := close_calls (trace c).

(** What [close()] needs of the channels in the table: they are distinct
    and none is closed yet. *)
Definition channels_ready (c : Connection) : Prop :=
  NoDup (map_values (awaiting c)) /\
  forall ch, ch ∈ map_values (awaiting c) ->
    exists st, chans c !! ch = Some st /\ ch_closed st = false.

(** The states the connection is in between two uninterrupted runs: the
    mutex is free, the table is nil exactly when the connection is closed,
    the channels in the table are distinct and still as [make] left them,
    no channel got more than one value, every value handed over carries no
    error, and [nextId] is a 12-bit number. *)
Record wf (c : Connection) : Prop := {
  wf_mu : mu c = mu_free;
  wf_closed : closed c = true <-> awaiting c = None;
  wf_fresh : forall k ch, registered c k ch -> chans c !! ch = Some chan_new;
  wf_inj : forall k1 k2 ch, registered c k1 ch -> registered c k2 ch -> k1 = k2;
  wf_once : forall ch st, chans c !! ch = Some st -> (length (sent st) <= 1)%nat;
  wf_noerr : forall ch st v, chans c !! ch = Some st -> v ∈ sent st -> err v = None;
  wf_nextId : 0 <= nextId c < 4096 }.

Lemma elem_of_map_values c ch :
  ch ∈ map_values (awaiting c) <-> exists k, registered c k ch.
Proof.
  unfold map_values, registered. destruct (awaiting c) as [m|].
  - rewrite list_elem_of_fmap. split.
    + intros ([k v] & -> & Hin). apply elem_of_map_to_list in Hin. eauto.
    + intros (k & m' & [= <-] & Hk). exists (k, ch). split; [done|].
      now apply elem_of_map_to_list.
  - split; [intros H; now apply elem_of_nil in H|].
    intros (k & m' & [=] & _).
Qed.

Lemma wf_channels_ready c : wf c -> channels_ready c.
Proof.
  intros Hwf. split.
  - pose proof (wf_inj c Hwf) as Hinj. unfold registered in Hinj.
    unfold map_values. destruct (awaiting c) as [m|]; [|constructor].
    apply NoDup_fmap_2_strong; [|apply NoDup_map_to_list].
    intros [k1 v1] [k2 v2] H1 H2. simpl. intros <-.
    apply elem_of_map_to_list in H1, H2. f_equal. eapply Hinj; eauto.
  - intros ch Hin. apply elem_of_map_values in Hin as (k & Hreg).
    exists chan_new. split; [|done]. eapply wf_fresh; eauto.
Qed.

(** The connection after a call of [close()]. *)
Definition after_close (c : Connection) : Connection :=
  if closed c then c
  else set_trace (trace c ++ [ModelClose (ID c)])
         (set_awaiting None
            (set_chans (close_each (map_values (awaiting c)) (chans c))
               (set_closed true c))).

Ltac unsetters :=
  unfold set_mu, set_mreader, set_mwriter, set_closed, set_awaiting, set_nextId,
    set_lastReceive, set_peerLatency, set_lastStatistics, set_chans, set_trace in *.

(** Run a program on a connection whose fields are known. *)
Ltac run :=
  unfold mbind, M_bind, mret, M_ret, Lock, Unlock, RLock, RUnlock, load, store,
    peek, poke, emit, raise, flush, notnil;
  unsetters; simpl.

Lemma close_spec c :
  mu c = mu_free -> channels_ready c -> close c = Done tt (after_close c).
Proof.
  intros Hmu [Hnd Hopen]. unfold after_close.
  destruct c as [m i r w cl aw n lr pl ls cs tr]; simpl in *; subst m.
  unfold close. run.
  destruct cl; [reflexivity|]. simpl.
  rewrite for_range_chan_close by done. run. reflexivity.
Qed.

Lemma close_locked_spec c :
  mu c = mu_free -> channels_ready c ->
  close_locked c =
  Done (negb (closed c))
       (if closed c then c
        else set_awaiting None
               (set_chans (close_each (map_values (awaiting c)) (chans c))
                  (set_closed true c))).
Proof.
  intros Hmu [Hnd Hopen].
  destruct c as [m i r w cl aw n lr pl ls cs tr]; simpl in *; subst m.
  unfold close_locked. run.
  destruct cl; [reflexivity|]. simpl.
  rewrite for_range_chan_close by done. run. reflexivity.
Qed.

(** [close()] is its two stretches, one after the other. *)
Lemma close_stretches c :
  close c = (first ← close_locked ; if first : bool then close_notify else mret tt) c.
Proof.
  unfold close, close_locked, close_notify, mbind, M_bind.
  destruct (Lock c) as [[] c1|]; [|reflexivity].
  destruct (load closed c1) as [cl c2|]; [|reflexivity].
  destruct cl.
  - destruct (Unlock c2) as [[] c3|]; reflexivity.
  - destruct (store (set_closed true) c2) as [[] c3|]; [|reflexivity].
    destruct (load awaiting c3) as [m c4|]; [|reflexivity].
    destruct (for_range (map_values m) chan_close c4) as [[] c5|]; [|reflexivity].
    destruct (store (set_awaiting None) c5) as [[] c6|]; [|reflexivity].
    destruct (Unlock c6) as [[] c7|]; reflexivity.
Qed.

(** ** How well-formedness is kept *)

Lemma registered_lt c k ch : wf c -> registered c k ch -> (ch < length (chans c))%nat.
Proof. intros Hwf Hreg. eapply lookup_lt_Some, wf_fresh; eauto. Qed.

(** Fields that well-formedness does not look at may change freely. *)
Lemma wf_ext c c' :
  wf c -> mu c' = mu_free -> closed c' = closed c -> awaiting c' = awaiting c ->
  chans c' = chans c -> 0 <= nextId c' < 4096 -> wf c'.
Proof.
  intros [H1 H2 H3 H4 H5 H6 H7] Hmu Hcl Haw Hch Hn.
  split; unfold registered in *; rewrite ?Hcl, ?Haw, ?Hch; auto.
Qed.

(** A new channel is made and put in the table under [k]. *)
Lemma wf_register c c' m k :
  wf c -> awaiting c = Some m -> mu c' = mu_free -> closed c' = closed c ->
  awaiting c' = Some (<[k := length (chans c)]> m) ->
  chans c' = chans c ++ [chan_new] -> 0 <= nextId c' < 4096 -> wf c'.
Proof.
  intros Hwf Hm Hmu Hcl Haw Hch Hn.
  assert (Hreg : forall k' ch, registered c' k' ch ->
            (k' = k /\ ch = length (chans c)) \/ (k' <> k /\ registered c k' ch)).
  { intros k' ch (m' & Hm' & Hk'). rewrite Haw in Hm'. injection Hm' as <-.
    destruct (decide (k = k')) as [->|Hne].
    - rewrite lookup_insert_eq in Hk'. left. split; congruence.
    - rewrite lookup_insert_ne in Hk' by done. right. split; [done|].
      exists m. done. }
  split.
  - done.
  - rewrite Hcl, Haw. rewrite (wf_closed c Hwf), Hm. split; congruence.
  - intros k' ch Hr. rewrite Hch. destruct (Hreg _ _ Hr) as [[-> ->]|[_ Hr']].
    + rewrite lookup_app_r by lia. now rewrite Nat.sub_diag.
    + rewrite lookup_app_l by (eapply registered_lt; eauto).
      eapply wf_fresh; eauto.
  - intros k1 k2 ch Hr1 Hr2.
    destruct (Hreg _ _ Hr1) as [[-> ->]|[? Hr1']], (Hreg _ _ Hr2) as [[-> E]|[? Hr2']];
      try done.
    + apply (registered_lt c _ _ Hwf) in Hr2'. lia.
    + subst ch. apply (registered_lt c _ _ Hwf) in Hr1'. lia.
    + eapply wf_inj; eauto.
  - intros ch st. rewrite Hch. intros Hst.
    apply lookup_app_Some in Hst as [Hst|[_ Hst]].
    + eapply wf_once; eauto.
    + apply list_lookup_singleton_Some in Hst as [_ <-]. simpl. lia.
  - intros ch st v. rewrite Hch. intros Hst Hv.
    apply lookup_app_Some in Hst as [Hst|[_ Hst]].
    + eapply wf_noerr; eauto.
    + apply list_lookup_singleton_Some in Hst as [_ <-]. simpl in Hv.
      now apply elem_of_nil in Hv.
  - done.
Qed.

(** The reader hands one value without error to the channel under [k],
    closes it and takes the entry out. *)
Lemma wf_deliver c c' m k ch v :
  wf c -> awaiting c = Some m -> m !! k = Some ch -> err v = None ->
  mu c' = mu_free -> closed c' = closed c ->
  awaiting c' = Some (delete k m) ->
  chans c' = <[ch := {| sent := [v]; taken := 0; ch_closed := true |}]> (chans c) ->
  0 <= nextId c' < 4096 -> wf c'.
Proof.
  intros Hwf Hm Hk Hv Hmu Hcl Haw Hch Hn.
  assert (Hreg : forall k' ch', registered c' k' ch' -> k' <> k /\ registered c k' ch').
  { intros k' ch' (m' & Hm' & Hk'). rewrite Haw in Hm'. injection Hm' as <-.
    apply lookup_delete_Some in Hk' as [Hne Hk']. split; [done|]. exists m. done. }
  assert (Hother : forall k' ch', registered c' k' ch' -> ch' <> ch).
  { intros k' ch' Hr ->. destruct (Hreg _ _ Hr) as [Hne Hr'].
    apply Hne. eapply wf_inj; eauto. exists m. done. }
  split.
  - done.
  - rewrite Hcl, Haw. rewrite (wf_closed c Hwf), Hm. split; congruence.
  - intros k' ch' Hr. rewrite Hch.
    rewrite list_lookup_insert_ne by (intros E; eapply Hother; eauto).
    eapply wf_fresh; [done|]. eapply Hreg; eauto.
  - intros k1 k2 ch' Hr1 Hr2. eapply wf_inj; [done| |]; eapply Hreg; eauto.
  - intros ch' st. rewrite Hch. intros Hst.
    apply list_lookup_insert_Some in Hst as [(-> & <- & _)|[_ Hst]].
    + simpl. lia.
    + eapply wf_once; eauto.
  - intros ch' st v'. rewrite Hch. intros Hst Hv'.
    apply list_lookup_insert_Some in Hst as [(-> & <- & _)|[_ Hst]].
    + simpl in Hv'. apply list_elem_of_singleton in Hv'. now subst.
    + eapply wf_noerr; eauto.
  - done.
Qed.

(** A waiting caller takes the value out of a channel. *)
Lemma wf_take c c' ch st v :
  wf c -> chans c !! ch = Some st -> sent st !! taken st = Some v ->
  mu c' = mu_free -> closed c' = closed c -> awaiting c' = awaiting c ->
  chans c' = <[ch := {| sent := sent st; taken := S (taken st);
                        ch_closed := ch_closed st |}]> (chans c) ->
  0 <= nextId c' < 4096 -> wf c'.
Proof.
  intros Hwf Hst Hv Hmu Hcl Haw Hch Hn.
  assert (Hreg : forall k' ch', registered c' k' ch' -> registered c k' ch').
  { intros k' ch'. unfold registered. now rewrite Haw. }
  split.
  - done.
  - rewrite Hcl, Haw. apply (wf_closed c Hwf).
  - intros k' ch' Hr. apply Hreg in Hr. rewrite Hch.
    pose proof (wf_fresh c Hwf _ _ Hr) as Hnew.
    rewrite list_lookup_insert_ne; [done|]. intros <-.
    rewrite Hst in Hnew. injection Hnew as ->. simpl in Hv. done.
  - intros k1 k2 ch' Hr1 Hr2. eapply wf_inj; eauto.
  - intros ch' st'. rewrite Hch. intros Hst'.
    apply list_lookup_insert_Some in Hst' as [(-> & <- & _)|[_ Hst']].
    + simpl. eapply wf_once; eauto.
    + eapply wf_once; eauto.
  - intros ch' st' v'. rewrite Hch. intros Hst' Hv'.
    apply list_lookup_insert_Some in Hst' as [(-> & <- & _)|[_ Hst']].
    + simpl in Hv'. eapply wf_noerr; eauto.
    + eapply wf_noerr; eauto.
  - done.
Qed.

(** The table is drained by [close()]. *)
Lemma wf_drained c c' :
  wf c -> mu c' = mu_free -> closed c' = true -> awaiting c' = None ->
  chans c' = close_each (map_values (awaiting c)) (chans c) ->
  0 <= nextId c' < 4096 -> wf c'.
Proof.
  intros Hwf Hmu Hcl Haw Hch Hn.
  split.
  - done.
  - rewrite Hcl, Haw. done.
  - intros k ch (m & Hm & _). congruence.
  - intros k1 k2 ch (m & Hm & _). congruence.
  - intros ch st. rewrite Hch, close_each_lookup.
    destruct (chans c !! ch) as [st0|] eqn:E; simpl; [|done].
    intros [= <-]. pose proof (wf_once c Hwf _ _ E).
    destruct (decide _); simpl; done.
  - intros ch st v. rewrite Hch, close_each_lookup.
    destruct (chans c !! ch) as [st0|] eqn:E; simpl; [|done].
    intros [= <-] Hv. eapply (wf_noerr c Hwf _ _ v E).
    destruct (decide _); simpl in Hv; done.
  - done.
Qed.

Lemma wf_after_close c : wf c -> wf (after_close c).
Proof.
  intros Hwf. unfold after_close. destruct (closed c) eqn:E; [done|].
  eapply wf_drained; eauto; try reflexivity.
  - simpl. apply (wf_mu c Hwf).
  - simpl. apply (wf_nextId c Hwf).
Qed.

Lemma wf_NewConnection nodeID t1 t2 c :
  NewConnection nodeID None t1 t2 = inr c -> wf c.
Proof.
  intros [= <-]. split; simpl; try done.
  - intros k ch (m & [= <-] & Hk). now rewrite lookup_empty in Hk.
  - intros k1 k2 ch (m & [= <-] & Hk). now rewrite lookup_empty in Hk.
Qed.

Arguments close : simpl never.
Arguments for_range : simpl never.

(** ** What every uninterrupted run keeps and changes

    [step_ok over dlv c c'] collects what holds between the connection
    before and after any of the runs below, where [over] is the key a
    correlated send assigns and [dlv] the key of the Response or Pong a
    reader turn carries: well-formedness is kept, the node ID and the
    channels made stay, a closed connection stays closed, the receiver is
    told of the close by the run that closes and by no other, a channel in
    the table afterwards was there before or is new, and an entry that is
    gone was overwritten by the send (its channel left as it was), or was
    answered by the reader (one value, closed), or was drained by
    [close()] (no value, closed). *)
Record step_ok (over dlv : option Z) (c c' : Connection) : Prop := {
  so_wf : wf c';
  so_ID : ID c' = ID c;
  so_mono : closed c = true -> closed c' = true;
  so_notified :
    notified c' = notified c ++ (if closed c then [] else if closed c' then [ID c] else []);
  so_new : forall k ch, registered c' k ch ->
    registered c k ch \/ (length (chans c) <= ch)%nat;
  so_removed : forall k ch, registered c k ch -> ~ registered c' k ch ->
    (over = Some k /\ chans c' !! ch = Some chan_new) \/
    (dlv = Some k /\ closed c' = closed c /\
     exists v, chans c' !! ch = Some {| sent := [v]; taken := 0; ch_closed := true |}) \/
    (closed c = false /\ closed c' = true /\ chans c' !! ch = Some (mark_closed chan_new));
  so_chans : (length (chans c) <= length (chans c'))%nat }.

Lemma close_calls_app tr1 tr2 : close_calls (tr1 ++ tr2) = close_calls tr1 ++ close_calls tr2.
Proof. unfold close_calls. apply omap_app. Qed.

Lemma after_close_closed c : closed (after_close c) = true.
Proof. unfold after_close. destruct (closed c) eqn:E; simpl; done. Qed.

Lemma after_close_idem c : after_close (after_close c) = after_close c.
Proof. unfold after_close at 1. now rewrite after_close_closed. Qed.

Lemma after_close_chan c ch :
  closed c = false ->
  chans (after_close c) !! ch =
  (fun st => if decide (ch ∈ map_values (awaiting c)) then mark_closed st else st)
    <$> chans c !! ch.
Proof. intros E. unfold after_close. rewrite E. simpl. apply close_each_lookup. Qed.

Lemma after_close_unregistered c k ch : wf c -> ~ registered (after_close c) k ch.
Proof.
  intros Hwf (m & Hm & _). unfold after_close in Hm.
  destruct (closed c) eqn:E; simpl in Hm; [|done].
  apply (wf_closed c Hwf) in E. congruence.
Qed.

Lemma step_ok_after_close over dlv c : wf c -> step_ok over dlv c (after_close c).
Proof.
  intros Hwf. split.
  - now apply wf_after_close.
  - unfold after_close. destruct (closed c); done.
  - intros _. apply after_close_closed.
  - rewrite after_close_closed. unfold after_close, notified.
    destruct (closed c); simpl; [now rewrite app_nil_r|].
    now rewrite close_calls_app.
  - intros k ch Hr. now apply after_close_unregistered in Hr.
  - intros k ch Hreg _. right. right.
    destruct (closed c) eqn:E.
    { apply (wf_closed c Hwf) in E. destruct Hreg as (m & Hm & _). congruence. }
    split; [done|]. split; [apply after_close_closed|].
    rewrite after_close_chan by done. rewrite (wf_fresh c Hwf _ _ Hreg). simpl.
    destruct (decide _) as [|Hn]; [done|].
    exfalso. apply Hn. apply elem_of_map_values. eauto.
  - unfold after_close. destruct (closed c); simpl; [done|].
    unfold close_each. now rewrite length_imap.
Qed.

(** A run that leaves the mutex free and does not touch [closed], the
    table, the channels, the node ID or the calls of [receiver.Close]. *)
Lemma step_ok_ext over dlv c c' :
  wf c -> mu c' = mu_free -> ID c' = ID c -> closed c' = closed c ->
  awaiting c' = awaiting c -> chans c' = chans c -> 0 <= nextId c' < 4096 ->
  notified c' = notified c -> step_ok over dlv c c'.
Proof.
  intros Hwf Hmu Hid Hcl Haw Hch Hn Hnot. split.
  - eapply wf_ext; eauto.
  - done.
  - congruence.
  - rewrite Hnot, Hcl. destruct (closed c); now rewrite app_nil_r.
  - intros k ch Hr. left. unfold registered in *. now rewrite <- Haw.
  - intros k ch Hr Hn'. exfalso. apply Hn'. unfold registered in *. now rewrite Haw.
  - now rewrite Hch.
Qed.

(** The same run followed by [close()]. *)
Lemma step_ok_ext_close over dlv c c1 :
  wf c -> mu c1 = mu_free -> ID c1 = ID c -> closed c1 = closed c ->
  awaiting c1 = awaiting c -> chans c1 = chans c -> 0 <= nextId c1 < 4096 ->
  notified c1 = notified c -> step_ok over dlv c (after_close c1).
Proof.
  intros Hwf Hmu Hid Hcl Haw Hch Hn Hnot.
  assert (Hwf1 : wf c1) by (eapply wf_ext; eauto).
  destruct (step_ok_after_close over dlv c1 Hwf1) as [B1 B2 B3 B4 B5 B6 B7]. split.
  - done.
  - congruence.
  - intros _. apply after_close_closed.
  - rewrite B4, Hnot, Hcl, Hid. done.
  - intros k ch Hr. now apply after_close_unregistered in Hr.
  - intros k ch Hreg Hnr. rewrite <- Hcl. apply B6; [|done].
    unfold registered in *. now rewrite Haw.
  - now rewrite <- Hch.
Qed.

(** A correlated send: a new channel under [nextId]. *)
Lemma step_ok_reg dlv c c1 m :
  wf c -> awaiting c = Some m -> mu c1 = mu_free -> ID c1 = ID c ->
  closed c1 = closed c ->
  awaiting c1 = Some (<[nextId c := length (chans c)]> m) ->
  chans c1 = chans c ++ [chan_new] -> 0 <= nextId c1 < 4096 ->
  notified c1 = notified c -> step_ok (Some (nextId c)) dlv c c1.
Proof.
  intros Hwf Hm Hmu Hid Hcl Haw Hch Hn Hnot. split.
  - eapply wf_register; eauto.
  - done.
  - congruence.
  - rewrite Hnot, Hcl. destruct (closed c); now rewrite app_nil_r.
  - intros k ch (m' & Hm' & Hk). rewrite Haw in Hm'. injection Hm' as <-.
    destruct (decide (nextId c = k)) as [<-|Hne].
    + rewrite lookup_insert_eq in Hk. injection Hk as <-. now right.
    + rewrite lookup_insert_ne in Hk by done. left. exists m. done.
  - intros k ch Hreg Hnr. left.
    destruct (decide (nextId c = k)) as [<-|Hne].
    + split; [done|]. rewrite Hch, lookup_app_l by (eapply registered_lt; eauto).
      eapply wf_fresh; eauto.
    + exfalso. apply Hnr. destruct Hreg as (m' & Hm' & Hk).
      exists (<[nextId c := length (chans c)]> m). split; [done|].
      rewrite lookup_insert_ne by done. congruence.
  - rewrite Hch, length_app. lia.
Qed.

(** A correlated send that fails and closes. *)
Lemma step_ok_reg_close dlv c c1 m :
  wf c -> awaiting c = Some m -> mu c1 = mu_free -> ID c1 = ID c ->
  closed c1 = closed c ->
  awaiting c1 = Some (<[nextId c := length (chans c)]> m) ->
  chans c1 = chans c ++ [chan_new] -> 0 <= nextId c1 < 4096 ->
  notified c1 = notified c -> step_ok (Some (nextId c)) dlv c (after_close c1).
Proof.
  intros Hwf Hm Hmu Hid Hcl Haw Hch Hn Hnot.
  pose proof (step_ok_reg dlv c c1 m Hwf Hm Hmu Hid Hcl Haw Hch Hn Hnot)
    as [A1 A2 A3 A4 A5 A6 A7].
  destruct (step_ok_after_close (Some (nextId c)) dlv c1 A1) as [B1 B2 B3 B4 B5 B6 B7].
  assert (Hop : closed c = false).
  { destruct (closed c) eqn:E; [|done]. apply (wf_closed c Hwf) in E. congruence. }
  split.
  - done.
  - congruence.
  - intros _. apply after_close_closed.
  - rewrite B4, Hnot, Hcl, Hid. done.
  - intros k ch Hr. now apply after_close_unregistered in Hr.
  - intros k ch Hreg _.
    destruct (decide (nextId c = k)) as [<-|Hne].
    + left. split; [done|]. rewrite after_close_chan by congruence.
      rewrite Hch, lookup_app_l by (eapply registered_lt; eauto).
      rewrite (wf_fresh c Hwf _ _ Hreg). simpl.
      destruct (decide _) as [Hin|]; [|done]. exfalso.
      apply elem_of_map_values in Hin as (k' & Hr').
      destruct (A5 _ _ Hr') as [Hr''|Hge].
      * pose proof (wf_inj c Hwf _ _ _ Hreg Hr'') as <-.
        destruct Hr' as (m' & Hm' & Hk'). rewrite Haw in Hm'. injection Hm' as <-.
        rewrite lookup_insert_eq in Hk'. injection Hk' as Hk'.
        apply (registered_lt c _ _ Hwf) in Hreg. lia.
      * apply (registered_lt c _ _ Hwf) in Hreg. lia.
    + right. right. rewrite <- Hcl.
      assert (Hr1 : registered c1 k ch).
      { destruct Hreg as (m' & Hm' & Hk).
        exists (<[nextId c := length (chans c)]> m). split; [done|].
        rewrite lookup_insert_ne by done. congruence. }
      destruct (B6 k ch Hr1 (after_close_unregistered _ _ _ A1))
        as [[[=] _]|[(_ & E & _)|?]]; [done| |done].
      rewrite after_close_closed in E. congruence.
  - lia.
Qed.

(** The reader answers the entry under [k]. *)
Lemma step_ok_deliver over c c1 m k ch v :
  wf c -> awaiting c = Some m -> m !! k = Some ch ->
  mu c1 = mu_free -> ID c1 = ID c -> closed c1 = closed c ->
  awaiting c1 = Some (delete k m) ->
  chans c1 = <[ch := {| sent := [v]; taken := 0; ch_closed := true |}]> (chans c) ->
  err v = None ->
  0 <= nextId c1 < 4096 -> notified c1 = notified c ->
  step_ok over (Some k) c c1.
Proof.
  intros Hwf Hm Hk Hmu Hid Hcl Haw Hch Hv Hn Hnot. split.
  - eapply wf_deliver; eauto.
  - done.
  - congruence.
  - rewrite Hnot, Hcl. destruct (closed c); now rewrite app_nil_r.
  - intros k' ch' (m' & Hm' & Hk'). rewrite Haw in Hm'. injection Hm' as <-.
    apply lookup_delete_Some in Hk' as [_ Hk']. left. exists m. done.
  - intros k' ch' Hreg Hnr. right. left.
    destruct (decide (k = k')) as [<-|Hne].
    + split; [done|]. split; [done|]. exists v.
      destruct Hreg as (m' & Hm' & Hk'). assert (ch' = ch) as -> by congruence.
      rewrite Hch. apply list_lookup_insert_eq.
      eapply registered_lt; [done|]. exists m. eauto.
    + exfalso. apply Hnr. destruct Hreg as (m' & Hm' & Hk').
      exists (delete k m). split; [done|].
      rewrite lookup_delete_ne by done. congruence.
  - now rewrite Hch, length_insert.
Qed.

(** A waiting caller takes its value. *)
Lemma step_ok_take over dlv c c1 ch st v :
  wf c -> chans c !! ch = Some st -> sent st !! taken st = Some v ->
  mu c1 = mu_free -> ID c1 = ID c -> closed c1 = closed c ->
  awaiting c1 = awaiting c ->
  chans c1 = <[ch := {| sent := sent st; taken := S (taken st);
                        ch_closed := ch_closed st |}]> (chans c) ->
  0 <= nextId c1 < 4096 -> notified c1 = notified c ->
  step_ok over dlv c c1.
Proof.
  intros Hwf Hst Hv Hmu Hid Hcl Haw Hch Hn Hnot. split.
  - eapply wf_take; eauto.
  - done.
  - congruence.
  - rewrite Hnot, Hcl. destruct (closed c); now rewrite app_nil_r.
  - intros k' ch' Hr. left. unfold registered in *. now rewrite <- Haw.
  - intros k' ch' Hr Hn'. exfalso. apply Hn'. unfold registered in *. now rewrite Haw.
  - now rewrite Hch, length_insert.
Qed.

(** [step_ok] looks at the outcome only through the fields it names. *)
Lemma step_ok_same over dlv c c1 c2 :
  step_ok over dlv c c1 -> mu c2 = mu_free -> ID c2 = ID c1 -> closed c2 = closed c1 ->
  awaiting c2 = awaiting c1 -> chans c2 = chans c1 -> 0 <= nextId c2 < 4096 ->
  notified c2 = notified c1 -> step_ok over dlv c c2.
Proof.
  intros [A1 A2 A3 A4 A5 A6 A7] Hmu Hid Hcl Haw Hch Hn Hnot.
  assert (Hreg : forall k ch, registered c2 k ch <-> registered c1 k ch).
  { intros k ch. unfold registered. now rewrite Haw. }
  split; rewrite ?Hid, ?Hcl, ?Hch, ?Hnot; auto.
  - eapply wf_ext; eauto.
  - intros k ch Hr. apply A5. now apply Hreg.
  - intros k ch Hr Hnr. apply A6; [done|]. now rewrite <- Hreg.
Qed.

(** A run that only closes. *)
Lemma step_ok_drained over dlv c c1 :
  wf c -> closed c = false -> mu c1 = mu_free -> ID c1 = ID c -> closed c1 = true ->
  awaiting c1 = None ->
  chans c1 = close_each (map_values (awaiting c)) (chans c) ->
  0 <= nextId c1 < 4096 -> notified c1 = notified c ++ [ID c] ->
  step_ok over dlv c c1.
Proof.
  intros Hwf Hop Hmu Hid Hcl Haw Hch Hn Hnot.
  eapply step_ok_same; [apply (step_ok_after_close over dlv c Hwf)|..]; try done;
    unfold after_close, notified in *; rewrite Hop; simpl; try done.
  now rewrite close_calls_app.
Qed.

(** A correlated send that fails and closes, by the fields of the outcome. *)
Lemma step_ok_reg_drained dlv c c1 m :
  wf c -> awaiting c = Some m -> mu c1 = mu_free -> ID c1 = ID c ->
  closed c1 = true -> awaiting c1 = None ->
  chans c1 = close_each (map_values (Some (<[nextId c := length (chans c)]> m)))
               (chans c ++ [chan_new]) ->
  0 <= nextId c1 < 4096 -> notified c1 = notified c ++ [ID c] ->
  step_ok (Some (nextId c)) dlv c c1.
Proof.
  intros Hwf Hm Hmu Hid Hcl Haw Hch Hn Hnot.
  assert (Hop : closed c = false).
  { destruct (closed c) eqn:E; [|done]. apply (wf_closed c Hwf) in E. congruence. }
  pose (c0 := set_awaiting (Some (<[nextId c := length (chans c)]> m))
                (set_chans (chans c ++ [chan_new]) c)).
  eapply step_ok_same;
    [apply (step_ok_reg_close dlv c c0 m Hwf Hm); subst c0; simpl; try done|..];
    try done.
  - apply (wf_mu c Hwf).
  - apply (wf_nextId c Hwf).
  - unfold after_close. subst c0. simpl. now rewrite Hop.
  - unfold after_close. subst c0. simpl. now rewrite Hop.
  - unfold after_close. subst c0. simpl. now rewrite Hop.
  - unfold after_close. subst c0. simpl. now rewrite Hop.
  - unfold after_close, notified. subst c0. simpl. rewrite Hop. simpl.
    now rewrite close_calls_app.
Qed.

(** ** The runs, one by one *)

Lemma nextId_range n : 0 <= Z.land (wrap64 (n + 1)) 0xfff < 4096.
Proof.
  change 0xfff with (Z.ones 12). rewrite Z.land_ones by lia.
  apply Z.mod_pos_bound. lia.
Qed.

Lemma nextId_step n : 0 <= n < 4096 -> Z.land (wrap64 (n + 1)) 0xfff = (n + 1) mod 4096.
Proof.
  intros H. change 0xfff with (Z.ones 12). rewrite Z.land_ones by lia.
  unfold wrap64. change (2 ^ 63) with 9223372036854775808.
  change (2 ^ 64) with 18446744073709551616.
  rewrite (Z.mod_small (n + 1 + _)) by lia. f_equal. lia.
Qed.

Ltac close_calls_simpl :=
  unfold notified; simpl; rewrite ?close_calls_app; simpl; rewrite ?app_nil_r;
  reflexivity.

(** Name the fields of a well-formed connection. *)
Ltac wf_fields c Hwf :=
  let Hmu := fresh "Hmu" in
  let Hn := fresh "Hn" in
  pose proof (wf_mu c Hwf) as Hmu;
  pose proof (wf_nextId c Hwf) as Hn;
  destruct c as [m i r w cl aw n lr pl ls cs tr]; simpl in Hmu, Hn; subst m.

Ltac innermost x :=
  match x with
  | context [match ?z with _ => _ end] => innermost z
  | _ => x
  end.

(** [close()] on a connection whose fields are known. *)
Ltac ready Hwf :=
  first
    [ split; [constructor | intros ? Hin; now apply elem_of_nil in Hin]
    | apply wf_channels_ready; eapply wf_ext;
      [exact Hwf | reflexivity | reflexivity | reflexivity | reflexivity
      | simpl; first [assumption | apply nextId_range]]
    | apply wf_channels_ready; eapply wf_register;
      [exact Hwf | reflexivity | reflexivity | reflexivity | reflexivity | reflexivity
      | simpl; first [assumption | apply nextId_range]] ].

Ltac run_close Hwf :=
  match goal with
  | |- context [close ?c1] =>
      rewrite (close_spec c1); [| reflexivity | ready Hwf];
      unfold after_close; simpl
  end.

(** Split on the first thing the run depends on. *)
Ltac split_match Hwf :=
  match goal with
  | |- context [match ?x with _ => _ end] =>
      let y := innermost x in
      lazymatch y with
      | close _ => run_close Hwf
      | _ => destruct y eqn:?; simpl
      end
  end.

Ltac go Hwf := first [run_close Hwf | split_match Hwf].

Ltac ext_side :=
  simpl; first [ reflexivity | eassumption | apply nextId_range | lia | close_calls_simpl ].

Ltac shapes Hwf :=
  first
    [ eapply (step_ok_ext _ _ _ _ Hwf); ext_side
    | eapply (step_ok_drained _ _ _ _ Hwf); ext_side
    | eapply (step_ok_reg _ _ _ _ Hwf); ext_side
    | eapply (step_ok_reg_drained _ _ _ _ Hwf); ext_side
    | eapply (step_ok_take _ _ _ _ _ _ _ Hwf); ext_side ].

Ltac finish Hwf :=
  let E := fresh "E" in
  intros E;
  first
    [ discriminate E
    | injection E as <-; shapes Hwf
    | injection E as _ <-; shapes Hwf ].

Lemma Index_ok over dlv idx s c c' :
  wf c -> Index idx s c = Done tt c' -> step_ok over dlv c c'.
Proof.
  intros Hwf. wf_fields c Hwf.
  unfold Index, writeHeader, writeUint32, writeIndex, mwriter_write. run.
  destruct cl; repeat go Hwf; finish Hwf.
Qed.

Lemma Request_send_ok dlv name offset size hash s c res c' :
  wf c -> Request_send name offset size hash s c = Done res c' ->
  step_ok (Some (nextId c)) dlv c c'.
Proof.
  intros Hwf. wf_fields c Hwf.
  unfold Request_send, awaiting_assign, make_chan, writeHeader, writeUint32,
    writeRequest, mwriter_write. run.
  destruct cl, aw as [m|]; simpl; repeat go Hwf; finish Hwf.
Qed.

Lemma Ping_send_ok dlv t0 s c res c' :
  wf c -> Ping_send t0 s c = Done res c' -> step_ok (Some (nextId c)) dlv c c'.
Proof.
  intros Hwf. wf_fields c Hwf.
  unfold Ping_send, awaiting_assign, make_chan, writeHeader, writeUint32,
    mwriter_write. run.
  destruct cl, aw as [m|]; simpl; repeat go Hwf; finish Hwf.
Qed.

Lemma Request_recv_ok over dlv rc c res c' :
  wf c -> Request_recv rc c = Done res c' -> step_ok over dlv c c'.
Proof.
  intros Hwf. wf_fields c Hwf.
  unfold Request_recv, chan_recv. run.
  repeat go Hwf; finish Hwf.
Qed.

Lemma Ping_recv_ok over dlv t0 now rc c res c' :
  wf c -> Ping_recv t0 now rc c = Done res c' -> step_ok over dlv c c'.
Proof.
  intros Hwf. wf_fields c Hwf.
  unfold Ping_recv, chan_recv. run.
  repeat go Hwf; finish Hwf.
Qed.

Lemma Stop_ok over dlv c c' : wf c -> Stop c = Done tt c' -> step_ok over dlv c c'.
Proof.
  intros Hwf. wf_fields c Hwf. unfold Stop. run. finish Hwf.
Qed.

Lemma Statistics_ok over dlv arch t1 t2 c st c' :
  wf c -> Connection_Statistics arch t1 t2 c = Done st c' -> step_ok over dlv c c'.
Proof.
  intros Hwf. wf_fields c Hwf. unfold Connection_Statistics. run. finish Hwf.
Qed.

Lemma processRequest_go_ok over dlv msgID req answer s c c' :
  wf c -> processRequest_go msgID req answer s c = Done tt c' -> step_ok over dlv c c'.
Proof.
  intros Hwf. wf_fields c Hwf.
  unfold processRequest_go, writeUint32, writeResponse, mwriter_write. run.
  destruct cl; repeat go Hwf; finish Hwf.
Qed.

Lemma pingerLoop_body_ok over dlv t c c' :
  wf c -> pingerLoop_body t c = Done tt c' -> step_ok over dlv c c'.
Proof.
  intros Hwf. wf_fields c Hwf.
  unfold pingerLoop_body. run.
  destruct cl; repeat go Hwf; finish Hwf.
Qed.

Lemma close_ok over dlv c c' : wf c -> close c = Done tt c' -> step_ok over dlv c c'.
Proof.
  intros Hwf. rewrite close_spec by (try apply wf_channels_ready; auto using wf_mu).
  intros [= <-]. now apply step_ok_after_close.
Qed.

Lemma isClosed_spec c : mu c = mu_free -> isClosed c = Done (closed c) c.
Proof.
  intros Hmu. destruct c as [m i r w cl aw n lr pl ls cs tr]; simpl in Hmu; subst m.
  unfold isClosed. run. reflexivity.
Qed.

(** The key of the Response or Pong that a turn of the reader carries. *)
Definition carries (i : inbound) : option Z :=
  if (msgType (in_header i) =? messageTypeResponse)
     || (msgType (in_header i) =? messageTypePong)
  then Some (msgID (in_header i)) else None.

(** The channel under a key of the table is as [make] left it. *)
Ltac fresh_chan Hwf :=
  match goal with
  | Hk : ?m !! ?k = Some ?rc |- context [_ !! ?rc] =>
      let H := fresh in
      pose proof (wf_fresh _ Hwf k rc (ex_intro _ m (conj eq_refl Hk))) as H;
      simpl in H;
      first [ rewrite H
            | rewrite list_lookup_insert_eq by (eapply lookup_lt_Some, H) ];
      clear H; simpl
  end.

Ltac go_reader Hwf := first [fresh_chan Hwf | run_close Hwf | split_match Hwf].

Ltac finish_reader Hwf :=
  let E := fresh "E" in
  intros E;
  first
    [ discriminate E
    | injection E as _ <-;
      first
        [ shapes Hwf
        | unfold carries;
          repeat match goal with H : (_ =? _) = _ |- _ => rewrite H end; simpl;
          rewrite ?list_insert_insert_eq;
          eapply (step_ok_deliver _ _ _ _ _ _ _ Hwf); ext_side ] ].

Lemma readerLoop_body_ok over inb c b c' :
  wf c -> closed c = false -> readerLoop_body inb c = Done b c' ->
  step_ok over (carries inb) c c'.
Proof.
  intros Hwf Hop. wf_fields c Hwf. simpl in Hop. subst cl.
  unfold readerLoop_body, processRequest, awaiting_lookup, awaiting_delete,
    chan_send, chan_close, readHeader, readIndex, readRequest, readResponse,
    mreader_read, writeUint32, mwriter_write. run.
  repeat go_reader Hwf; finish_reader Hwf.
Qed.

(** ** Runs of the goroutines, in any order

    An [action] is one uninterrupted run of some goroutine: a call of a
    public method up to the point where it waits, the wake-up of a waiting
    caller, a turn of the reader or of the pinger, the goroutine answering
    a request, and, for racing closers, [close()] as its two stretches. *)
Inductive action :=
| CallIndex (idx : list FileInfo) (s : sink)
| CallRequest (name : string) (offset size : Z) (hash : bytes) (s : sink)
| WakeRequest (rc : nat)
| CallPing (t0 : Z) (s : sink)
| WakePing (t0 now : Z) (rc : nat)
| CallStop
| CallStatistics (arch : spec_float -> Z) (t1 t2 : Z)
| ReaderTurn (i : inbound)
| AnswerRequest (msgID : Z) (req : request) (answer : bytes * option error) (s : sink)
| PingerTurn (t : tick)
| CallClose
| CloseEnter
| CloseLeave.

(** One turn of the reader, with the test of the loop. *)
Definition reader_turn (i : inbound) : M unit :=
  cl ← isClosed ;
  if cl : bool then mret tt else readerLoop_body i ;; mret tt.

(** One turn of the pinger, with the test of the loop. *)
Definition pinger_turn (t : tick) : M unit :=
  cl ← isClosed ;
  if cl : bool then mret tt else pingerLoop_body t.

(** The run of an action other than the stretches of [close()]. *)
Definition perform (a : action) : M unit :=
  match a with
  | CallIndex idx s => Index idx s
  | CallRequest name offset size hash s => Request_send name offset size hash s ;; mret tt
  | WakeRequest rc => Request_recv rc ;; mret tt
  | CallPing t0 s => Ping_send t0 s ;; mret tt
  | WakePing t0 now rc => Ping_recv t0 now rc ;; mret tt
  | CallStop => Stop
  | CallStatistics arch t1 t2 => Connection_Statistics arch t1 t2 ;; mret tt
  | ReaderTurn i => reader_turn i
  | AnswerRequest msgID req answer s => processRequest_go msgID req answer s
  | PingerTurn t => pinger_turn t
  | CallClose => close
  | CloseEnter => close_locked ;; mret tt
  | CloseLeave => close_notify
  end.

(** The connection together with the number of goroutines that have left
    the locked stretch of [close()] as the closer and have not yet told the
    receiver. *)
Record system := { conn : Connection; owed : nat }.

(** One action.  A caller with nothing to receive stays where it is; a
    panic ends the program. *)
Definition exec (a : action) (σ : system) : fault + system :=
  match a with
  | CloseEnter =>
      match close_locked (conn σ) with
      | Done first c => inr {| conn := c; owed := if first then S (owed σ) else owed σ |}
      | Fault f _ => inl f
      end
  | CloseLeave =>
      match owed σ with
      | O => inr σ
      | S n =>
          match close_notify (conn σ) with
          | Done _ c => inr {| conn := c; owed := n |}
          | Fault f _ => inl f
          end
      end
  | _ =>
      match perform a (conn σ) with
      | Done _ c => inr {| conn := c; owed := owed σ |}
      | Fault WouldBlock _ => inr σ
      | Fault f _ => inl f
      end
  end.

Fixpoint run (acts : list action) (σ : system) : fault + system :=
  match acts with
  | [] => inr σ
  | a :: rest =>
      match exec a σ with
      | inr σ' => run rest σ'
      | inl f => inl f
      end
  end.

(** The key a correlated send assigns, the key a reader turn answers. *)
Definition overwrites (a : action) (c : Connection) : option Z :=
  match a with
  | CallRequest _ _ _ _ _ | CallPing _ _ => Some (nextId c)
  | _ => None
  end.

Definition answers (a : action) : option Z :=
  match a with
  | ReaderTurn i => carries i
  | _ => None
  end.

Definition is_stretch (a : action) : bool :=
  match a with CloseEnter | CloseLeave => true | _ => false end.

Lemma bind_ret_Done {A} (m : M A) c c' :
  (m ;; mret tt) c = Done tt c' -> exists a, m c = Done a c'.
Proof.
  unfold mbind, M_bind, mret, M_ret. destruct (m c) as [a c1|]; [|done].
  intros [= <-]. eauto.
Qed.

Lemma reader_turn_ok over inb c c' :
  wf c -> reader_turn inb c = Done tt c' -> step_ok over (carries inb) c c'.
Proof.
  intros Hwf. unfold reader_turn.
  erewrite bind_Done by (apply isClosed_spec, (wf_mu c Hwf)).
  destruct (closed c) eqn:Hop.
  - intros [= <-]. wf_fields c Hwf. shapes Hwf.
  - intros E. apply bind_ret_Done in E as [b E].
    eapply readerLoop_body_ok; eauto.
Qed.

Lemma pinger_turn_ok over dlv t c c' :
  wf c -> pinger_turn t c = Done tt c' -> step_ok over dlv c c'.
Proof.
  intros Hwf. unfold pinger_turn.
  erewrite bind_Done by (apply isClosed_spec, (wf_mu c Hwf)).
  destruct (closed c) eqn:Hop.
  - intros [= <-]. wf_fields c Hwf. shapes Hwf.
  - apply pingerLoop_body_ok; done.
Qed.

(** Every run other than a stretch of [close()] is a [step_ok]. *)
Lemma perform_ok a c c' :
  is_stretch a = false -> wf c -> perform a c = Done tt c' ->
  step_ok (overwrites a c) (answers a) c c'.
Proof.
  intros Ha Hwf E. destruct a; simpl in *; try discriminate Ha.
  - eapply Index_ok; eauto.
  - apply bind_ret_Done in E as [r E]. eapply Request_send_ok; eauto.
  - apply bind_ret_Done in E as [r E]. eapply Request_recv_ok; eauto.
  - apply bind_ret_Done in E as [r E]. eapply Ping_send_ok; eauto.
  - apply bind_ret_Done in E as [r E]. eapply Ping_recv_ok; eauto.
  - eapply Stop_ok; eauto.
  - apply bind_ret_Done in E as [r E]. eapply Statistics_ok; eauto.
  - eapply reader_turn_ok; eauto.
  - eapply processRequest_go_ok; eauto.
  - eapply pinger_turn_ok; eauto.
  - eapply close_ok; eauto.
Qed.

(** [step_ok] without the account of the receiver's notifications, which
    the locked stretch of [close()] alone leaves open. *)
Record step_core (over dlv : option Z) (c c' : Connection) : Prop := {
  sc_wf : wf c';
  sc_ID : ID c' = ID c;
  sc_mono : closed c = true -> closed c' = true;
  sc_new : forall k ch, registered c' k ch ->
    registered c k ch \/ (length (chans c) <= ch)%nat;
  sc_removed : forall k ch, registered c k ch -> ~ registered c' k ch ->
    (over = Some k /\ chans c' !! ch = Some chan_new) \/
    (dlv = Some k /\ closed c' = closed c /\
     exists v, chans c' !! ch = Some {| sent := [v]; taken := 0; ch_closed := true |}) \/
    (closed c = false /\ closed c' = true /\ chans c' !! ch = Some (mark_closed chan_new));
  sc_chans : (length (chans c) <= length (chans c'))%nat }.

Lemma step_ok_core over dlv c c' : step_ok over dlv c c' -> step_core over dlv c c'.
Proof. intros [A1 A2 A3 A4 A5 A6 A7]. split; auto. Qed.

Lemma step_core_same over dlv c c1 c2 :
  step_core over dlv c c1 -> mu c2 = mu_free -> ID c2 = ID c1 -> closed c2 = closed c1 ->
  awaiting c2 = awaiting c1 -> chans c2 = chans c1 -> 0 <= nextId c2 < 4096 ->
  step_core over dlv c c2.
Proof.
  intros [A1 A2 A3 A5 A6 A7] Hmu Hid Hcl Haw Hch Hn.
  assert (Hreg : forall k ch, registered c2 k ch <-> registered c1 k ch).
  { intros k ch. unfold registered. now rewrite Haw. }
  split; rewrite ?Hid, ?Hcl, ?Hch; auto.
  - eapply wf_ext; eauto.
  - intros k ch Hr. apply A5. now apply Hreg.
  - intros k ch Hr Hnr. apply A6; [done|]. now rewrite <- Hreg.
Qed.

Lemma close_locked_core over dlv c first c' :
  wf c -> close_locked c = Done first c' ->
  step_core over dlv c c' /\ first = negb (closed c) /\ closed c' = true /\
  trace c' = trace c.
Proof.
  intros Hwf. rewrite close_locked_spec by (try apply wf_channels_ready; auto using wf_mu).
  intros [= <- <-]. split; [|split; [done|]].
  - eapply step_core_same;
      [apply step_ok_core, (step_ok_after_close over dlv c Hwf)|..];
      unfold after_close; destruct (closed c); simpl; auto using wf_mu, wf_nextId.
  - destruct (closed c) eqn:E; simpl; done.
Qed.

Arguments close_locked : simpl never.
Arguments close_notify : simpl never.

Lemma close_notify_spec c :
  close_notify c = Done tt (set_trace (trace c ++ [ModelClose (ID c)]) c).
Proof. reflexivity. Qed.

(** Every action keeps the connection well-formed. *)
Lemma exec_core a σ σ' :
  wf (conn σ) -> exec a σ = inr σ' ->
  step_core (overwrites a (conn σ)) (answers a) (conn σ) (conn σ').
Proof.
  intros Hwf E.
  assert (Hrefl : step_core (overwrites a (conn σ)) (answers a) (conn σ) (conn σ)).
  { apply step_ok_core, step_ok_ext; auto using wf_mu, wf_nextId. }
  destruct (is_stretch a) eqn:Ha.
  - destruct a; try discriminate Ha; simpl in E.
    + destruct (close_locked (conn σ)) as [first c|] eqn:Ec; [|done].
      injection E as <-. simpl.
      now apply (close_locked_core None None) in Ec as [? _].
    + destruct (owed σ); [now injection E as <-|].
      rewrite ?close_notify_spec in E. injection E as <-. simpl.
      eapply step_core_same; [exact Hrefl|..]; simpl; auto using wf_mu, wf_nextId.
  - assert (E' : match perform a (conn σ) with
                 | Done _ c => inr {| conn := c; owed := owed σ |}
                 | Fault WouldBlock _ => inr σ
                 | Fault f _ => inl f
                 end = inr σ') by (destruct a; try discriminate Ha; exact E).
    destruct (perform a (conn σ)) as [[] c|f c] eqn:Ep.
    + injection E' as <-. simpl. apply step_ok_core. now apply perform_ok.
    + destruct f; try discriminate E'. now injection E' as <-.
Qed.

Lemma exec_wf a σ σ' : wf (conn σ) -> exec a σ = inr σ' -> wf (conn σ').
Proof. intros Hwf E. eapply sc_wf, exec_core; eauto. Qed.

Lemma run_wf acts : forall σ σ', wf (conn σ) -> run acts σ = inr σ' -> wf (conn σ').
Proof.
  induction acts as [|a rest IH]; intros σ σ' Hwf E; simpl in E.
  - now injection E as <-.
  - destruct (exec a σ) as [f|σ1] eqn:Ea; [done|].
    eapply IH; [|exact E]. eapply exec_wf; eauto.
Qed.

(** ** The receiver is told once *)

(** A system just made by [NewConnection]. *)
Definition initial (σ : system) : Prop :=
  (exists nodeID t1 t2, NewConnection nodeID None t1 t2 = inr (conn σ)) /\ owed σ = O.


Lemma initial_wf σ : initial σ -> wf (conn σ).
Proof. intros [(id & t1 & t2 & E) _]. eapply wf_NewConnection; eauto. Qed.




Lemma close_again c :
  mu c = mu_free -> closed c = true ->
  close c = Done tt c /\ close_locked c = Done false c.
Proof.
  intros Hmu Hcl.
  destruct c as [m i r w cl aw n lr pl ls cs tr]; simpl in *; subst m cl.
  split; [unfold close|unfold close_locked]; run; reflexivity.
Qed.


(** C10.  [Stop()] returns with the connection exactly as it was, whatever
    its state: the closed flag, the table, the stream, the channels and the
    calls of the receiver are untouched. *)
Theorem Stop_changes_nothing (c : Connection) : Stop c = Done tt c.
Proof. reflexivity. Qed.

(** ** Receiving on a result channel *)



(** A caller on a channel as [make] left it has to wait. *)
Lemma recv_waits c ch t0 now :
  chans c !! ch = Some chan_new ->
  Request_recv ch c = Fault WouldBlock c /\ Ping_recv t0 now ch c = Fault WouldBlock c.
Proof.
  intros H. unfold Request_recv, Ping_recv, chan_recv, mbind, M_bind.
  rewrite H. simpl. done.
Qed.

(** A caller on a channel closed with nothing in it gets the closed
    indication, and the connection stays as it is. *)
Lemma recv_closed c ch t0 now :
  chans c !! ch = Some (mark_closed chan_new) ->
  Request_recv ch c = Done (None, Some ErrClosed) c /\
  Ping_recv t0 now ch c = Done (time_Since t0 now, false) c.
Proof.
  intros H. unfold Request_recv, Ping_recv, chan_recv, mbind, M_bind.
  rewrite H. simpl. done.
Qed.

(** ** Correlation IDs *)

(** Whether an action uses up the ID in [nextId]: every [Index], and a
    [Request] or [Ping] that gets as far as waiting for its answer. *)
Definition consumes (a : action) (c : Connection) : bool :=
  match a with
  | CallIndex idx s =>
      match Index idx s c with
      | Done _ _ => true
      | _ => false
      end
  | CallRequest name offset size hash s =>
      match Request_send name offset size hash s c with
      | Done (inl _) _ => true
      | _ => false
      end
  | CallPing t0 s =>
      match Ping_send t0 s c with
      | Done (inl _) _ => true
      | _ => false
      end
  | _ => false
  end.

(** The number of IDs used up along a run. *)
Fixpoint consumed (acts : list action) (σ : system) : nat :=
  match acts with
  | [] => O
  | a :: rest =>
      match exec a σ with
      | inr σ' => ((if consumes a (conn σ) then 1 else 0) + consumed rest σ')%nat
      | inl _ => O
      end
  end.

Ltac finish_eq :=
  let E := fresh "E" in
  intros E;
  first
    [ discriminate E
    | injection E as <-; simpl; reflexivity
    | injection E as <- <-; simpl; reflexivity
    | injection E as _ <-; simpl; reflexivity ].

Lemma Index_nextId idx s c c' :
  wf c -> Index idx s c = Done tt c' -> nextId c' = Z.land (wrap64 (nextId c + 1)) 0xfff.
Proof.
  intros Hwf. wf_fields c Hwf.
  unfold Index, writeHeader, writeUint32, writeIndex, mwriter_write. run.
  destruct cl; repeat go Hwf; finish_eq.
Qed.

(** A correlated send that goes on to wait has put a new channel under
    [nextId] and moved [nextId] on; one that returns at once has closed the
    connection and left [nextId] alone. *)
Lemma Request_send_nextId name offset size hash s c res c' :
  wf c -> Request_send name offset size hash s c = Done res c' ->
  match res with
  | inl rc => rc = length (chans c) /\ registered c' (nextId c) rc /\
              nextId c' = Z.land (wrap64 (nextId c + 1)) 0xfff
  | inr _ => nextId c' = nextId c /\ closed c' = true
  end.
Proof.
  intros Hwf. wf_fields c Hwf.
  unfold Request_send, awaiting_assign, make_chan, writeHeader, writeUint32,
    writeRequest, mwriter_write. run.
  destruct cl, aw as [m|]; simpl; repeat go Hwf;
    (intros E; first [discriminate E | injection E as <- <-]; simpl;
     first [ done
           | split; [done|]; split; [|done];
             eexists; split; [reflexivity|apply lookup_insert_eq] ]).
Qed.

Lemma Ping_send_nextId t0 s c res c' :
  wf c -> Ping_send t0 s c = Done res c' ->
  match res with
  | inl rc => rc = length (chans c) /\ registered c' (nextId c) rc /\
              nextId c' = Z.land (wrap64 (nextId c + 1)) 0xfff
  | inr _ => nextId c' = nextId c /\ closed c' = true
  end.
Proof.
  intros Hwf. wf_fields c Hwf.
  unfold Ping_send, awaiting_assign, make_chan, writeHeader, writeUint32,
    mwriter_write. run.
  destruct cl, aw as [m|]; simpl; repeat go Hwf;
    (intros E; first [discriminate E | injection E as <- <-]; simpl;
     first [ done
           | split; [done|]; split; [|done];
             eexists; split; [reflexivity|apply lookup_insert_eq] ]).
Qed.

Lemma Request_recv_nextId rc c res c' :
  wf c -> Request_recv rc c = Done res c' -> nextId c' = nextId c.
Proof.
  intros Hwf. wf_fields c Hwf. unfold Request_recv, chan_recv. run.
  repeat go Hwf; finish_eq.
Qed.

Lemma Ping_recv_nextId t0 now rc c res c' :
  wf c -> Ping_recv t0 now rc c = Done res c' -> nextId c' = nextId c.
Proof.
  intros Hwf. wf_fields c Hwf. unfold Ping_recv, chan_recv. run.
  repeat go Hwf; finish_eq.
Qed.

Lemma Statistics_nextId arch t1 t2 c st c' :
  wf c -> Connection_Statistics arch t1 t2 c = Done st c' -> nextId c' = nextId c.
Proof.
  intros Hwf. wf_fields c Hwf. unfold Connection_Statistics. run. finish_eq.
Qed.

Lemma processRequest_go_nextId msgID req answer s c c' :
  wf c -> processRequest_go msgID req answer s c = Done tt c' -> nextId c' = nextId c.
Proof.
  intros Hwf. wf_fields c Hwf.
  unfold processRequest_go, writeUint32, writeResponse, mwriter_write. run.
  destruct cl; repeat go Hwf; finish_eq.
Qed.

Lemma pinger_turn_nextId t c c' :
  wf c -> pinger_turn t c = Done tt c' -> nextId c' = nextId c.
Proof.
  intros Hwf. unfold pinger_turn.
  erewrite bind_Done by (apply isClosed_spec, (wf_mu c Hwf)).
  destruct (closed c) eqn:Hop; [now intros [= <-]|].
  wf_fields c Hwf. simpl in Hop. subst cl. unfold pingerLoop_body. run.
  repeat go Hwf; finish_eq.
Qed.

Lemma reader_turn_nextId inb c c' :
  wf c -> reader_turn inb c = Done tt c' -> nextId c' = nextId c.
Proof.
  intros Hwf. unfold reader_turn.
  erewrite bind_Done by (apply isClosed_spec, (wf_mu c Hwf)).
  destruct (closed c) eqn:Hop; [now intros [= <-]|].
  wf_fields c Hwf. simpl in Hop. subst cl.
  unfold readerLoop_body, processRequest, awaiting_lookup, awaiting_delete,
    chan_send, chan_close, readHeader, readIndex, readRequest, readResponse,
    mreader_read, writeUint32, mwriter_write. run.
  repeat go_reader Hwf; finish_eq.
Qed.

Lemma close_nextId c c' : wf c -> close c = Done tt c' -> nextId c' = nextId c.
Proof.
  intros Hwf. rewrite close_spec by (try apply wf_channels_ready; auto using wf_mu).
  intros [= <-]. unfold after_close. now destruct (closed c).
Qed.

Lemma perform_nextId a c c' :
  is_stretch a = false -> wf c -> perform a c = Done tt c' ->
  nextId c' = if consumes a c then Z.land (wrap64 (nextId c + 1)) 0xfff else nextId c.
Proof.
  intros Ha Hwf E. destruct a; simpl in *; try discriminate Ha.
  - rewrite E. eapply Index_nextId; eauto.
  - apply bind_ret_Done in E as [r E]. rewrite E.
    apply Request_send_nextId in E; [|done]. destruct r; tauto.
  - apply bind_ret_Done in E as [r E]. eapply Request_recv_nextId; eauto.
  - apply bind_ret_Done in E as [r E]. rewrite E.
    apply Ping_send_nextId in E; [|done]. destruct r; tauto.
  - apply bind_ret_Done in E as [r E]. eapply Ping_recv_nextId; eauto.
  - now injection E as <-.
  - apply bind_ret_Done in E as [r E]. eapply Statistics_nextId; eauto.
  - eapply reader_turn_nextId; eauto.
  - eapply processRequest_go_nextId; eauto.
  - eapply pinger_turn_nextId; eauto.
  - eapply close_nextId; eauto.
Qed.

Lemma exec_nextId a σ σ' :
  wf (conn σ) -> exec a σ = inr σ' ->
  nextId (conn σ') =
  (nextId (conn σ) + (if consumes a (conn σ) then 1 else 0)) mod 4096.
Proof.
  intros Hwf E. pose proof (wf_nextId _ Hwf) as Hn.
  destruct (is_stretch a) eqn:Ha.
  - destruct a; try discriminate Ha; simpl in E; simpl consumes; cbv iota.
    + destruct (close_locked (conn σ)) as [first c|] eqn:Ec; [|done].
      injection E as <-. simpl.
      rewrite close_locked_spec in Ec by (try apply wf_channels_ready; auto using wf_mu).
      injection Ec as _ <-. rewrite Z.add_0_r, Z.mod_small by done.
      now destruct (closed (conn σ)).
    + rewrite Z.add_0_r, Z.mod_small by done.
      destruct (owed σ); [now injection E as <-|].
      rewrite ?close_notify_spec in E. now injection E as <-.
  - assert (E' : match perform a (conn σ) with
                 | Done _ c => inr {| conn := c; owed := owed σ |}
                 | Fault WouldBlock _ => inr σ
                 | Fault f _ => inl f
                 end = inr σ') by (destruct a; try discriminate Ha; exact E).
    destruct (perform a (conn σ)) as [[] c|f c] eqn:Ep.
    + injection E' as <-. simpl. rewrite (perform_nextId a _ _ Ha Hwf Ep).
      destruct (consumes a (conn σ)).
      * now apply nextId_step.
      * now rewrite Z.add_0_r, Z.mod_small.
    + destruct f; try discriminate E'. injection E' as <-.
      assert (consumes a (conn σ) = false) as ->.
      { destruct a; try discriminate Ha; try reflexivity; simpl in *.
        - now rewrite Ep.
        - unfold mbind, M_bind in Ep.
          now destruct (Request_send _ _ _ _ _ _) as [[]|].
        - unfold mbind, M_bind in Ep.
          now destruct (Ping_send _ _ _) as [[]|]. }
      now rewrite Z.add_0_r, Z.mod_small.
Qed.

Lemma run_nextId acts : forall σ σ',
  wf (conn σ) -> run acts σ = inr σ' ->
  nextId (conn σ') = (nextId (conn σ) + Z.of_nat (consumed acts σ)) mod 4096.
Proof.
  induction acts as [|a rest IH]; intros σ σ' Hwf E; simpl in *.
  - injection E as <-. rewrite Z.add_0_r, Z.mod_small; [done|apply (wf_nextId _ Hwf)].
  - destruct (exec a σ) as [f|σ1] eqn:Ea; [done|].
    rewrite (IH σ1 σ' (exec_wf _ _ _ Hwf Ea) E), (exec_nextId a σ σ1 Hwf Ea).
    rewrite Zplus_mod_idemp_l. f_equal.
    destruct (consumes a (conn σ)); lia.
Qed.

(** The number of pending exchanges. *)
Definition outstanding (c : Connection) : nat := length (map_values (awaiting c)).

Lemma outstanding_le_chans c : wf c -> (outstanding c <= length (chans c))%nat.
Proof.
  intros Hwf. unfold outstanding.
  transitivity (length (seq 0%nat (length (chans c)))); [|now rewrite length_seq].
  apply submseteq_length, NoDup_submseteq.
  - apply (wf_channels_ready c Hwf).
  - intros ch Hin. apply elem_of_map_values in Hin as (k & Hreg).
    apply elem_of_seq. pose proof (registered_lt c k ch Hwf Hreg). lia.
Qed.

Lemma run_app l1 l2 σ :
  run (l1 ++ l2) σ = match run l1 σ with inr σ1 => run l2 σ1 | inl f => inl f end.
Proof.
  revert σ. induction l1 as [|a l1 IH]; intros σ; simpl; [done|].
  destruct (exec a σ); [done|]. apply IH.
Qed.

Lemma run_chans acts : forall σ σ',
  wf (conn σ) -> run acts σ = inr σ' ->
  (length (chans (conn σ)) <= length (chans (conn σ')))%nat.
Proof.
  induction acts as [|a rest IH]; intros σ σ' Hwf E; simpl in E.
  - now injection E as <-.
  - destruct (exec a σ) as [f|σ1] eqn:Ea; [done|].
    pose proof (sc_chans _ _ _ _ (exec_core a σ σ1 Hwf Ea)).
    pose proof (IH σ1 σ' (exec_wf _ _ _ Hwf Ea) E). lia.
Qed.

(** C3, as amended.  A send that uses up an ID (an [Index], or a
    [Request] or [Ping] that goes on to wait) moves [nextId] to the next
    value modulo 4096, from 4095 back to 0; a correlated send has put its
    new result channel in the table under the value [nextId] had; after
    any further run [nextId] is ahead by the number of IDs used up since,
    modulo 4096; so as long as fewer than 4095 IDs were used up since the
    send, the ID the next send will take is not the one of this send. *)
Theorem ids_advance_modulo_4096 (a : action) (acts : list action) (σ σ1 σ2 : system)
  (Hwf : wf (conn σ)) (Hsend : consumes a (conn σ) = true)
  (H1 : exec a σ = inr σ1) (H2 : run acts σ1 = inr σ2) :
  (overwrites a (conn σ) = Some (nextId (conn σ)) ->
     registered (conn σ1) (nextId (conn σ)) (length (chans (conn σ)))) /\
  nextId (conn σ1) = (nextId (conn σ) + 1) mod 4096 /\
  (nextId (conn σ) = 4095 -> nextId (conn σ1) = 0) /\
  nextId (conn σ2) = (nextId (conn σ) + 1 + Z.of_nat (consumed acts σ1)) mod 4096 /\
  ((consumed acts σ1 < 4095)%nat -> nextId (conn σ2) <> nextId (conn σ)).
Proof.
  pose proof (wf_nextId _ Hwf) as Hn.
  pose proof (exec_nextId a σ σ1 Hwf H1) as E1. rewrite Hsend in E1.
  pose proof (run_nextId acts σ1 σ2 (exec_wf _ _ _ Hwf H1) H2) as E2.
  rewrite E1, Zplus_mod_idemp_l in E2.
  split; [|split; [done|split; [|split; [done|]]]].
  - intros Hov. destruct a; simpl in Hov; try discriminate Hov; simpl in Hsend, H1.
    + unfold mbind, M_bind in H1.
      destruct (Request_send name0 offset0 size0 hash0 s (conn σ)) as [[rc|]c|] eqn:E;
        try discriminate Hsend.
      injection H1 as <-. simpl.
      apply Request_send_nextId in E as (-> & Hreg & _); done.
    + unfold mbind, M_bind in H1.
      destruct (Ping_send t0 s (conn σ)) as [[rc|]c|] eqn:E; try discriminate Hsend.
      injection H1 as <-. simpl.
      apply Ping_send_nextId in E as (-> & Hreg & _); done.
  - intros E. rewrite E1, E. reflexivity.
  - intros Hlt. rewrite E2. intros Heq.
    pose proof (Z.div_mod (nextId (conn σ) + 1 + Z.of_nat (consumed acts σ1)) 4096).
    lia.
Qed.

Definition boot : system :=
  {| conn := {| mu := mu_free; ID := "peer";
                mreader := {| rtot := 0; rerr := None |};
                mwriter := {| wtot := 0; werr := None |}; closed := false;
                awaiting := Some ∅; nextId := 0; lastReceive := 0; peerLatency := 0;
                lastStatistics := {| At := 0; InBytesTotal := 0; InBytesPerSec := 0;
                                     OutBytesTotal := 0; OutBytesPerSec := 0;
                                     Latency := 0 |};
                chans := []; trace := [Go GoReaderLoop; Go GoPingerLoop] |};
     owed := 0 |}.

Lemma boot_initial : initial boot.
Proof. split; [exists "peer"%string, 0, 0|]; reflexivity. Qed.

Lemma ids_advance_modulo_4096_witness :
  exists σ1 σ2,
    wf (conn boot) /\
    consumes (CallRequest "foo.txt" 0 1024 None sink_ok) (conn boot) = true /\
    exec (CallRequest "foo.txt" 0 1024 None sink_ok) boot = inr σ1 /\
    run [CallIndex [] sink_ok; CallPing 0 sink_ok] σ1 = inr σ2 /\
    registered (conn σ1) 0 0%nat /\ nextId (conn σ1) = 1 /\ nextId (conn σ2) = 3.
Proof.
  pose proof (initial_wf boot boot_initial) as Hwf.
  assert (Hs : consumes (CallRequest "foo.txt" 0 1024 None sink_ok) (conn boot) = true)
    by (vm_compute; reflexivity).
  assert (exists σ1, exec (CallRequest "foo.txt" 0 1024 None sink_ok) boot = inr σ1)
    as [σ1 H1] by (vm_compute; eexists; reflexivity).
  assert (exists σ2, run [CallIndex [] sink_ok; CallPing 0 sink_ok] σ1 = inr σ2)
    as [σ2 H2].
  { vm_compute in H1. injection H1 as <-. vm_compute. eexists; reflexivity. }
  exists σ1, σ2.
  destruct (ids_advance_modulo_4096 _ _ boot σ1 σ2 Hwf Hs H1 H2) as (A & B & _ & C & _).
  split; [exact Hwf|]. split; [exact Hs|]. split; [exact H1|]. split; [exact H2|].
  split; [apply A; reflexivity|]. split; [exact B|].
  rewrite C. vm_compute in H1. injection H1 as <-. vm_compute. reflexivity.
Defined.

(** A [Request], then 4095 [Index] messages. *)
Definition collision_run : list action :=
  CallRequest "foo.txt" 0 1024 None sink_ok :: replicate 4095 (CallIndex [] sink_ok).

(** An [Index] on a healthy writer and sink. *)
Lemma Index_healthy idx c :
  mu c = mu_free -> werr (mwriter c) = None ->
  exists c', Index idx sink_ok c = Done tt c' /\
    mu c' = mu_free /\ werr (mwriter c') = None /\ closed c' = closed c /\
    awaiting c' = awaiting c /\ chans c' = chans c /\
    nextId c' = Z.land (wrap64 (nextId c + 1)) 0xfff.
Proof.
  intros Hmu Hw.
  destruct c as [m i r [wt we] cl aw n lr pl ls cs tr]; simpl in *; subst m we.
  eexists. split; [unfold Index, writeHeader, writeUint32, writeIndex, mwriter_write;
                   run; reflexivity|].
  simpl. done.
Qed.

Lemma run_indexes idx n : forall σ,
  mu (conn σ) = mu_free -> werr (mwriter (conn σ)) = None ->
  0 <= nextId (conn σ) < 4096 ->
  exists σ', run (replicate n (CallIndex idx sink_ok)) σ = inr σ' /\
    mu (conn σ') = mu_free /\ werr (mwriter (conn σ')) = None /\
    closed (conn σ') = closed (conn σ) /\ awaiting (conn σ') = awaiting (conn σ) /\
    chans (conn σ') = chans (conn σ) /\
    nextId (conn σ') = (nextId (conn σ) + Z.of_nat n) mod 4096.
Proof.
  induction n as [|n IH]; intros σ Hmu Hw Hn.
  - exists σ. simpl. rewrite Z.add_0_r, Z.mod_small by done. done.
  - destruct (Index_healthy idx (conn σ) Hmu Hw) as (c1 & E & A1 & A2 & A3 & A4 & A5 & A6).
    rewrite nextId_step in A6 by done.
    destruct (IH {| conn := c1; owed := owed σ |}) as (σ' & Er & B1 & B2 & B3 & B4 & B5 & B6);
      simpl; try done.
    { rewrite A6. now apply Z.mod_pos_bound. }
    exists σ'. simpl in *. rewrite E. split; [exact Er|].
    rewrite B3, B4, B5, B6, A3, A4, A5, A6, Zplus_mod_idemp_l.
    repeat split; try done. f_equal. lia.
Qed.

(** The connection after [collision_run]: the [Request] is pending under
    ID 0 on channel 0 and [nextId] is 0 again. *)
Lemma collision_state :
  exists σ, run collision_run boot = inr σ /\
    mu (conn σ) = mu_free /\ werr (mwriter (conn σ)) = None /\
    closed (conn σ) = false /\ awaiting (conn σ) = Some {[ 0 := 0%nat ]} /\
    chans (conn σ) = [chan_new] /\ nextId (conn σ) = 0.
Proof.
  assert (exists σ1, exec (CallRequest "foo.txt" 0 1024 None sink_ok) boot = inr σ1 /\
            mu (conn σ1) = mu_free /\ werr (mwriter (conn σ1)) = None /\
            closed (conn σ1) = false /\ awaiting (conn σ1) = Some {[ 0 := 0%nat ]} /\
            chans (conn σ1) = [chan_new] /\ nextId (conn σ1) = 1)
    as (σ1 & H1 & A1 & A2 & A3 & A4 & A5 & A6)
    by (vm_compute; eexists; repeat split; reflexivity).
  destruct (run_indexes [] 4095 σ1 A1 A2) as (σ & Hr & B1 & B2 & B3 & B4 & B5 & B6);
    [rewrite A6; done|].
  rewrite A3 in B3. rewrite A4 in B4. rewrite A5 in B5. rewrite A6 in B6.
  assert (B6' : nextId (conn σ) = 0) by (rewrite B6; vm_compute; reflexivity).
  exists σ. repeat split; try done.
  unfold collision_run. change (run (?a :: ?l) ?s) with
    (match exec a s with inr s' => run l s' | inl f => inl f end).
  rewrite H1. exact Hr.
Qed.

(** A [Ping] on that connection. *)
Lemma collision_ping σ :
  mu (conn σ) = mu_free -> werr (mwriter (conn σ)) = None ->
  closed (conn σ) = false -> awaiting (conn σ) = Some {[ 0 := 0%nat ]} ->
  chans (conn σ) = [chan_new] -> nextId (conn σ) = 0 ->
  exists c', Ping_send 0 sink_ok (conn σ) = Done (inl 1%nat) c' /\
    closed c' = false /\
    awaiting c' = Some (<[0 := 1%nat]> {[ 0 := 0%nat ]}) /\
    chans c' = [chan_new; chan_new].
Proof.
  intros B1 B2 B3 B4 B5 B6.
  destruct (conn σ) as [m i r [wt we] cl aw n lr pl ls cs tr].
  simpl in B1, B2, B3, B4, B5, B6. subst m we cl aw cs n.
  eexists. split; [|split; [|split]].
  - unfold Ping_send, awaiting_assign, make_chan, writeHeader, writeUint32,
      mwriter_write. run. reflexivity.
  - reflexivity.
  - reflexivity.
  - reflexivity.
Qed.

(** C3 as stated fails.  After one [Request] and 4095 [Index] messages on a
    new connection, with never more than one exchange pending, the
    [Request] is still pending under ID 0 and waiting, [nextId] is 0 again,
    and a [Ping] is sent with ID 0 as well: its channel replaces the
    [Request]'s in the table, and the [Request] goes on waiting. *)
Lemma id_reused_while_pending :
  exists σ c',
    run collision_run boot = inr σ /\
    (forall n σn, run (take n collision_run) boot = inr σn ->
       (outstanding (conn σn) <= 1)%nat) /\
    registered (conn σ) 0 0%nat /\ nextId (conn σ) = 0 /\
    Ping_send 0 sink_ok (conn σ) = Done (inl 1%nat) c' /\
    registered c' 0 1%nat /\ outstanding c' = 1%nat /\
    Request_recv 0%nat c' = Fault WouldBlock c'.
Proof.
  destruct collision_state as (σ & Hrun & B1 & B2 & B3 & B4 & B5 & B6).
  destruct (collision_ping σ B1 B2 B3 B4 B5 B6) as (c' & Hping & _ & C1 & C2).
  exists σ, c'. split; [exact Hrun|]. split.
  { intros n σn Hn.
    pose proof (run_wf _ _ _ (initial_wf _ boot_initial) Hn) as Hwfn.
    rewrite <- (take_drop n collision_run), run_app, Hn in Hrun.
    pose proof (run_chans _ _ _ Hwfn Hrun) as Hle. rewrite B5 in Hle.
    pose proof (outstanding_le_chans _ Hwfn) as Hle'.
    change (length [chan_new]) with 1%nat in Hle. clear -Hle Hle'. lia. }
  split; [exists {[ 0 := 0%nat ]}; split; [exact B4|reflexivity]|].
  split; [exact B6|]. split; [exact Hping|].
  split; [eexists; split; [exact C1|reflexivity]|].
  split.
  - unfold outstanding. rewrite C1. reflexivity.
  - apply (recv_waits c' 0%nat 0 0). rewrite C2. reflexivity.
Qed.

(** ** Waking the callers *)

(** The channels after a completed [for ... range] of [close(ch)], whatever
    the channels were before: those of the list are closed, with the
    values they held, the others are as they were. *)
Lemma for_range_chan_close_done l : forall c c',
  for_range l chan_close c = Done tt c' ->
  c' = set_chans (chans c') c /\
  length (chans c') = length (chans c) /\
  forall i st, chans c !! i = Some st ->
    chans c' !! i = Some (if decide (i ∈ l) then mark_closed st else st).
Proof.
  induction l as [|x l IH]; intros c c'.
  - intros [= <-]. split; [now destruct c|]. split; [done|].
    intros i st Hst. destruct (decide (i ∈ [])) as [H|]; [|done].
    now apply elem_of_nil in H.
  - unfold for_range; fold (@for_range nat). unfold mbind, M_bind.
    unfold chan_close at 1.
    destruct (chans c !! x) as [stx|] eqn:Hx; [|done].
    destruct (ch_closed stx) eqn:Ecl; [done|].
    intros E. apply IH in E as (E1 & E2 & E3). simpl in *.
    split; [rewrite E1; now destruct c|].
    split; [now rewrite E2, length_insert|].
    intros i st Hst. destruct (decide (i = x)) as [->|Hne].
    + assert (st = stx) as -> by congruence.
      rewrite (E3 x (mark_closed stx))
        by (apply list_lookup_insert_eq; eapply lookup_lt_Some; eauto).
      destruct (decide (x ∈ x :: l)) as [|Hn]; [|exfalso; apply Hn; left].
      now destruct (decide (x ∈ l)).
    + rewrite (E3 i st) by (rewrite list_lookup_insert_ne; done).
      destruct (decide (i ∈ l)), (decide (i ∈ x :: l)) as [H'|H']; try done.
      * exfalso. apply H'. now right.
      * apply elem_of_cons in H' as [?|?]; done.
Qed.

(** The stretch of [close()] under the mutex, when it completes on an open
    connection with the mutex free. *)
Lemma close_locked_done c first c' :
  mu c = mu_free -> closed c = false -> close_locked c = Done first c' ->
  first = true /\ mu c' = mu_free /\ closed c' = true /\ awaiting c' = None /\
  ID c' = ID c /\ trace c' = trace c /\ nextId c' = nextId c /\
  length (chans c') = length (chans c) /\
  forall i st, chans c !! i = Some st ->
    chans c' !! i = Some (if decide (i ∈ map_values (awaiting c)) then mark_closed st else st).
Proof.
  intros Hmu Hop.
  destruct c as [m i r w cl aw n lr pl ls cs tr]; simpl in *; subst m cl.
  unfold close_locked. run.
  match goal with
  | |- context [for_range ?l chan_close ?c0] =>
      destruct (for_range l chan_close c0) as [[] c1|] eqn:E; [|done]
  end.
  apply for_range_chan_close_done in E as (E1 & E2 & E3). simpl in *.
  rewrite E1. simpl. intros [= <- <-]. simpl. done.
Qed.

Lemma close_done c c' :
  mu c = mu_free -> closed c = false -> close c = Done tt c' ->
  mu c' = mu_free /\ closed c' = true /\ awaiting c' = None /\
  notified c' = notified c ++ [ID c] /\
  forall i st, chans c !! i = Some st ->
    chans c' !! i = Some (if decide (i ∈ map_values (awaiting c)) then mark_closed st else st).
Proof.
  intros Hmu Hop. rewrite close_stretches. unfold mbind, M_bind.
  destruct (close_locked c) as [first c1|] eqn:E; [|done].
  apply (close_locked_done c first c1 Hmu Hop) in E
    as (-> & A1 & A2 & A3 & A4 & A5 & A6 & A7 & A8).
  rewrite close_notify_spec. intros [= <-]. simpl.
  split; [done|]. split; [done|]. split; [done|]. split; [|done].
  unfold notified. simpl. rewrite close_calls_app, A5, A4. done.
Qed.

(** A caller waiting on [ch] has nothing to receive: the channel holds no
    value it has not taken and is not closed. *)
Definition blocked (c : Connection) (ch : nat) : Prop :=
  exists st, chans c !! ch = Some st /\ sent st !! taken st = None /\ ch_closed st = false.

(** C2, as amended.  Take a connection that is open, with the mutex free,
    an entry of the pending table, and a caller of [Request] or [Ping]
    waiting on the channel of that entry with nothing to receive.  The
    caller is blocked.  Whenever [close()] then runs to its end, or its
    stretch under the mutex does, the connection is closed, the table is
    nil, so that no entry is pending, the receiver has been told, and the
    caller's receive returns the closed indication ([nil] with [ErrClosed]
    for [Request], not-ok for [Ping]) and leaves the connection as it is.
    On a well-formed connection [close()] does run to its end.  A caller
    blocked on a channel that is in no entry of the table is not woken by
    [close()]: it is blocked afterwards as before. *)
Theorem close_wakes_pending_callers (c : Connection) (k : Z) (ch : nat) (t0 now : Z)
  (Hmu : mu c = mu_free) (Hop : closed c = false)
  (Hreg : registered c k ch) (Hbl : blocked c ch) :
  (Request_recv ch c = Fault WouldBlock c /\ Ping_recv t0 now ch c = Fault WouldBlock c) /\
  (forall c1, close c = Done tt c1 ->
     closed c1 = true /\ awaiting c1 = None /\ (forall k' ch', ~ registered c1 k' ch') /\
     notified c1 = notified c ++ [ID c] /\
     Request_recv ch c1 = Done (None, Some ErrClosed) c1 /\
     Ping_recv t0 now ch c1 = Done (time_Since t0 now, false) c1) /\
  (forall first c1, close_locked c = Done first c1 ->
     closed c1 = true /\ awaiting c1 = None /\ (forall k' ch', ~ registered c1 k' ch') /\
     Request_recv ch c1 = Done (None, Some ErrClosed) c1 /\
     Ping_recv t0 now ch c1 = Done (time_Since t0 now, false) c1) /\
  (wf c -> exists c1, close c = Done tt c1) /\
  (forall ch' c1, blocked c ch' -> (forall k', ~ registered c k' ch') ->
     close c = Done tt c1 ->
     blocked c1 ch' /\ Request_recv ch' c1 = Fault WouldBlock c1 /\
     Ping_recv t0 now ch' c1 = Fault WouldBlock c1).
Proof.
  assert (Hother : forall ch' c1, blocked c ch' -> (forall k', ~ registered c k' ch') ->
     close c = Done tt c1 ->
     blocked c1 ch' /\ Request_recv ch' c1 = Fault WouldBlock c1 /\
     Ping_recv t0 now ch' c1 = Fault WouldBlock c1).
  { intros ch' c1 (st' & Hst' & Hnone' & Hcl') Hout E.
    apply (close_done c c1 Hmu Hop) in E as (_ & _ & _ & _ & A5).
    pose proof (A5 ch' st' Hst') as Hch'.
    destruct (decide _) as [Hin|_].
    { apply elem_of_map_values in Hin as (k' & Hr). now apply Hout in Hr. }
    split; [exists st'; done|].
    unfold Request_recv, Ping_recv, chan_recv, mbind, M_bind.
    rewrite Hch', Hnone', Hcl'. done. }
  destruct Hbl as (st & Hst & Hnone & Hcl).
  assert (Hin : ch ∈ map_values (awaiting c)) by (apply elem_of_map_values; eauto).
  assert (Hwoken : forall c1,
    chans c1 !! ch = Some (if decide (ch ∈ map_values (awaiting c)) then mark_closed st else st) ->
    Request_recv ch c1 = Done (None, Some ErrClosed) c1 /\
    Ping_recv t0 now ch c1 = Done (time_Since t0 now, false) c1).
  { intros c1 H1. destruct (decide _) as [_|Hn]; [|done].
    unfold Request_recv, Ping_recv, chan_recv, mbind, M_bind.
    rewrite H1. simpl. rewrite Hnone. simpl. done. }
  assert (Hnil : forall c1, awaiting c1 = None -> forall k' ch', ~ registered c1 k' ch').
  { intros c1 H1 k' ch' (m & Hm & _). congruence. }
  split; [|split; [|split; [|split; [|exact Hother]]]].
  - unfold Request_recv, Ping_recv, chan_recv, mbind, M_bind.
    rewrite Hst, Hnone, Hcl. done.
  - intros c1 E. apply (close_done c c1 Hmu Hop) in E as (_ & A2 & A3 & A4 & A5).
    destruct (Hwoken c1 (A5 ch st Hst)) as [W1 W2]. auto 10.
  - intros first c1 E.
    apply (close_locked_done c first c1 Hmu Hop) in E
      as (_ & _ & A2 & A3 & _ & _ & _ & _ & A5).
    destruct (Hwoken c1 (A5 ch st Hst)) as [W1 W2]. auto 10.
  - intros Hwf. exists (after_close c). apply close_spec; [done|].
    now apply wf_channels_ready.
Qed.

Lemma close_wakes_pending_callers_witness :
  exists c c1,
    mu c = mu_free /\ closed c = false /\ registered c 0 0%nat /\ blocked c 0%nat /\
    Request_recv 0%nat c = Fault WouldBlock c /\
    close c = Done tt c1 /\ Request_recv 0%nat c1 = Done (None, Some ErrClosed) c1.
Proof.
  destruct (Request_send "foo.txt" 0 1024 None sink_ok (conn boot))
    as [r c|f c] eqn:E; [|vm_compute in E; discriminate E].
  assert (Hwf : wf c).
  { eapply so_wf, (Request_send_ok None); [|exact E]. exact (initial_wf boot boot_initial). }
  assert (Hc : closed c = false /\ registered c 0 0%nat /\ blocked c 0%nat).
  { vm_compute in E. injection E as _ <-. split; [reflexivity|]. split.
    - eexists. split; reflexivity.
    - exists chan_new. repeat split. }
  destruct Hc as (Hop & Hreg & Hbl).
  destruct (close_wakes_pending_callers c 0 0%nat 0 0 (wf_mu c Hwf) Hop Hreg Hbl)
    as ([Hw _] & Hclose & _ & Hdone & _).
  destruct (Hdone Hwf) as [c1 Hc1].
  destruct (Hclose c1 Hc1) as (_ & _ & _ & _ & Hr & _).
  exists c, c1.
  exact (conj (wf_mu c Hwf) (conj Hop (conj Hreg (conj Hbl (conj Hw (conj Hc1 Hr)))))).
Defined.

(** C2 as stated fails.  After [collision_run] the [Request] with ID 0 is
    pending and its caller is blocked.  A [Ping] then takes ID 0 and puts
    its own channel in the place of the [Request]'s.  [close()] closes the
    channels of the table, the [Ping]'s among them, and not the
    [Request]'s: the connection is closed, the table is nil, and the
    caller of the [Request] is still blocked. *)
Lemma overwritten_caller_is_not_woken :
  exists σ c' c'',
    run collision_run boot = inr σ /\
    registered (conn σ) 0 0%nat /\ Request_recv 0%nat (conn σ) = Fault WouldBlock (conn σ) /\
    Ping_send 0 sink_ok (conn σ) = Done (inl 1%nat) c' /\
    close c' = Done tt c'' /\ closed c'' = true /\ awaiting c'' = None /\
    Request_recv 0%nat c'' = Fault WouldBlock c''.
Proof.
  destruct collision_state as (σ & Hrun & B1 & B2 & B3 & B4 & B5 & B6).
  destruct (collision_ping σ B1 B2 B3 B4 B5 B6) as (c' & Hping & C0 & C1 & C2).
  pose proof (run_wf _ _ _ (initial_wf _ boot_initial) Hrun) as Hwf.
  pose proof (so_wf _ _ _ _ (Ping_send_ok None _ _ _ _ _ Hwf Hping)) as Hwf'.
  exists σ, c', (after_close c').
  split; [exact Hrun|].
  split; [exists {[ 0 := 0%nat ]}; split; [exact B4|reflexivity]|].
  split; [apply (recv_waits (conn σ) 0%nat 0 0); rewrite B5; reflexivity|].
  split; [exact Hping|].
  split; [apply close_spec; [exact (wf_mu c' Hwf')|exact (wf_channels_ready c' Hwf')]|].
  split; [apply after_close_closed|].
  split; [unfold after_close; rewrite C0; reflexivity|].
  apply (recv_waits _ 0%nat 0 0).
  rewrite after_close_chan by exact C0. rewrite C2. simpl.
  destruct (decide _) as [Hin|]; [|reflexivity].
  exfalso. apply elem_of_map_values in Hin as (k & m & Hm & Hk).
  rewrite C1 in Hm. injection Hm as <-.
  destruct (decide (k = 0)) as [->|Hne].
  - rewrite lookup_insert_eq in Hk. discriminate Hk.
  - rewrite lookup_insert_ne, lookup_singleton_ne in Hk by done. discriminate Hk.
Qed.

(** ** What a caller of [Request] gets *)

(** Whether a write of protocol.go's frame fails on this connection: the
    codec's error is set already, the sink refuses the header or the
    payload, or the flush fails. *)
Definition frame_fails (c : Connection) (s : sink) : Prop :=
  werr (mwriter c) <> None \/ io_err (on_header s) <> None \/
  io_err (on_body s) <> None \/ on_flush s <> None.

Lemma Request_send_failure name offset size hash s c res c' :
  wf c -> Request_send name offset size hash s c = Done (inr res) c' ->
  res.1 = None /\ exists e, res.2 = Some e /\
    (werr (mwriter c') = Some e \/ on_flush s = Some e).
Proof.
  intros Hwf. wf_fields c Hwf.
  unfold Request_send, awaiting_assign, make_chan, writeHeader, writeUint32,
    writeRequest, mwriter_write. run.
  destruct cl, aw as [m|]; simpl; repeat go Hwf;
    (intros E; first [discriminate E | injection E as <- <-]; simpl; simplify_eq;
     repeat match goal with H : ?x = Some _ |- context [?x] => rewrite H end;
     (split; [reflexivity|]); eexists; (split; [reflexivity|]); simpl; auto).
Qed.

(** C9.  On every connection reached from a new one: when the receive of
    [Request] gets a value, the error it returns is nil, and the call
    returns what the reader put in the value; when it gets none, the
    channel is closed and the call returns [nil] and [ErrClosed]; and a
    [Request] that returns without waiting returns [nil] and the error of
    the codec or of the flush.  Every value on every channel carries a nil
    error, because the reader hands one over only after it found the
    codec's error nil, and hands over that error. *)
Theorem request_error_is_nil_on_delivery (acts : list action) (σ0 σ : system)
  (Hinit : initial σ0) (Hrun : run acts σ0 = inr σ) :
  (forall ch st v, chans (conn σ) !! ch = Some st -> v ∈ sent st -> err v = None) /\
  (forall rc res c', Request_recv rc (conn σ) = Done res c' ->
     exists st, chans (conn σ) !! rc = Some st /\
       match sent st !! taken st with
       | Some v => res = (val v, None)
       | None => ch_closed st = true /\ res = (None, Some ErrClosed)
       end) /\
  (forall name offset size hash s res c',
     Request_send name offset size hash s (conn σ) = Done (inr res) c' ->
     res.1 = None /\ exists e, res.2 = Some e /\
       (werr (mwriter c') = Some e \/ on_flush s = Some e)).
Proof.
  assert (Hwf : wf (conn σ))
    by (apply (run_wf acts σ0 σ); [now apply initial_wf | done]).
  split; [apply (wf_noerr _ Hwf)|]. split.
  - intros rc res c'. unfold Request_recv, chan_recv, mbind, M_bind.
    destruct (chans (conn σ) !! rc) as [st|] eqn:Est; [|done].
    exists st. split; [done|].
    destruct (sent st !! taken st) as [v|] eqn:Ev; simpl in *.
    + injection H as <- _. f_equal.
      eapply (wf_noerr _ Hwf); [exact Est|]. eapply list_elem_of_lookup_2; eauto.
    + destruct (ch_closed st); [|done]. simpl in H. now injection H as <- _.
  - intros. eapply Request_send_failure; eauto.
Qed.

(** The turn of the reader that brings the answer to the request with
    ID 0, and a [Request] followed by it. *)
Definition answer_turn : action :=
  ReaderTurn {| in_header := {| version := 0; msgID := 0;
                               msgType := messageTypeResponse |};
                in_header_io := io_ok 4; in_now := 7; in_files := [];
                in_request := request_zero;
                in_data := Some [Byte.x78]; in_body_io := io_ok 5;
                in_sink := sink_ok |}.

Definition answered_run : list action :=
  [CallRequest "foo.txt" 0 1024 None sink_ok; answer_turn].

Lemma request_error_is_nil_on_delivery_witness :
  exists σ c', initial boot /\ run answered_run boot = inr σ /\
    Request_recv 0%nat (conn σ) = Done (Some [Byte.x78], None) c'.
Proof.
  assert (Hrun : exists σ, run answered_run boot = inr σ)
    by (vm_compute; eexists; reflexivity).
  destruct Hrun as [σ Hrun].
  destruct (request_error_is_nil_on_delivery _ boot σ boot_initial Hrun) as (_ & H & _).
  assert (Hrecv : exists c', Request_recv 0%nat (conn σ) = Done (Some [Byte.x78], None) c').
  { vm_compute in Hrun. injection Hrun as <-. vm_compute. eexists; reflexivity. }
  destruct Hrecv as [c' Hrecv]. destruct (H _ _ _ Hrecv) as (st & _ & _).
  exists σ, c'. exact (conj boot_initial (conj Hrun Hrecv)).
Defined.

(** ** A correlated send that fails *)

(** How the stretch of a correlated send under the mutex ends. *)
Inductive send_outcome :=
| Sent
| CodecFailed
| FlushFailed (e : option error).

(** The stretch of [Request] under the mutex, from [Lock] to [Unlock]. *)
Definition Request_locked (name : string) (offset size : Z) (hash : bytes) (s : sink)
  : M (nat * send_outcome) :=
  Lock ;;
  rc ← make_chan ;
  id ← load nextId ;
  awaiting_assign id rc ;;
  writeHeader {| version := 0; msgID := id; msgType := messageTypeRequest |} (on_header s) ;;
  writeRequest {| name := name; offset := offset; size := size; hash := hash |} (on_body s) ;;
  we ← peek (fun c => werr (mwriter c)) ;
  if notnil we then
    Unlock ;; mret (rc, CodecFailed)
  else
    err ← flush (on_flush s) ;
    if notnil err then
      Unlock ;; mret (rc, FlushFailed err)
    else
      n ← load nextId ;
      store (set_nextId (Z.land (wrap64 (n + 1)) 0xfff)) ;;
      Unlock ;;
      mret (rc, Sent).


(** The stretch of [Ping] under the mutex. *)
Definition Ping_locked (t0 : Z) (s : sink) : M (nat * send_outcome) :=
  Lock ;;
  rc ← make_chan ;
  id ← load nextId ;
  awaiting_assign id rc ;;
  writeHeader {| version := 0; msgID := id; msgType := messageTypePing |} (on_header s) ;;
  err ← flush (on_flush s) ;
  we ← peek (fun c => werr (mwriter c)) ;
  if notnil err || notnil we then
    Unlock ;; mret (rc, FlushFailed err)
  else
    n ← load nextId ;
    store (set_nextId (Z.land (wrap64 (n + 1)) 0xfff)) ;;
    Unlock ;;
    mret (rc, Sent).






Ltac close_here Hwf :=
  rewrite close_spec; [unfold after_close; simpl | reflexivity | ready Hwf].




(** ** Answering a request *)

Lemma decode_encode_header id t :
  0 <= id < 4096 -> 0 <= t < 256 ->
  decodeHeader (encodeHeader {| version := 0; msgID := id; msgType := t |})
  = {| version := 0; msgID := id; msgType := t |}.
Proof.
  intros Hid Ht. unfold decodeHeader, encodeHeader. simpl.
  change 0xfff with (Z.ones 12). change 0xff with (Z.ones 8). change 0xf with (Z.ones 4).
  rewrite !Z.land_ones by lia. rewrite !Z.shiftl_mul_pow2, !Z.shiftr_div_pow2 by lia.
  rewrite (Z.mod_small id), (Z.mod_small t) by lia.
  change (2 ^ 28) with 268435456. change (2 ^ 16) with 65536. change (2 ^ 8) with 256.
  change (2 ^ 12) with 4096. change (2 ^ 4) with 16.
  f_equal; Z.div_mod_to_equations; lia.
Qed.

Ltac pick ws cl := exists ws, cl; simpl; rewrite <- ?app_assoc; reflexivity.

(** C6.  A turn of the reader that decodes a Request starts one goroutine
    for it with the ID of the inbound header.  That goroutine, whatever
    the receiver returns as its error, hands the stream one header word
    and one payload, under the mutex, flushes, and then gives the buffer
    back to the pool, flush failed or not.  With a healthy codec and sink
    what reaches the stream is exactly the header of a Response with the
    inbound ID followed by the receiver's bytes, and unless the flush
    fails the connection is not closed; the receiver's error changes
    nothing. *)
Theorem request_answered_once (c : Connection) (id : Z) (req : request)
  (data : bytes) (recv_err : option error) (s : sink)
  (inb : inbound) (Hwf : wf c) :
  (closed c = false -> rerr (mreader c) = None -> werr (mwriter c) = None ->
   io_err (in_header_io inb) = None -> io_err (in_body_io inb) = None ->
   version (in_header inb) = 0 -> msgType (in_header inb) = messageTypeRequest ->
   exists cr, readerLoop_body inb c = Done false cr /\
     trace cr = trace c ++ [Go (GoAnswer (msgID (in_header inb)) (in_request inb))] /\
     closed cr = false) /\
  exists c',
    processRequest_go id req (data, recv_err) s c = Done tt c' /\
    processRequest_go id req (data, None) s c = Done tt c' /\
    (exists ws cl,
       trace c' = trace c ++ [ModelRequest (ID c) req] ++ (Wrote <$> ws)
                  ++ [Flushed (on_flush s); BuffersPut data] ++ (ModelClose <$> cl)) /\
    (werr (mwriter c) = None -> io_err (on_header s) = None -> io_err (on_body s) = None ->
       trace c' = trace c ++
         [ModelRequest (ID c) req;
          Wrote (WUint32 (encodeHeader {| version := 0; msgID := id;
                                          msgType := messageTypeResponse |}));
          Wrote (WResponse data); Flushed (on_flush s); BuffersPut data]
         ++ (if closed c then [] else match on_flush s with Some _ => [ModelClose (ID c)] | None => [] end) /\
       (on_flush s = None ->
          closed c' = closed c /\ awaiting c' = awaiting c /\ chans c' = chans c)) /\
    (0 <= id < 4096 ->
       decodeHeader (encodeHeader {| version := 0; msgID := id;
                                     msgType := messageTypeResponse |})
       = {| version := 0; msgID := id; msgType := messageTypeResponse |}).
Proof.
  pose proof (wf_channels_ready c Hwf) as Hready.
  pose proof (wf_mu c Hwf) as Hmu. clear Hwf.
  destruct c as [m i [rt re] [wt we] cl aw n lr pl ls cs tr]; simpl in Hmu; subst m.
  split.
  { simpl. intros -> -> -> Hh Hb Hv Ht.
    destruct inb as [[v hid t] [hn he] now fs q d [bn be] sk]; simpl in *. subst.
    eexists. split.
    { unfold readerLoop_body, processRequest, readHeader, readRequest, mreader_read.
      run. reflexivity. }
    split; reflexivity. }
  destruct s as [[hn he] [bn be] fl].
  destruct we, he, be, fl, cl.
  all: eexists.
  all: split; [unfold processRequest_go, writeUint32, writeResponse, mwriter_write; run;
               try (rewrite close_spec; [unfold after_close; simpl|reflexivity|exact Hready]);
               reflexivity|].
  all: split; [unfold processRequest_go, writeUint32, writeResponse, mwriter_write; run;
               try (rewrite close_spec; [unfold after_close; simpl|reflexivity|exact Hready]);
               reflexivity|].
  all: simpl.
  all: pose (hw := WUint32 (encodeHeader {| version := 0; msgID := id;
                                           msgType := messageTypeResponse |})).
  all: split;
    [first [ pick (@nil wire_item) (@nil string) | pick (@nil wire_item) [i]
           | pick [hw] (@nil string) | pick [hw] [i]
           | pick [hw; WResponse data] (@nil string)
           | pick [hw; WResponse data] [i] ]|].
  all: split; [| intros; apply decode_encode_header; [done | unfold messageTypeResponse; lia]].
  all: intros H1 H2 H3; try discriminate.
  all: split; [rewrite <- ?app_assoc; reflexivity | intros Hfl; try discriminate; done].
Qed.

Lemma request_answered_once_witness :
  exists c',
    wf (conn boot) /\
    processRequest_go 7 request_zero (Some [Byte.x78], Some (ErrIO "no such file")) sink_ok
      (conn boot) = Done tt c' /\
    trace c' = trace (conn boot) ++
      [ModelRequest "peer" request_zero; Wrote (WUint32 459520);
       Wrote (WResponse (Some [Byte.x78])); Flushed None; BuffersPut (Some [Byte.x78])] /\
    decodeHeader 459520 = {| version := 0; msgID := 7; msgType := messageTypeResponse |}.
Proof.
  pose proof (initial_wf boot boot_initial) as Hwf.
  destruct (request_answered_once (conn boot) 7 request_zero (Some [Byte.x78])
              (Some (ErrIO "no such file")) sink_ok
              {| in_header := header_zero; in_header_io := io_ok 4; in_now := 0;
                 in_files := []; in_request := request_zero; in_data := None;
                 in_body_io := io_ok 0; in_sink := sink_ok |} Hwf)
    as (_ & c' & E & _ & _ & Htr & Hdec).
  exists c'. split; [exact Hwf|]. split; [exact E|]. split.
  - destruct (Htr eq_refl eq_refl eq_refl) as [-> _]. reflexivity.
  - apply Hdec. lia.
Defined.

(** A sink whose flush fails. *)
Definition broken_sink : sink :=
  {| on_header := io_ok 4; on_body := io_ok 20; on_flush := Some (ErrIO "broken pipe") |}.


(** ** The pinger *)




(** ** Statistics *)

(** The rate that [Statistics] reports for a byte count that went from
    [before] to [now] over [secs] seconds. *)
Definition reported_rate (arch : spec_float -> Z) (now before : Z) (secs : spec_float) : Z :=
  int_of_float64 arch (float64_div (float64_of_int (wrap64 (now - before))) secs).

(** C7, as amended.  With the mutex free, [Statistics] always returns, and
    stores what it returns as the new baseline: the clock, the two byte
    counters, the latency estimate and two integer rates.  Each rate is the
    growth of the counter since the baseline divided in [float64] by the
    seconds since the baseline, converted to an integer: whenever that
    quotient has an integer part within the range of [int], the rate is
    this integer part, whatever the length of the interval. *)
Theorem statistics_reports_quotients (c : Connection) (arch : spec_float -> Z) (t1 t2 : Z)
  (Hmu : mu c = mu_free) :
  let last := lastStatistics c in
  let secs := Duration_Seconds (time_Since (At last) t1) in
  exists st,
    Connection_Statistics arch t1 t2 c = Done st (set_lastStatistics st c) /\
    At st = t2 /\ InBytesTotal st = rtot (mreader c) /\
    OutBytesTotal st = wtot (mwriter c) /\ Latency st = peerLatency c /\
    InBytesPerSec st = reported_rate arch (rtot (mreader c)) (InBytesTotal last) secs /\
    OutBytesPerSec st = reported_rate arch (wtot (mwriter c)) (OutBytesTotal last) secs /\
    (forall z,
       float64_trunc (float64_div
         (float64_of_int (wrap64 (rtot (mreader c) - InBytesTotal last))) secs) = Some z ->
       minInt64 <= z <= maxInt64 -> InBytesPerSec st = z) /\
    (forall z,
       float64_trunc (float64_div
         (float64_of_int (wrap64 (wtot (mwriter c) - OutBytesTotal last))) secs) = Some z ->
       minInt64 <= z <= maxInt64 -> OutBytesPerSec st = z).
Proof.
  destruct c as [m i r w cl aw n lr pl ls cs tr]; simpl in Hmu; subst m. simpl.
  eexists. split; [unfold Connection_Statistics; run; reflexivity|].
  simpl. repeat split.
  - intros z Hz [Hlo Hhi]. unfold int_of_float64. rewrite Hz.
    apply Z.leb_le in Hlo, Hhi. now rewrite Hlo, Hhi.
  - intros z Hz [Hlo Hhi]. unfold int_of_float64. rewrite Hz.
    apply Z.leb_le in Hlo, Hhi. now rewrite Hlo, Hhi.
Qed.

(** A new connection on which the reader has taken an index message of
    1000 bytes. *)
Definition read_1000_bytes : list action :=
  [ReaderTurn {| in_header := {| version := 0; msgID := 0; msgType := messageTypeIndex |};
                 in_header_io := io_ok 4; in_now := 0; in_files := [];
                 in_request := request_zero; in_data := None;
                 in_body_io := io_ok 996; in_sink := sink_ok |}].

(** What the amd64 compiler makes of a conversion that does not fit. *)
Definition arch_amd64 (f : spec_float) : Z := minInt64.

Lemma statistics_reports_quotients_witness :
  exists σ st,
    run read_1000_bytes boot = inr σ /\ mu (conn σ) = mu_free /\
    Connection_Statistics arch_amd64 1 1 (conn σ) = Done st (set_lastStatistics st (conn σ)) /\
    InBytesPerSec st = 999999999999 /\ OutBytesPerSec st = 0.
Proof.
  assert (Hrun : exists σ, run read_1000_bytes boot = inr σ)
    by (vm_compute; eexists; reflexivity).
  destruct Hrun as [σ Hrun].
  assert (Hmu : mu (conn σ) = mu_free)
    by (apply wf_mu, (run_wf _ _ _ (initial_wf _ boot_initial) Hrun)).
  destruct (statistics_reports_quotients (conn σ) arch_amd64 1 1 Hmu)
    as (st & E & _ & _ & _ & _ & _ & _ & Hin & Hout).
  exists σ, st. split; [exact Hrun|]. split; [exact Hmu|]. split; [exact E|].
  vm_compute in Hrun. injection Hrun as <-. split.
  - apply Hin; [vm_compute; reflexivity|]. vm_compute. split; discriminate.
  - apply Hout; [vm_compute; reflexivity|]. vm_compute. split; discriminate.
Defined.

(** C7 as stated fails.  One nanosecond after construction, with 1000
    bytes read since and a previous rate of zero, [Statistics] reports
    999999999999 bytes per second inbound (the conversion is one that Go
    fixes, the platform has no say): not zero and not the previous rate. *)
Lemma rate_after_one_nanosecond :
  exists σ st c',
    run read_1000_bytes boot = inr σ /\
    At (lastStatistics (conn σ)) = 0 /\ InBytesPerSec (lastStatistics (conn σ)) = 0 /\
    rtot (mreader (conn σ)) = 1000 /\
    Connection_Statistics arch_amd64 1 1 (conn σ) = Done st c' /\
    InBytesPerSec st = 999999999999 /\
    InBytesPerSec st <> 0 /\ InBytesPerSec st <> InBytesPerSec (lastStatistics (conn σ)).
Proof.
  assert (Hrun : exists σ, run read_1000_bytes boot = inr σ)
    by (vm_compute; eexists; reflexivity).
  destruct Hrun as [σ Hrun]. exists σ.
  assert (Hst : exists st c', Connection_Statistics arch_amd64 1 1 (conn σ) = Done st c' /\
                  InBytesPerSec st = 999999999999).
  { vm_compute in Hrun. injection Hrun as <-. vm_compute. eexists _, _. split; reflexivity. }
  destruct Hst as (st & c' & E & Hrate). exists st, c'.
  split; [exact Hrun|]. vm_compute in Hrun. injection Hrun as <-.
  split; [reflexivity|]. split; [reflexivity|]. split; [reflexivity|].
  split; [exact E|]. split; [exact Hrate|]. rewrite Hrate. split; discriminate.
Qed.

Ltac run_cbn :=
  unfold mbind, M_bind, mret, M_ret, Lock, Unlock, RLock, RUnlock, load, store,
    peek, poke, emit, raise, flush, notnil;
  unsetters; cbn.

(** ** The life of an entry of the pending table *)

Lemma run_stays_out acts : forall σ σ' ch,
  wf (conn σ) -> (ch < length (chans (conn σ)))%nat ->
  (forall k, ~ registered (conn σ) k ch) ->
  run acts σ = inr σ' -> forall k, ~ registered (conn σ') k ch.
Proof.
  induction acts as [|a rest IH]; intros σ σ' ch Hwf Hlt Hout E; simpl in E.
  - now injection E as <-.
  - destruct (exec a σ) as [f|σ1] eqn:Ea; [done|].
    pose proof (exec_core a σ σ1 Hwf Ea) as [A1 A2 A3 A5 A6 A7].
    eapply (IH σ1 σ' ch A1); [lia| |exact E].
    intros k Hr. destruct (A5 k ch Hr) as [Hr'|Hge]; [now apply (Hout k)|lia].
Qed.

(** Whether the reader gets the header and, for a Response, the payload
    of [i] off the stream on connection [c]. *)
Definition decodes (c : Connection) (i : inbound) : Prop :=
  closed c = false /\ rerr (mreader c) = None /\ io_err (in_header_io i) = None /\
  version (in_header i) = 0 /\
  (msgType (in_header i) = messageTypeResponse -> io_err (in_body_io i) = None).

Lemma reader_absent inb k c :
  wf c -> decodes c inb -> carries inb = Some k ->
  (forall ch, ~ registered c k ch) ->
  exists c', reader_turn inb c = Done tt c' /\ lastReceive c' = in_now inb /\
    set_mreader (mreader c) (set_lastReceive (lastReceive c) c') = c.
Proof.
  intros Hwf (Hop & Hre & Hh & Hv & Hb) Hcar Habs.
  assert (exists m0, awaiting c = Some m0) as [m0 Hm].
  { destruct (awaiting c) eqn:E; [eauto|]. apply (wf_closed c Hwf) in E. congruence. }
  unfold reader_turn. erewrite bind_Done by (apply isClosed_spec, (wf_mu c Hwf)).
  rewrite Hop.
  pose proof (wf_mu c Hwf) as Hmu.
  destruct c as [m i [rt re] w cl aw n lr pl ls cs tr]; simpl in *. subst m re cl aw.
  destruct inb as [[v hid t] [hn he] now fs q d [bn be] sk]; simpl in *. subst v he.
  unfold carries in Hcar. simpl in Hcar.
  assert (Hk : m0 !! hid = None).
  { destruct (m0 !! hid) as [ch|] eqn:E; [|done]. exfalso.
    destruct ((t =? messageTypeResponse) || (t =? messageTypePong)); [|done].
    injection Hcar as <-. apply (Habs ch). exists m0. done. }
  destruct (t =? messageTypeResponse) eqn:E3.
  - apply Z.eqb_eq in E3. subst t. rewrite (Hb eq_refl).
    eexists. split.
    { unfold readerLoop_body, awaiting_lookup, readHeader, readResponse, mreader_read.
      unfold messageTypeResponse, messageTypeIndex, messageTypeRequest,
        messageTypePing, messageTypePong.
      run_cbn. rewrite Hk. reflexivity. }
    split; reflexivity.
  - destruct (t =? messageTypePong) eqn:E5; [|done].
    apply Z.eqb_eq in E5. subst t.
    eexists. split.
    { unfold readerLoop_body, awaiting_lookup, readHeader, readResponse, mreader_read.
      unfold messageTypeResponse, messageTypeIndex, messageTypeRequest,
        messageTypePing, messageTypePong.
      run_cbn. rewrite Hk. reflexivity. }
    split; reflexivity.
Qed.

(** C4 as stated fails.  After [collision_run] the [Request]'s entry is in
    the table under ID 0; a [Ping] then takes it out: the action is not a
    turn of the reader, the connection is still open afterwards, and the
    [Request]'s channel has been neither handed a value nor closed, so its
    caller goes on waiting. *)
Lemma entry_overwritten_by_send :
  exists σ σ',
    run collision_run boot = inr σ /\ registered (conn σ) 0 0%nat /\
    exec (CallPing 0 sink_ok) σ = inr σ' /\ ~ registered (conn σ') 0 0%nat /\
    answers (CallPing 0 sink_ok) = None /\ closed (conn σ') = false /\
    chans (conn σ') !! 0%nat = Some chan_new /\
    Request_recv 0%nat (conn σ') = Fault WouldBlock (conn σ').
Proof.
  destruct collision_state as (σ & Hrun & B1 & B2 & B3 & B4 & B5 & B6).
  destruct (collision_ping σ B1 B2 B3 B4 B5 B6) as (c' & Hping & C0 & C1 & C2).
  exists σ, {| conn := c'; owed := owed σ |}.
  split; [exact Hrun|]. split; [exists {[ 0 := 0%nat ]}; split; [exact B4|reflexivity]|].
  split; [simpl; unfold mbind, M_bind; now rewrite Hping|].
  simpl. split.
  { intros (m & Hm & Hk). rewrite C1 in Hm. injection Hm as <-.
    rewrite lookup_insert_eq in Hk. discriminate Hk. }
  split; [reflexivity|]. split; [exact C0|].
  assert (Hch : chans c' !! 0%nat = Some chan_new) by (rewrite C2; reflexivity).
  split; [exact Hch|]. apply (recv_waits c' 0%nat 0 0 Hch).
Qed.

(** * Further properties of the engine *)

(** ** Construction and the closed test *)

(** X1.  [NewConnection] panics with the compressor's error when
    [flate.NewWriter] fails and in no other case.  The connection it
    returns is well-formed and open: the table is empty but not nil, both
    clock readings are stored, [nextId] is 0, the receiver has been told
    nothing, the reader and the pinger have been started, once each, and
    the first test of either loop finds the connection open. *)
Theorem NewConnection_starts_open (nodeID : string) (flate_err : option error) (t1 t2 : Z) :
  match NewConnection nodeID flate_err t1 t2 with
  | inl f => exists e, flate_err = Some e /\ f = InitFailed e
  | inr c =>
      flate_err = None /\ wf c /\ ID c = nodeID /\ closed c = false /\
      awaiting c = Some ∅ /\ outstanding c = 0%nat /\ nextId c = 0 /\
      lastReceive c = t1 /\ At (lastStatistics c) = t2 /\ notified c = [] /\
      trace c = [Go GoReaderLoop; Go GoPingerLoop] /\
      isClosed c = Done false c
  end.
Proof.
  destruct flate_err as [e|]; simpl; [eauto|].
  split; [done|]. split; [eapply wf_NewConnection; reflexivity|].
  repeat split.
Qed.

(** X2.  [isClosed] waits while a writer holds the mutex; otherwise, also
    next to other readers, it returns the closed flag and gives its read
    lock back: the connection is exactly as before. *)
Theorem isClosed_reads_flag (c : Connection) :
  isClosed c = if w_held (mu c) then Fault WouldBlock c else Done (closed c) c.
Proof.
  destruct c as [[w r] i rd wr cl aw n lr pl ls cs tr]. unfold isClosed. run.
  destruct w; reflexivity.
Qed.

(** ** Index *)

(** X3.  [Index] never looks at the closed flag or at the table.  On every
    well-formed connection, closed ones included, it returns with the mutex
    free and [nextId] moved on by one modulo 4096, also when the write
    failed.  With a healthy codec and sink it hands the stream the header
    with the ID [nextId] had, then the index, and flushes; the closed flag,
    the table and the channels stay as they were.  When the frame fails the
    connection is closed afterwards and the receiver has been told, unless
    it was closed already. *)
Theorem Index_sends_frame (idx : list FileInfo) (s : sink) (c : Connection) (Hwf : wf c) :
  exists c',
    Index idx s c = Done tt c' /\ mu c' = mu_free /\
    nextId c' = (nextId c + 1) mod 4096 /\
    (werr (mwriter c) = None -> io_err (on_header s) = None ->
     io_err (on_body s) = None -> on_flush s = None ->
       trace c' = trace c ++
         [Wrote (WUint32 (encodeHeader {| version := 0; msgID := nextId c;
                                          msgType := messageTypeIndex |}));
          Wrote (WIndex idx); Flushed None] /\
       wtot (mwriter c') = wtot (mwriter c) + io_n (on_header s) + io_n (on_body s) /\
       closed c' = closed c /\ awaiting c' = awaiting c /\ chans c' = chans c) /\
    (frame_fails c s ->
       closed c' = true /\ awaiting c' = None /\
       notified c' = notified c ++ (if closed c then [] else [ID c])).
Proof.
  pose proof (nextId_step (nextId c) (wf_nextId c Hwf)) as Hstep.
  wf_fields c Hwf. simpl in Hstep.
  destruct w as [wt we], s as [[hn he] [bn be] fl].
  destruct we, he, be, fl, cl.
  all: eexists.
  all: split; [unfold Index, writeHeader, writeUint32, writeIndex, mwriter_write; run;
               try close_here Hwf; reflexivity|].
  all: simpl.
  all: split; [reflexivity|].
  all: split; [exact Hstep|].
  all: unfold frame_fails; simpl.
  all: split; [intros H1 H2 H3 H4; try discriminate;
               rewrite <- ?app_assoc; repeat split; lia
              | intros Hf; try (exfalso; destruct Hf as [H|[H|[H|H]]]; now apply H)].
  all: repeat split; try close_calls_simpl.
  all: apply (wf_closed _ Hwf); reflexivity.
Qed.

Lemma Index_sends_frame_witness :
  exists c',
    wf (conn boot) /\ Index [] sink_ok (conn boot) = Done tt c' /\ nextId c' = 1.
Proof.
  pose proof (initial_wf boot boot_initial) as Hwf.
  destruct (Index_sends_frame [] sink_ok (conn boot) Hwf) as (c' & E & _ & Hn & _).
  exists c'. exact (conj Hwf (conj E Hn)).
Defined.

(** ** Sending on a closed connection *)

(** X4.  [Request] and [Ping] do not look at the closed flag either:
    [close()] has set the table to nil, and the assignment
    [c.awaiting[c.nextId] = rc] panics.  On every closed connection a
    correlated send ends in that panic with the mutex still held and
    nothing handed to the stream. *)
Theorem send_on_closed_connection_panics (c : Connection) (name : string)
  (offset size : Z) (hash : bytes) (s : sink) (t0 : Z)
  (Hwf : wf c) (Hcl : closed c = true) :
  exists c',
    Request_send name offset size hash s c = Fault NilMapWrite c' /\
    Ping_send t0 s c = Fault NilMapWrite c' /\
    Request name offset size hash s c = Fault NilMapWrite c' /\
    w_held (mu c') = true /\ trace c' = trace c /\ mwriter c' = mwriter c /\
    nextId c' = nextId c.
Proof.
  pose proof (proj1 (wf_closed c Hwf) Hcl) as Haw.
  wf_fields c Hwf. simpl in Hcl, Haw. subst cl aw.
  eexists. split; [|split; [|split]].
  - unfold Request_send, awaiting_assign, make_chan. run. reflexivity.
  - unfold Ping_send, awaiting_assign, make_chan. run. reflexivity.
  - unfold Request, Request_send, awaiting_assign, make_chan. run. reflexivity.
  - simpl. repeat split.
Qed.

Lemma send_on_closed_connection_panics_witness :
  exists c c',
    wf c /\ closed c = true /\
    Request_send "foo.txt" 0 1024 None sink_ok c = Fault NilMapWrite c' /\
    w_held (mu c') = true.
Proof.
  pose proof (wf_after_close _ (initial_wf boot boot_initial)) as Hwf.
  pose proof (after_close_closed (conn boot)) as Hcl.
  destruct (send_on_closed_connection_panics (after_close (conn boot)) "foo.txt" 0 1024 None
              sink_ok 0 Hwf Hcl) as (c' & E & _ & _ & Hmu & _).
  exists (after_close (conn boot)), c'. exact (conj Hwf (conj Hcl (conj E Hmu))).
Defined.

(** ** The pinger on an active connection *)

(** X5.  The pinger pings only an idle connection.  As long as every tick
    comes no later than [pingIdleTime] after the last receive, the loop on
    an open connection with the mutex free starts no [Ping] and closes
    nothing: it reads [lastReceive] under the read lock, sleeps a second
    per tick, and leaves every field of the connection as it was. *)
Theorem pinger_is_quiet_when_active (ticks : list tick) (c : Connection)
  (Hmu : mu c = mu_free) (Hop : closed c = false)
  (Hact : Forall (fun t => time_Since (lastReceive c) (tick_now t) <= pingIdleTime) ticks) :
  pingerLoop ticks c =
  Done tt (set_trace (trace c ++ replicate (length ticks) (Slept Second)) c).
Proof.
  destruct c as [m i r w cl aw n lr pl ls cs tr]; simpl in Hmu, Hop, Hact. subst m cl.
  revert tr. induction Hact as [|t ticks Ht _ IH]; intros tr.
  - simpl. unfold set_trace. simpl. now rewrite app_nil_r.
  - assert (Hlt : (pingIdleTime <? time_Since lr (tick_now t)) = false)
      by (apply Z.ltb_ge; exact Ht).
    simpl. unfold isClosed, pingerLoop_body. run. rewrite Hlt. run.
    specialize (IH (tr ++ [Slept Second])). unfold set_trace in IH. simpl in IH.
    rewrite <- app_assoc in IH. exact IH.
Qed.

Lemma pinger_is_quiet_when_active_witness :
  mu (conn boot) = mu_free /\ closed (conn boot) = false /\
  pingerLoop [ {| tick_now := 1000; tick_select := None |};
               {| tick_now := 2000; tick_select := None |} ] (conn boot)
  = Done tt (set_trace (trace (conn boot) ++ [Slept Second; Slept Second]) (conn boot)).
Proof.
  split; [reflexivity|]. split; [reflexivity|].
  apply (pinger_is_quiet_when_active
           [ {| tick_now := 1000; tick_select := None |};
             {| tick_now := 2000; tick_select := None |} ] (conn boot) eq_refl eq_refl).
  repeat constructor; vm_compute; discriminate.
Defined.

(** ** [close()] while the reader hands a result over *)

(** The connection after the reader has taken a header and a payload off
    the stream and noted the time of the receive. *)
Definition after_read (r1 r2 : io) (now : Z) (c : Connection) : Connection :=
  set_lastReceive now
    (set_mreader {| rtot := rtot (mreader c) + io_n r1 + io_n r2; rerr := None |} c).

Lemma wf_after_read r1 r2 now c : wf c -> wf (after_read r1 r2 now c).
Proof.
  intros Hwf. eapply wf_ext; [exact Hwf|..]; try reflexivity.
  - exact (wf_mu c Hwf).
  - exact (wf_nextId c Hwf).
Qed.

Ltac assoc_hand_over :=
  unfold mu_free;
  lazymatch goal with
  | |- context [chan_send ?a ?b ?c] =>
      destruct (chan_send a b c) as [[] c1|]; [|reflexivity]; cbn;
      destruct (chan_close a c1) as [[] c2|]; [|reflexivity]; cbn;
      destruct c2 as [[wh rh] ? ? ? ? aw2 ? ? ? ? ? ?]; cbn;
      destruct wh; [reflexivity|]; destruct rh; [|reflexivity];
      unfold awaiting_delete; run_cbn; destruct aw2; reflexivity
  end.

(** A turn of the reader that decodes a Response or a Pong whose ID is in
    the table is the send on the entry's channel, the close of the channel
    and the deletion of the entry under the mutex, in this order. *)
Lemma reader_turn_is_hand_over inb c k rc :
  mu c = mu_free -> decodes c inb -> registered c k rc ->
  msgID (in_header inb) = k ->
  (msgType (in_header inb) = messageTypeResponse ->
   readerLoop_body inb c =
   (chan_send rc {| val := in_data inb; err := None |} ;; chan_close rc ;;
    (Lock ;; awaiting_delete k ;; Unlock) ;; mret false)
     (after_read (in_header_io inb) (in_body_io inb) (in_now inb) c)) /\
  (msgType (in_header inb) = messageTypePong ->
   readerLoop_body inb c =
   (chan_send rc asyncResult_zero ;; chan_close rc ;;
    (Lock ;; awaiting_delete k ;; Unlock) ;; mret false)
     (after_read (in_header_io inb) (io_ok 0) (in_now inb) c)).
Proof.
  intros Hmu (Hop & Hre & Hh & Hv & Hb) (m0 & Hm & Hk) Hid.
  destruct c as [m i [rt re] w cl aw n lr pl ls cs tr]; simpl in *. subst m re cl aw.
  destruct inb as [[v hid t] [hn he] now fs q d [bn be] sk]; simpl in *. subst v he hid.
  split; intros ->.
  - rewrite (Hb eq_refl).
    unfold readerLoop_body, awaiting_lookup, readHeader, readResponse, mreader_read, after_read.
    unfold messageTypeResponse, messageTypeIndex, messageTypeRequest,
      messageTypePing, messageTypePong.
    run_cbn. rewrite Hk. run_cbn.
    assoc_hand_over.
  - unfold readerLoop_body, awaiting_lookup, readHeader, readResponse, mreader_read, after_read.
    unfold messageTypeResponse, messageTypeIndex, messageTypeRequest,
      messageTypePing, messageTypePong.
    run_cbn. rewrite Hk. run_cbn. rewrite Z.add_0_r.
    assoc_hand_over.
Qed.

(** Closing the channels of a list of which one is closed already ends in
    the panic of [close] on a closed channel. *)
Lemma for_range_chan_close_twice l : forall c ch,
  (forall ch', ch' ∈ l -> exists st, chans c !! ch' = Some st) ->
  ch ∈ l -> (exists st, chans c !! ch = Some st /\ ch_closed st = true) ->
  exists c', for_range l chan_close c = Fault CloseOfClosed c'.
Proof.
  induction l as [|x l IH]; intros c ch Hall Hin (st & Hst & Hcl).
  - now apply elem_of_nil in Hin.
  - destruct (Hall x) as (stx & Hx); [left|].
    unfold for_range; fold (@for_range nat). unfold mbind, M_bind.
    unfold chan_close at 1. rewrite Hx.
    destruct (ch_closed stx) eqn:Ex; [eauto|].
    assert (Hne : x <> ch) by (intros ->; congruence).
    apply elem_of_cons in Hin as [->|Hin]; [done|].
    apply (IH _ ch); [|done|].
    + intros ch' Hin'. simpl.
      destruct (decide (ch' = x)) as [->|Hne'].
      * rewrite list_lookup_insert_eq by (eapply lookup_lt_Some; eauto). eauto.
      * rewrite list_lookup_insert_ne by done. apply Hall. now right.
    + exists st. simpl. rewrite list_lookup_insert_ne by done. done.
Qed.

Lemma channels_ready_intro c m :
  awaiting c = Some m ->
  (forall k1 k2 ch, m !! k1 = Some ch -> m !! k2 = Some ch -> k1 = k2) ->
  (forall k ch, m !! k = Some ch -> exists st, chans c !! ch = Some st /\ ch_closed st = false) ->
  channels_ready c.
Proof.
  intros Hm Hinj Hopen. unfold channels_ready. rewrite Hm. simpl. split.
  - apply NoDup_fmap_2_strong; [|apply NoDup_map_to_list].
    intros [k1 v1] [k2 v2] H1 H2. simpl. intros <-.
    apply elem_of_map_to_list in H1, H2. f_equal. eapply Hinj; eauto.
  - intros ch Hin. apply list_elem_of_fmap in Hin as ([k v] & -> & Hin).
    apply elem_of_map_to_list in Hin. eapply Hopen; eauto.
Qed.

(** X6.  The reader hands a result over outside the mutex: after the
    look-up it sends on the channel, closes it, and only then takes the
    mutex to delete the entry.  For every entry of the table of a
    well-formed connection: when the three steps run before [close()],
    [close()] completes; when [close()] runs after the reader's
    [close(rc)] and before its [delete], [close()] finds the channel in
    the table and panics on closing it again; and when [close()] runs
    between the look-up and the send, the reader's send panics on the
    closed channel. *)
Theorem close_during_hand_over_panics (c : Connection) (k : Z) (rc : nat) (v : asyncResult)
  (Hwf : wf c) (Hreg : registered c k rc) :
  (exists c', (chan_send rc v ;; chan_close rc ;;
               (Lock ;; awaiting_delete k ;; Unlock) ;; close) c = Done tt c' /\
              closed c' = true /\
              chans c' !! rc = Some {| sent := [v]; taken := 0; ch_closed := true |}) /\
  (exists c', (chan_send rc v ;; chan_close rc ;; close) c = Fault CloseOfClosed c') /\
  (exists c', (close ;; chan_send rc v) c = Fault SendOnClosed c') /\
  (forall inb, decodes c inb -> msgID (in_header inb) = k ->
     msgType (in_header inb) = messageTypeResponse ->
     readerLoop_body inb c =
     (chan_send rc {| val := in_data inb; err := None |} ;; chan_close rc ;;
      (Lock ;; awaiting_delete k ;; Unlock) ;; mret false)
       (after_read (in_header_io inb) (in_body_io inb) (in_now inb) c)).
Proof.
  assert (Hlink : forall inb, decodes c inb -> msgID (in_header inb) = k ->
     msgType (in_header inb) = messageTypeResponse ->
     readerLoop_body inb c =
     (chan_send rc {| val := in_data inb; err := None |} ;; chan_close rc ;;
      (Lock ;; awaiting_delete k ;; Unlock) ;; mret false)
       (after_read (in_header_io inb) (in_body_io inb) (in_now inb) c)).
  { intros inb Hdec Hid Ht.
    now apply (reader_turn_is_hand_over inb c k rc (wf_mu c Hwf) Hdec Hreg Hid). }
  pose proof (wf_fresh c Hwf k rc Hreg) as Hnew.
  pose proof (lookup_lt_Some _ _ _ Hnew) as Hlt.
  pose proof (wf_channels_ready c Hwf) as Hready.
  assert (Hop : closed c = false).
  { destruct (closed c) eqn:E; [|done]. apply (wf_closed c Hwf) in E.
    destruct Hreg as (m & Hm & _). congruence. }
  destruct Hreg as (m0 & Hm & Hk).
  assert (Hinj : forall k1 k2 ch, m0 !! k1 = Some ch -> m0 !! k2 = Some ch -> k1 = k2).
  { intros k1 k2 ch H1 H2. eapply (wf_inj c Hwf); exists m0; eauto. }
  assert (Hfresh : forall k' ch, m0 !! k' = Some ch -> chans c !! ch = Some chan_new).
  { intros k' ch H1. eapply (wf_fresh c Hwf); exists m0; eauto. }
  pose proof (wf_mu c Hwf) as Hmu. clear Hwf.
  split; [|split; [|split; [|exact Hlink]]]; clear Hlink.
  all: destruct c as [m i r w cl aw n lr pl ls cs tr]; simpl in *; subst m cl aw.
  - eexists. split.
    + unfold chan_send, chan_close, awaiting_delete. run. rewrite Hnew. simpl.
      rewrite list_lookup_insert_eq by done. simpl.
      rewrite list_insert_insert_eq.
      rewrite close_spec; [reflexivity|reflexivity|].
      eapply channels_ready_intro; [reflexivity| |].
      * intros k1 k2 ch H1 H2. apply lookup_delete_Some in H1 as [_ H1], H2 as [_ H2].
        eauto.
      * intros k' ch H1. apply lookup_delete_Some in H1 as [Hne H1]. simpl.
        exists chan_new. split; [|done].
        rewrite list_lookup_insert_ne; [eauto|]. intros <-. apply Hne. eauto.
    + unfold after_close. simpl. split; [done|].
      rewrite close_each_lookup, list_lookup_insert_eq by done. simpl.
      now destruct (decide _).
  - unfold chan_send, chan_close, close. run. rewrite Hnew. simpl.
    rewrite list_lookup_insert_eq by done. simpl.
    rewrite list_insert_insert_eq.
    match goal with
    | |- context [for_range ?l chan_close ?c0] =>
        destruct (for_range_chan_close_twice l c0 rc) as [c' E]
    end.
    + intros ch Hin. apply list_elem_of_fmap in Hin as ([k' x] & -> & Hin).
      apply elem_of_map_to_list in Hin. simpl.
      destruct (decide (x = rc)) as [->|Hne].
      * rewrite list_lookup_insert_eq by done. eauto.
      * rewrite list_lookup_insert_ne by done. eauto.
    + apply list_elem_of_fmap. exists (k, rc). split; [done|].
      now apply elem_of_map_to_list.
    + simpl. rewrite list_lookup_insert_eq by done. eauto.
    + rewrite E. eauto.
  - erewrite bind_Done by (apply close_spec; [reflexivity|exact Hready]).
    unfold after_close, chan_send. simpl.
    rewrite close_each_lookup, Hnew. simpl.
    destruct (decide _) as [|Hn]; [simpl; eauto|].
    exfalso. apply Hn. apply list_elem_of_fmap. exists (k, rc). split; [done|].
    now apply elem_of_map_to_list.
Qed.

Lemma close_during_hand_over_panics_witness :
  exists c c',
    wf c /\ registered c 0 0%nat /\
    (chan_send 0%nat asyncResult_zero ;; chan_close 0%nat ;; close) c
    = Fault CloseOfClosed c'.
Proof.
  destruct (Request_send "foo.txt" 0 1024 None sink_ok (conn boot))
    as [r c|f c] eqn:E; [|vm_compute in E; discriminate E].
  assert (Hwf : wf c).
  { eapply so_wf, (Request_send_ok None); [|exact E]. exact (initial_wf boot boot_initial). }
  assert (Hreg : registered c 0 0%nat).
  { vm_compute in E. injection E as _ <-. eexists. split; reflexivity. }
  destruct (close_during_hand_over_panics c 0 0%nat asyncResult_zero Hwf Hreg)
    as (_ & (c' & Hc) & _).
  exists c, c'. exact (conj Hwf (conj Hreg Hc)).
Defined.

(** ** An exchange from the send to the result *)

(** A codec and a sink that take the frame. *)
Definition healthy (c : Connection) (s : sink) : Prop :=
  werr (mwriter c) = None /\ io_err (on_header s) = None /\
  io_err (on_body s) = None /\ on_flush s = None.

(** The connection right after a correlated send that went through: the
    new channel is in the table under the ID [nextId] had. *)
Record sent_on (c c1 : Connection) (m0 : gmap Z nat) (frame : list event) : Prop := {
  sn_mu : mu c1 = mu_free;
  sn_open : closed c1 = false;
  sn_reader : mreader c1 = mreader c;
  sn_table : awaiting c1 = Some (<[nextId c := length (chans c)]> m0);
  sn_chans : chans c1 = chans c ++ [chan_new];
  sn_nextId : nextId c1 = (nextId c + 1) mod 4096;
  sn_trace : trace c1 = trace c ++ frame }.

Lemma Request_send_healthy name offset size hash s c m0 :
  wf c -> closed c = false -> awaiting c = Some m0 -> healthy c s ->
  exists c1,
    Request_send name offset size hash s c = Done (inl (length (chans c))) c1 /\
    sent_on c c1 m0
      [Wrote (WUint32 (encodeHeader {| version := 0; msgID := nextId c;
                                       msgType := messageTypeRequest |}));
       Wrote (WRequest {| name := name; offset := offset; size := size; hash := hash |});
       Flushed None].
Proof.
  intros Hwf Hop Hm (Hw & Hh & Hb & Hf).
  pose proof (nextId_step (nextId c) (wf_nextId c Hwf)) as Hstep.
  wf_fields c Hwf. simpl in *. subst cl aw.
  destruct w as [wt we], s as [[hn he] [bn be] fl]. simpl in *. subst we he be fl.
  eexists. split.
  { unfold Request_send, awaiting_assign, make_chan, writeHeader, writeUint32,
      writeRequest, mwriter_write. run. reflexivity. }
  split; simpl; rewrite <- ?app_assoc; done.
Qed.

Lemma Ping_send_healthy t0 s c m0 :
  wf c -> closed c = false -> awaiting c = Some m0 ->
  werr (mwriter c) = None -> io_err (on_header s) = None -> on_flush s = None ->
  exists c1,
    Ping_send t0 s c = Done (inl (length (chans c))) c1 /\
    sent_on c c1 m0
      [Wrote (WUint32 (encodeHeader {| version := 0; msgID := nextId c;
                                       msgType := messageTypePing |}));
       Flushed None].
Proof.
  intros Hwf Hop Hm Hw Hh Hf.
  pose proof (nextId_step (nextId c) (wf_nextId c Hwf)) as Hstep.
  wf_fields c Hwf. simpl in *. subst cl aw.
  destruct w as [wt we], s as [[hn he] [bn be] fl]. simpl in *. subst we he fl.
  eexists. split.
  { unfold Ping_send, awaiting_assign, make_chan, writeHeader, writeUint32,
      mwriter_write. run. reflexivity. }
  split; simpl; rewrite <- ?app_assoc; done.
Qed.

(** The three steps of the hand-over on a channel as [make] left it. *)
Lemma hand_over_steps c k rc v m :
  mu c = mu_free -> awaiting c = Some m -> chans c !! rc = Some chan_new ->
  (chan_send rc v ;; chan_close rc ;; (Lock ;; awaiting_delete k ;; Unlock) ;; mret false) c
  = Done false
      (set_awaiting (Some (delete k m))
         (set_chans (<[rc := {| sent := [v]; taken := 0; ch_closed := true |}]> (chans c)) c)).
Proof.
  intros Hmu Hm Hnew. pose proof (lookup_lt_Some _ _ _ Hnew) as Hlt.
  destruct c as [mx i r w cl aw n lr pl ls cs tr]; simpl in *. subst mx aw.
  unfold chan_send, chan_close, awaiting_delete. run. rewrite Hnew. simpl.
  rewrite list_lookup_insert_eq by done. simpl.
  now rewrite list_insert_insert_eq.
Qed.

(** A receive on a channel that holds a value not yet taken. *)
Lemma recv_value c rc st v t0 now :
  chans c !! rc = Some st -> sent st !! taken st = Some v ->
  let c' := set_chans (<[rc := {| sent := sent st; taken := S (taken st);
                                  ch_closed := ch_closed st |}]> (chans c)) c in
  Request_recv rc c = Done (val v, err v) c' /\
  Ping_recv t0 now rc c = Done (time_Since t0 now, true) c'.
Proof.
  intros Hst Hv. unfold Request_recv, Ping_recv, chan_recv, mbind, M_bind.
  rewrite Hst, Hv. simpl. done.
Qed.

(** What the reader hands over for a message of kind [t]: the payload of a
    Response, the zero value for a Pong. *)
Definition handed_over (inb : inbound) : asyncResult :=
  if msgType (in_header inb) =? messageTypeResponse
  then {| val := in_data inb; err := None |}
  else asyncResult_zero.

(** After a send that went through, a turn of the reader that decodes a
    Response or a Pong with the ID of the send wakes the caller. *)
Lemma answer_wakes c c1 m0 frame inb t0 now :
  wf c -> wf c1 -> sent_on c c1 m0 frame -> decodes c inb ->
  msgID (in_header inb) = nextId c ->
  msgType (in_header inb) = messageTypeResponse \/
  msgType (in_header inb) = messageTypePong ->
  exists c2 c3,
    readerLoop_body inb c1 = Done false c2 /\
    Request_recv (length (chans c)) c2
    = Done (val (handed_over inb), err (handed_over inb)) c3 /\
    Ping_recv t0 now (length (chans c)) c2 = Done (time_Since t0 now, true) c3 /\
    wf c3 /\ closed c3 = false /\ nextId c3 = (nextId c + 1) mod 4096 /\
    awaiting c3 = Some (delete (nextId c) m0) /\ trace c3 = trace c ++ frame.
Proof.
  intros Hwf Hwf1 [Hmu1 Hop1 Hrd1 Haw1 Hch1 Hn1 Htr1] (Hop & Hre & Hrh & Hv & Hrb) Hid Ht.
  assert (Hreg1 : registered c1 (nextId c) (length (chans c))).
  { exists (<[nextId c := length (chans c)]> m0). split; [done|]. apply lookup_insert_eq. }
  assert (Hdec1 : decodes c1 inb).
  { unfold decodes. rewrite Hop1, Hrd1. done. }
  assert (Hnew : chans c1 !! length (chans c) = Some chan_new)
    by (rewrite Hch1, lookup_app_r, Nat.sub_diag by lia; reflexivity).
  assert (Hlt : (length (chans c) < length (chans c1))%nat)
    by (rewrite Hch1, length_app; simpl; lia).
  destruct (reader_turn_is_hand_over inb c1 _ _ Hmu1 Hdec1 Hreg1 Hid) as [HR HP].
  assert (Hbody : exists r2,
    readerLoop_body inb c1 =
    Done false
      (set_awaiting (Some (delete (nextId c) (<[nextId c := length (chans c)]> m0)))
         (set_chans (<[length (chans c) := {| sent := [handed_over inb]; taken := 0;
                                               ch_closed := true |}]> (chans c1))
            (after_read (in_header_io inb) r2 (in_now inb) c1)))).
  { unfold handed_over. destruct Ht as [Ht|Ht]; rewrite Ht.
    - exists (in_body_io inb). rewrite (HR Ht).
      now apply (hand_over_steps (after_read _ _ _ c1)).
    - exists (io_ok 0). rewrite (HP Ht).
      now apply (hand_over_steps (after_read _ _ _ c1)). }
  destruct Hbody as [r2 Hbody].
  match type of Hbody with _ = Done false ?c2 =>
    destruct (recv_value c2 (length (chans c))
                {| sent := [handed_over inb]; taken := 0; ch_closed := true |}
                (handed_over inb) t0 now) as [HrecvR HrecvP]
  end.
  { simpl. now apply list_lookup_insert_eq. }
  { reflexivity. }
  pose proof (so_wf _ _ _ _ (readerLoop_body_ok None _ _ _ _ Hwf1 Hop1 Hbody)) as Hwf2.
  pose proof (so_wf _ _ _ _ (Request_recv_ok None None _ _ _ _ Hwf2 HrecvR)) as Hwf3.
  eexists _, _. split; [exact Hbody|]. split; [exact HrecvR|]. split; [exact HrecvP|].
  split; [exact Hwf3|]. simpl. rewrite delete_insert_eq.
  split; [exact Hop1|]. split; [exact Hn1|]. split; [reflexivity|exact Htr1].
Qed.

Lemma table_of_open c : wf c -> closed c = false -> exists m0, awaiting c = Some m0.
Proof.
  intros Hwf Hop. destruct (awaiting c) eqn:E; [eauto|].
  apply (wf_closed c Hwf) in E. congruence.
Qed.

(** X7.  A [Request] and its Response.  On an open well-formed connection
    with a healthy codec and sink, [Request] hands the stream the header
    with the ID [nextId] had and the request, flushes, and waits on a new
    channel; a turn of the reader that then decodes a Response with that
    ID wakes the caller, and [Request] returns the bytes of the Response
    with a nil error.  Afterwards the connection is well-formed and open,
    the ID is no longer in the table, [nextId] has moved on by one, and
    the entries under other IDs are where they were. *)
Theorem request_response_round_trip (c : Connection) (name : string) (offset size : Z)
  (hash : bytes) (s : sink) (inb : inbound)
  (Hwf : wf c) (Hs : healthy c s) (Hdec : decodes c inb)
  (Hid : msgID (in_header inb) = nextId c)
  (Ht : msgType (in_header inb) = messageTypeResponse) :
  exists c1 c2 c3,
    Request_send name offset size hash s c = Done (inl (length (chans c))) c1 /\
    readerLoop_body inb c1 = Done false c2 /\
    Request_recv (length (chans c)) c2 = Done (in_data inb, None) c3 /\
    wf c3 /\ closed c3 = false /\
    nextId c3 = (nextId c + 1) mod 4096 /\
    (forall ch, ~ registered c3 (nextId c) ch) /\
    (forall k ch, k <> nextId c -> registered c k ch -> registered c3 k ch) /\
    trace c3 = trace c ++
      [Wrote (WUint32 (encodeHeader {| version := 0; msgID := nextId c;
                                       msgType := messageTypeRequest |}));
       Wrote (WRequest {| name := name; offset := offset; size := size; hash := hash |});
       Flushed None].
Proof.
  pose proof Hdec as (Hop & _).
  destruct (table_of_open c Hwf Hop) as [m0 Hm].
  destruct (Request_send_healthy name offset size hash s c m0 Hwf Hop Hm Hs) as (c1 & E1 & Hs1).
  pose proof (so_wf _ _ _ _ (Request_send_ok None _ _ _ _ _ _ _ _ Hwf E1)) as Hwf1.
  destruct (answer_wakes c c1 m0 _ inb 0 0 Hwf Hwf1 Hs1 Hdec Hid (or_introl Ht))
    as (c2 & c3 & E2 & E3 & _ & Hwf3 & Hop3 & Hn3 & Haw3 & Htr3).
  unfold handed_over in E3. rewrite Ht in E3. simpl in E3.
  exists c1, c2, c3. split; [exact E1|]. split; [exact E2|]. split; [exact E3|].
  split; [exact Hwf3|]. split; [exact Hop3|]. split; [exact Hn3|].
  split; [|split; [|exact Htr3]].
  - intros ch (m & Hm' & Hk). rewrite Haw3 in Hm'. injection Hm' as <-.
    rewrite lookup_delete_eq in Hk. done.
  - intros k ch Hne (m & Hm' & Hk). rewrite Hm in Hm'. injection Hm' as <-.
    exists (delete (nextId c) m0). split; [exact Haw3|].
    rewrite lookup_delete_ne by done. done.
Qed.

Lemma request_response_round_trip_witness :
  exists c1 c2 c3,
    wf (conn boot) /\ healthy (conn boot) sink_ok /\
    Request_send "foo.txt" 0 1024 None sink_ok (conn boot) = Done (inl 0%nat) c1 /\
    readerLoop_body
      {| in_header := {| version := 0; msgID := 0; msgType := messageTypeResponse |};
         in_header_io := io_ok 4; in_now := 7; in_files := [];
         in_request := request_zero; in_data := Some [Byte.x78];
         in_body_io := io_ok 5; in_sink := sink_ok |} c1 = Done false c2 /\
    Request_recv 0%nat c2 = Done (Some [Byte.x78], None) c3.
Proof.
  pose proof (initial_wf boot boot_initial) as Hwf.
  assert (Hs : healthy (conn boot) sink_ok) by (repeat split).
  destruct (request_response_round_trip (conn boot) "foo.txt" 0 1024 None sink_ok
              {| in_header := {| version := 0; msgID := 0; msgType := messageTypeResponse |};
                 in_header_io := io_ok 4; in_now := 7; in_files := [];
                 in_request := request_zero; in_data := Some [Byte.x78];
                 in_body_io := io_ok 5; in_sink := sink_ok |} Hwf Hs)
    as (c1 & c2 & c3 & E1 & E2 & E3 & _); [repeat split|reflexivity|reflexivity|].
  exists c1, c2, c3. exact (conj Hwf (conj Hs (conj E1 (conj E2 E3)))).
Defined.

(** X8.  A [Ping] and its Pong.  Under the same conditions [Ping] hands
    the stream one header, with no payload, and waits; a turn of the reader
    that decodes a Pong with the ID wakes the caller, and [Ping] returns
    the time since the send and ok.  Afterwards the ID is no longer in the
    table and the entries under other IDs are where they were. *)
Theorem ping_pong_round_trip (c : Connection) (t0 now : Z) (s : sink) (inb : inbound)
  (Hwf : wf c) (Hw : werr (mwriter c) = None) (Hh : io_err (on_header s) = None)
  (Hf : on_flush s = None) (Hdec : decodes c inb)
  (Hid : msgID (in_header inb) = nextId c)
  (Ht : msgType (in_header inb) = messageTypePong) :
  exists c1 c2 c3,
    Ping_send t0 s c = Done (inl (length (chans c))) c1 /\
    readerLoop_body inb c1 = Done false c2 /\
    Ping_recv t0 now (length (chans c)) c2 = Done (time_Since t0 now, true) c3 /\
    wf c3 /\ closed c3 = false /\
    nextId c3 = (nextId c + 1) mod 4096 /\
    (forall ch, ~ registered c3 (nextId c) ch) /\
    (forall k ch, k <> nextId c -> registered c k ch -> registered c3 k ch) /\
    trace c3 = trace c ++
      [Wrote (WUint32 (encodeHeader {| version := 0; msgID := nextId c;
                                       msgType := messageTypePing |}));
       Flushed None].
Proof.
  pose proof Hdec as (Hop & _).
  destruct (table_of_open c Hwf Hop) as [m0 Hm].
  destruct (Ping_send_healthy t0 s c m0 Hwf Hop Hm Hw Hh Hf) as (c1 & E1 & Hs1).
  pose proof (so_wf _ _ _ _ (Ping_send_ok None _ _ _ _ _ Hwf E1)) as Hwf1.
  destruct (answer_wakes c c1 m0 _ inb t0 now Hwf Hwf1 Hs1 Hdec Hid (or_intror Ht))
    as (c2 & c3 & E2 & _ & E3 & Hwf3 & Hop3 & Hn3 & Haw3 & Htr3).
  exists c1, c2, c3. split; [exact E1|]. split; [exact E2|]. split; [exact E3|].
  split; [exact Hwf3|]. split; [exact Hop3|]. split; [exact Hn3|].
  split; [|split; [|exact Htr3]].
  - intros ch (m & Hm' & Hk). rewrite Haw3 in Hm'. injection Hm' as <-.
    rewrite lookup_delete_eq in Hk. done.
  - intros k ch Hne (m & Hm' & Hk). rewrite Hm in Hm'. injection Hm' as <-.
    exists (delete (nextId c) m0). split; [exact Haw3|].
    rewrite lookup_delete_ne by done. done.
Qed.

Lemma ping_pong_round_trip_witness :
  exists c1 c2 c3,
    wf (conn boot) /\
    Ping_send 100 sink_ok (conn boot) = Done (inl 0%nat) c1 /\
    readerLoop_body
      {| in_header := {| version := 0; msgID := 0; msgType := messageTypePong |};
         in_header_io := io_ok 4; in_now := 7; in_files := [];
         in_request := request_zero; in_data := None;
         in_body_io := io_ok 0; in_sink := sink_ok |} c1 = Done false c2 /\
    Ping_recv 100 350 0%nat c2 = Done (250, true) c3.
Proof.
  pose proof (initial_wf boot boot_initial) as Hwf.
  destruct (ping_pong_round_trip (conn boot) 100 350 sink_ok
              {| in_header := {| version := 0; msgID := 0; msgType := messageTypePong |};
                 in_header_io := io_ok 4; in_now := 7; in_files := [];
                 in_request := request_zero; in_data := None;
                 in_body_io := io_ok 0; in_sink := sink_ok |} Hwf)
    as (c1 & c2 & c3 & E1 & E2 & E3 & _); try reflexivity.
  { repeat split. }
  exists c1, c2, c3. exact (conj Hwf (conj E1 (conj E2 E3))).
Defined.

(** X9.  The table does not record the kind of an exchange, and the reader
    does not compare kinds.  A Pong that carries the ID of a pending
    [Request] wakes the [Request], which returns a nil byte slice with a
    nil error; a Response that carries the ID of a pending [Ping] wakes
    the [Ping], which returns ok, and the payload of the Response is
    dropped. *)
Theorem answer_of_the_other_kind_wakes (c : Connection) (name : string) (offset size : Z)
  (hash : bytes) (s : sink) (t0 now : Z) (inb : inbound)
  (Hwf : wf c) (Hs : healthy c s) (Hdec : decodes c inb)
  (Hid : msgID (in_header inb) = nextId c) :
  (msgType (in_header inb) = messageTypePong ->
   exists c1 c2 c3,
     Request_send name offset size hash s c = Done (inl (length (chans c))) c1 /\
     readerLoop_body inb c1 = Done false c2 /\
     Request_recv (length (chans c)) c2 = Done (None, None) c3 /\
     awaiting c3 = delete (nextId c) <$> awaiting c) /\
  (msgType (in_header inb) = messageTypeResponse ->
   exists c1 c2 c3,
     Ping_send t0 s c = Done (inl (length (chans c))) c1 /\
     readerLoop_body inb c1 = Done false c2 /\
     Ping_recv t0 now (length (chans c)) c2 = Done (time_Since t0 now, true) c3 /\
     awaiting c3 = delete (nextId c) <$> awaiting c).
Proof.
  pose proof Hdec as (Hop & _). pose proof Hs as (Hw & Hh & _ & Hf).
  destruct (table_of_open c Hwf Hop) as [m0 Hm]. rewrite Hm. simpl.
  split; intros Ht.
  - destruct (Request_send_healthy name offset size hash s c m0 Hwf Hop Hm Hs)
      as (c1 & E1 & Hs1).
    pose proof (so_wf _ _ _ _ (Request_send_ok None _ _ _ _ _ _ _ _ Hwf E1)) as Hwf1.
    destruct (answer_wakes c c1 m0 _ inb 0 0 Hwf Hwf1 Hs1 Hdec Hid (or_intror Ht))
      as (c2 & c3 & E2 & E3 & _ & _ & _ & _ & Haw3 & _).
    unfold handed_over in E3. rewrite Ht in E3. simpl in E3.
    exists c1, c2, c3. done.
  - destruct (Ping_send_healthy t0 s c m0 Hwf Hop Hm Hw Hh Hf) as (c1 & E1 & Hs1).
    pose proof (so_wf _ _ _ _ (Ping_send_ok None _ _ _ _ _ Hwf E1)) as Hwf1.
    destruct (answer_wakes c c1 m0 _ inb t0 now Hwf Hwf1 Hs1 Hdec Hid (or_introl Ht))
      as (c2 & c3 & E2 & _ & E3 & _ & _ & _ & Haw3 & _).
    exists c1, c2, c3. done.
Qed.

Lemma answer_of_the_other_kind_wakes_witness :
  exists c1 c2 c3,
    wf (conn boot) /\ healthy (conn boot) sink_ok /\
    Request_send "foo.txt" 0 1024 None sink_ok (conn boot) = Done (inl 0%nat) c1 /\
    readerLoop_body
      {| in_header := {| version := 0; msgID := 0; msgType := messageTypePong |};
         in_header_io := io_ok 4; in_now := 7; in_files := [];
         in_request := request_zero; in_data := None;
         in_body_io := io_ok 0; in_sink := sink_ok |} c1 = Done false c2 /\
    Request_recv 0%nat c2 = Done (None, None) c3.
Proof.
  pose proof (initial_wf boot boot_initial) as Hwf.
  assert (Hs : healthy (conn boot) sink_ok) by (repeat split).
  destruct (answer_of_the_other_kind_wakes (conn boot) "foo.txt" 0 1024 None sink_ok 0 0
              {| in_header := {| version := 0; msgID := 0; msgType := messageTypePong |};
                 in_header_io := io_ok 4; in_now := 7; in_files := [];
                 in_request := request_zero; in_data := None;
                 in_body_io := io_ok 0; in_sink := sink_ok |} Hwf Hs)
    as [H _]; [repeat split|reflexivity|].
  destruct (H eq_refl) as (c1 & c2 & c3 & E1 & E2 & E3 & _).
  exists c1, c2, c3. exact (conj Hwf (conj Hs (conj E1 (conj E2 E3)))).
Defined.

(** ** The turns of the reader, by kind of message *)

Ltac run_reader :=
  unfold readerLoop_body, processRequest, awaiting_lookup, awaiting_delete,
    readHeader, readIndex, readRequest, readResponse, mreader_read,
    writeUint32, mwriter_write;
  unfold messageTypeResponse, messageTypeIndex, messageTypeRequest,
    messageTypePing, messageTypePong in *;
  run_cbn; run_cbn.

(** X10.  A turn of the reader that decodes a Ping writes, under the
    mutex, one header word of kind Pong with the ID of the Ping and no
    payload, and flushes; it takes no ID from [nextId] and, unless the
    write or the flush fails, leaves the closed flag, the table and the
    channels alone.  When the codec or the sink refuses the word, or the
    flush fails, the connection is closed.  The word decodes to version 0,
    the ID and the kind Pong. *)
Theorem ping_is_answered_with_pong (c : Connection) (inb : inbound)
  (Hwf : wf c) (Hdec : decodes c inb)
  (Ht : msgType (in_header inb) = messageTypePing) :
  let pong := WUint32 (encodeHeader {| version := 0; msgID := msgID (in_header inb);
                                       msgType := messageTypePong |}) in
  exists c',
    readerLoop_body inb c = Done false c' /\
    lastReceive c' = in_now inb /\ nextId c' = nextId c /\
    (werr (mwriter c) = None -> io_err (on_header (in_sink inb)) = None ->
       trace c' = trace c ++ [Wrote pong; Flushed (on_flush (in_sink inb))] ++
                  match on_flush (in_sink inb) with
                  | None => []
                  | Some _ => [ModelClose (ID c)]
                  end /\
       (on_flush (in_sink inb) = None ->
          closed c' = false /\ awaiting c' = awaiting c /\ chans c' = chans c)) /\
    (werr (mwriter c) <> None \/ io_err (on_header (in_sink inb)) <> None ->
       closed c' = true /\ awaiting c' = None /\
       trace c' = trace c ++ [Flushed (on_flush (in_sink inb)); ModelClose (ID c)]) /\
    (0 <= msgID (in_header inb) < 4096 ->
       decodeHeader (encodeHeader {| version := 0; msgID := msgID (in_header inb);
                                     msgType := messageTypePong |})
       = {| version := 0; msgID := msgID (in_header inb); msgType := messageTypePong |}).
Proof.
  destruct Hdec as (Hop & Hre & Hh & Hv & _).
  wf_fields c Hwf.
  destruct r as [rt re], w as [wt we]. simpl in Hop, Hre. subst cl re.
  destruct inb as [[v hid t] [hn he] now fs q d [bn be] [[sn se] sb sf]].
  simpl in *. subst v he t.
  destruct we, se, sf.
  all: eexists.
  all: split; [run_reader; try close_here Hwf; reflexivity|].
  all: simpl.
  all: split; [reflexivity|]. all: split; [reflexivity|].
  all: split; [intros H1 H2;
               first [discriminate
                     | rewrite <- ?app_assoc;
                       split; [reflexivity|intros H3; first [discriminate|done]]]|].
  all: split; [intros [H|H];
               first [exfalso; now apply H | rewrite <- ?app_assoc; done]
              | intros; apply decode_encode_header; [done|unfold messageTypePong; lia]].
Qed.

Lemma ping_is_answered_with_pong_witness :
  exists c',
    wf (conn boot) /\
    readerLoop_body
      {| in_header := {| version := 0; msgID := 9; msgType := messageTypePing |};
         in_header_io := io_ok 4; in_now := 7; in_files := [];
         in_request := request_zero; in_data := None;
         in_body_io := io_ok 0; in_sink := sink_ok |} (conn boot) = Done false c' /\
    trace c' = trace (conn boot) ++ [Wrote (WUint32 591104); Flushed None] /\
    decodeHeader 591104 = {| version := 0; msgID := 9; msgType := messageTypePong |}.
Proof.
  pose proof (initial_wf boot boot_initial) as Hwf.
  destruct (ping_is_answered_with_pong (conn boot)
              {| in_header := {| version := 0; msgID := 9; msgType := messageTypePing |};
                 in_header_io := io_ok 4; in_now := 7; in_files := [];
                 in_request := request_zero; in_data := None;
                 in_body_io := io_ok 0; in_sink := sink_ok |} Hwf)
    as (c' & E & _ & _ & Htr & _ & Hd); [repeat split|reflexivity|].
  exists c'. split; [exact Hwf|]. split; [exact E|]. split.
  - destruct (Htr eq_refl eq_refl) as [-> _]. reflexivity.
  - apply Hd. simpl. lia.
Defined.

(** X11.  Protocol errors.  A header with a version other than 0 is
    logged, the connection is closed and the loop is left at once, before
    the time of the receive is noted.  A header of version 0 whose kind is
    none of Index, Request, Response, Ping and Pong (the reserved kind 0
    included) is logged after the time is noted, and the connection is
    closed; the turn does not leave the loop itself, the loop's next test
    of the closed flag does, whatever is left on the stream. *)
Theorem unknown_messages_close (c : Connection) (inb : inbound)
  (Hwf : wf c) (Hop : closed c = false) (Hre : rerr (mreader c) = None)
  (Hh : io_err (in_header_io inb) = None) :
  (version (in_header inb) <> 0 ->
   exists c', readerLoop_body inb c = Done true c' /\
     closed c' = true /\ awaiting c' = None /\ lastReceive c' = lastReceive c /\
     rtot (mreader c') = rtot (mreader c) + io_n (in_header_io inb) /\
     trace c' = trace c ++ [LogUnknownVersion (ID c) (version (in_header inb));
                            ModelClose (ID c)]) /\
  (version (in_header inb) = 0 ->
   msgType (in_header inb) < messageTypeIndex \/ messageTypePong < msgType (in_header inb) ->
   exists c', readerLoop_body inb c = Done false c' /\
     closed c' = true /\ awaiting c' = None /\ lastReceive c' = in_now inb /\
     rtot (mreader c') = rtot (mreader c) + io_n (in_header_io inb) /\
     trace c' = trace c ++ [LogUnknownType (ID c) (msgType (in_header inb));
                            ModelClose (ID c)] /\
     forall rest, readerLoop rest c' = Done tt c').
Proof.
  wf_fields c Hwf.
  destruct r as [rt re]. simpl in Hop, Hre. subst cl re.
  destruct inb as [[v hid t] [hn he] now fs q d [bn be] sk].
  simpl in *. subst he. split.
  - intros Hv. apply Z.eqb_neq in Hv. eexists. split.
    { run_reader. rewrite Hv. run_cbn. close_here Hwf. reflexivity. }
    simpl. rewrite <- ?app_assoc. repeat split.
  - intros -> Ht.
    assert (H1 : (t =? 1) = false) by (apply Z.eqb_neq; unfold messageTypeIndex, messageTypePong in Ht; lia).
    assert (H2 : (t =? 2) = false) by (apply Z.eqb_neq; unfold messageTypeIndex, messageTypePong in Ht; lia).
    assert (H3 : (t =? 3) = false) by (apply Z.eqb_neq; unfold messageTypeIndex, messageTypePong in Ht; lia).
    assert (H4 : (t =? 4) = false) by (apply Z.eqb_neq; unfold messageTypeIndex, messageTypePong in Ht; lia).
    assert (H5 : (t =? 5) = false) by (apply Z.eqb_neq; unfold messageTypeIndex, messageTypePong in Ht; lia).
    eexists. split.
    { run_reader. rewrite H1, H2, H3, H4, H5. run_cbn. close_here Hwf. reflexivity. }
    simpl. rewrite <- ?app_assoc. repeat split.
    intros [|x rest]; [reflexivity|]. simpl. unfold isClosed. run_cbn. reflexivity.
Qed.

Lemma unknown_messages_close_witness :
  exists c',
    wf (conn boot) /\
    readerLoop_body
      {| in_header := {| version := 0; msgID := 9; msgType := 77 |};
         in_header_io := io_ok 4; in_now := 7; in_files := [];
         in_request := request_zero; in_data := None;
         in_body_io := io_ok 0; in_sink := sink_ok |} (conn boot) = Done false c' /\
    closed c' = true /\
    trace c' = trace (conn boot) ++ [LogUnknownType "peer" 77; ModelClose "peer"].
Proof.
  pose proof (initial_wf boot boot_initial) as Hwf.
  destruct (unknown_messages_close (conn boot)
              {| in_header := {| version := 0; msgID := 9; msgType := 77 |};
                 in_header_io := io_ok 4; in_now := 7; in_files := [];
                 in_request := request_zero; in_data := None;
                 in_body_io := io_ok 0; in_sink := sink_ok |} Hwf eq_refl eq_refl eq_refl)
    as [_ H].
  destruct (H eq_refl) as (c' & E & Hcl & _ & _ & _ & Htr & _).
  { right. reflexivity. }
  exists c'. exact (conj Hwf (conj E (conj Hcl Htr))).
Defined.

(** X12.  Read failures.  When the header cannot be read (the codec's
    error is set already, or the stream fails) the connection is closed
    and the loop is left.  When the payload of an Index, a Request or a
    Response cannot be read, the connection is closed as well.  In both
    cases the receiver gets no call but the close notification, no
    goroutine is started, and no channel gets a value: every channel of
    the table is closed with what it held. *)
Theorem read_failure_closes (c : Connection) (inb : inbound)
  (Hwf : wf c) (Hop : closed c = false) :
  (rerr (mreader c) <> None \/ io_err (in_header_io inb) <> None ->
   exists c', readerLoop_body inb c = Done true c' /\
     closed c' = true /\ awaiting c' = None /\ lastReceive c' = lastReceive c /\
     trace c' = trace c ++ [ModelClose (ID c)] /\
     chans c' = close_each (map_values (awaiting c)) (chans c)) /\
  (rerr (mreader c) = None -> io_err (in_header_io inb) = None ->
   version (in_header inb) = 0 -> io_err (in_body_io inb) <> None ->
   msgType (in_header inb) = messageTypeIndex \/
   msgType (in_header inb) = messageTypeRequest \/
   msgType (in_header inb) = messageTypeResponse ->
   exists c', readerLoop_body inb c = Done false c' /\
     closed c' = true /\ awaiting c' = None /\ lastReceive c' = in_now inb /\
     trace c' = trace c ++ [ModelClose (ID c)] /\
     chans c' = close_each (map_values (awaiting c)) (chans c)).
Proof.
  wf_fields c Hwf.
  destruct r as [rt re]. simpl in Hop. subst cl.
  destruct inb as [[v hid t] [hn he] now fs q d [bn be] sk].
  simpl in *. split.
  - intros Hf. destruct re, he; try (exfalso; destruct Hf as [H|H]; now apply H).
    all: eexists.
    all: split; [run_reader; close_here Hwf; reflexivity|].
    all: simpl; repeat split.
  - intros -> -> -> Hb Ht. destruct be; [|done].
    destruct Ht as [-> | [-> | ->]].
    all: eexists.
    all: split; [run_reader; repeat close_here Hwf; reflexivity|].
    all: simpl; repeat split.
Qed.

Lemma read_failure_closes_witness :
  exists c',
    wf (conn boot) /\
    readerLoop_body
      {| in_header := header_zero; in_header_io := io_fail (ErrIO "EOF"); in_now := 7;
         in_files := []; in_request := request_zero; in_data := None;
         in_body_io := io_ok 0; in_sink := sink_ok |} (conn boot) = Done true c' /\
    closed c' = true /\ trace c' = trace (conn boot) ++ [ModelClose "peer"].
Proof.
  pose proof (initial_wf boot boot_initial) as Hwf.
  destruct (read_failure_closes (conn boot)
              {| in_header := header_zero; in_header_io := io_fail (ErrIO "EOF"); in_now := 7;
                 in_files := []; in_request := request_zero; in_data := None;
                 in_body_io := io_ok 0; in_sink := sink_ok |} Hwf eq_refl) as [H _].
  destruct H as (c' & E & Hcl & _ & _ & Htr & _).
  { right. discriminate. }
  exists c'. exact (conj Hwf (conj E (conj Hcl Htr))).
Defined.

(** X13.  A turn of the reader that decodes an Index passes the files to
    the receiver together with the node ID; apart from this call, the
    bytes counted by the codec and the time of the receive, the connection
    is as it was. *)
Theorem inbound_index_reaches_receiver (c : Connection) (inb : inbound)
  (Hmu : mu c = mu_free) (Hdec : decodes c inb)
  (Ht : msgType (in_header inb) = messageTypeIndex)
  (Hb : io_err (in_body_io inb) = None) :
  readerLoop_body inb c =
  Done false
    (set_trace (trace c ++ [ModelIndex (ID c) (in_files inb)])
       (after_read (in_header_io inb) (in_body_io inb) (in_now inb) c)).
Proof.
  destruct Hdec as (Hop & Hre & Hh & Hv & _).
  destruct c as [m i [rt re] w cl aw n lr pl ls cs tr]. simpl in *. subst m cl re.
  destruct inb as [[v hid t] [hn he] now fs q d [bn be] sk].
  simpl in *. subst v he t be.
  unfold after_read. run_reader. reflexivity.
Qed.

Lemma inbound_index_reaches_receiver_witness :
  mu (conn boot) = mu_free /\
  readerLoop_body
    {| in_header := {| version := 0; msgID := 3; msgType := messageTypeIndex |};
       in_header_io := io_ok 4; in_now := 7; in_files := [];
       in_request := request_zero; in_data := None;
       in_body_io := io_ok 996; in_sink := sink_ok |} (conn boot)
  = Done false
      (set_trace (trace (conn boot) ++ [ModelIndex "peer" []])
         (after_read (io_ok 4) (io_ok 996) 7 (conn boot))).
Proof.
  split; [reflexivity|].
  apply (inbound_index_reaches_receiver (conn boot)
           {| in_header := {| version := 0; msgID := 3; msgType := messageTypeIndex |};
              in_header_io := io_ok 4; in_now := 7; in_files := [];
              in_request := request_zero; in_data := None;
              in_body_io := io_ok 996; in_sink := sink_ok |}); try reflexivity.
  repeat split.
Defined.

(** ** The loops *)

Lemma readerLoop_body_total inb c :
  wf c -> closed c = false -> exists b c', readerLoop_body inb c = Done b c'.
Proof.
  intros Hwf Hop. wf_fields c Hwf. simpl in Hop. subst cl.
  unfold readerLoop_body, processRequest, awaiting_lookup, awaiting_delete,
    chan_send, chan_close, readHeader, readIndex, readRequest, readResponse,
    mreader_read, writeUint32, mwriter_write. run.
  repeat go_reader Hwf; eexists _, _; reflexivity.
Qed.

Lemma pingerLoop_body_total t c :
  wf c -> exists c', pingerLoop_body t c = Done tt c'.
Proof.
  intros Hwf. wf_fields c Hwf.
  unfold pingerLoop_body. run.
  destruct cl; repeat go Hwf; eexists; reflexivity.
Qed.

(** X14.  The reader loop as a whole.  Started on any well-formed
    connection and left to itself, [readerLoop] gets through any input
    without a panic, finding the mutex free each time it asks for it, and
    leaves the connection well-formed.  It takes no ID from [nextId]; it tells the receiver of
    the close at most once, and only if it closed the connection itself;
    and on a connection that is closed already it reads nothing and
    changes nothing. *)
Theorem readerLoop_runs_to_the_end (input : list inbound) (c : Connection) (Hwf : wf c) :
  exists c',
    readerLoop input c = Done tt c' /\ wf c' /\ ID c' = ID c /\ nextId c' = nextId c /\
    (closed c = true -> c' = c) /\
    notified c' = notified c ++ (if closed c then [] else if closed c' then [ID c] else []).
Proof.
  revert c Hwf. induction input as [|inb rest IH]; intros c Hwf.
  - exists c. simpl. split; [done|]. split; [done|]. split; [done|]. split; [done|].
    split; [done|]. destruct (closed c); simpl; now rewrite app_nil_r.
  - simpl. erewrite bind_Done by (apply isClosed_spec, (wf_mu c Hwf)).
    destruct (closed c) eqn:Hop.
    { exists c. rewrite app_nil_r. done. }
    destruct (readerLoop_body_total inb c Hwf Hop) as (b & c1 & E).
    pose proof (readerLoop_body_ok None inb c b c1 Hwf Hop E) as [A1 A2 A3 A4 A5 A6 A7].
    assert (Hn1 : nextId c1 = nextId c).
    { apply (reader_turn_nextId inb c c1 Hwf). unfold reader_turn.
      erewrite bind_Done by (apply isClosed_spec, (wf_mu c Hwf)).
      rewrite Hop. now erewrite bind_Done by exact E. }
    rewrite Hop in A4. erewrite bind_Done by exact E.
    destruct b.
    { exists c1. split; [done|]. split; [done|]. split; [done|]. split; [done|].
      split; done. }
    destruct (IH c1 A1) as (c' & E' & B1 & B2 & B3 & B4 & B5).
    exists c'. split; [exact E'|]. split; [exact B1|].
    split; [congruence|]. split; [congruence|]. split; [done|].
    rewrite B5, A4. destruct (closed c1) eqn:Ec1.
    + rewrite (B4 eq_refl), Ec1, app_nil_r. done.
    + rewrite app_nil_r, A2. done.
Qed.

Lemma readerLoop_runs_to_the_end_witness :
  exists c',
    wf (conn boot) /\
    readerLoop
      [ {| in_header := {| version := 0; msgID := 3; msgType := messageTypeIndex |};
           in_header_io := io_ok 4; in_now := 7; in_files := [];
           in_request := request_zero; in_data := None;
           in_body_io := io_ok 996; in_sink := sink_ok |};
        {| in_header := header_zero; in_header_io := io_fail (ErrIO "EOF"); in_now := 8;
           in_files := []; in_request := request_zero; in_data := None;
           in_body_io := io_ok 0; in_sink := sink_ok |} ] (conn boot) = Done tt c' /\
    wf c' /\ nextId c' = 0.
Proof.
  pose proof (initial_wf boot boot_initial) as Hwf.
  destruct (readerLoop_runs_to_the_end
      [ {| in_header := {| version := 0; msgID := 3; msgType := messageTypeIndex |};
           in_header_io := io_ok 4; in_now := 7; in_files := [];
           in_request := request_zero; in_data := None;
           in_body_io := io_ok 996; in_sink := sink_ok |};
        {| in_header := header_zero; in_header_io := io_fail (ErrIO "EOF"); in_now := 8;
           in_files := []; in_request := request_zero; in_data := None;
           in_body_io := io_ok 0; in_sink := sink_ok |} ] (conn boot) Hwf)
    as (c' & E & Hwf' & _ & Hn & _).
  exists c'. exact (conj Hwf (conj E (conj Hwf' Hn))).
Defined.

(** X15.  The pinger loop as a whole, for any clock and any outcome of
    its waits: it ends without a panic on a well-formed connection, takes
    no ID itself, tells the receiver of the close at most once, and does
    nothing on a connection that is closed already. *)
Theorem pingerLoop_runs_to_the_end (ticks : list tick) (c : Connection) (Hwf : wf c) :
  exists c',
    pingerLoop ticks c = Done tt c' /\ wf c' /\ ID c' = ID c /\ nextId c' = nextId c /\
    (closed c = true -> c' = c) /\
    notified c' = notified c ++ (if closed c then [] else if closed c' then [ID c] else []).
Proof.
  revert c Hwf. induction ticks as [|t rest IH]; intros c Hwf.
  - exists c. simpl. split; [done|]. split; [done|]. split; [done|]. split; [done|].
    split; [done|]. destruct (closed c); simpl; now rewrite app_nil_r.
  - simpl. erewrite bind_Done by (apply isClosed_spec, (wf_mu c Hwf)).
    destruct (closed c) eqn:Hop.
    { exists c. rewrite app_nil_r. done. }
    destruct (pingerLoop_body_total t c Hwf) as (c1 & E).
    pose proof (pingerLoop_body_ok None None t c c1 Hwf E) as [A1 A2 A3 A4 A5 A6 A7].
    assert (Hn1 : nextId c1 = nextId c).
    { apply (pinger_turn_nextId t c c1 Hwf). unfold pinger_turn.
      erewrite bind_Done by (apply isClosed_spec, (wf_mu c Hwf)).
      now rewrite Hop. }
    rewrite Hop in A4. erewrite bind_Done by exact E.
    destruct (IH c1 A1) as (c' & E' & B1 & B2 & B3 & B4 & B5).
    exists c'. split; [exact E'|]. split; [exact B1|].
    split; [congruence|]. split; [congruence|]. split; [done|].
    rewrite B5, A4. destruct (closed c1) eqn:Ec1.
    + rewrite (B4 eq_refl), Ec1, app_nil_r. done.
    + rewrite app_nil_r, A2. done.
Qed.

Lemma pingerLoop_runs_to_the_end_witness :
  exists c',
    wf (conn boot) /\
    pingerLoop [ {| tick_now := 1000; tick_select := None |};
                 {| tick_now := 301000000000; tick_select := None |};
                 {| tick_now := 302000000000; tick_select := Some 5 |} ] (conn boot)
    = Done tt c' /\
    closed c' = true /\ notified c' = ["peer"%string].
Proof.
  pose proof (initial_wf boot boot_initial) as Hwf.
  destruct (pingerLoop_runs_to_the_end
              [ {| tick_now := 1000; tick_select := None |};
                {| tick_now := 301000000000; tick_select := None |};
                {| tick_now := 302000000000; tick_select := Some 5 |} ] (conn boot) Hwf)
    as (c' & E & _ & _ & _ & _ & Hnot).
  assert (Hcl : closed c' = true).
  { assert (E2 : exists c2, pingerLoop
              [ {| tick_now := 1000; tick_select := None |};
                {| tick_now := 301000000000; tick_select := None |};
                {| tick_now := 302000000000; tick_select := Some 5 |} ] (conn boot)
              = Done tt c2 /\ closed c2 = true)
      by (vm_compute; eexists; split; reflexivity).
    destruct E2 as (c2 & E2 & Hc2). rewrite E in E2. now injection E2 as ->. }
  exists c'. split; [exact Hwf|]. split; [exact E|]. split; [exact Hcl|].
  rewrite Hnot, Hcl. reflexivity.
Defined.

(** ** Statistics, called again *)

(** X16.  What a call of [Statistics] returns is the baseline of the next
    call.  With no traffic in between, the second call reports the same
    totals; its rates are both zero when the seconds between the two
    calls are a finite float other than zero; and when the clock has not
    moved at all the quotient is 0/0, and both rates are whatever the
    platform makes of the conversion of a NaN. *)
Theorem statistics_twice (c : Connection) (arch : spec_float -> Z) (t1 t2 t3 t4 : Z)
  (Hmu : mu c = mu_free) :
  exists st1 st2,
    Connection_Statistics arch t1 t2 c = Done st1 (set_lastStatistics st1 c) /\
    Connection_Statistics arch t3 t4 (set_lastStatistics st1 c)
    = Done st2 (set_lastStatistics st2 c) /\
    At st2 = t4 /\ InBytesTotal st2 = InBytesTotal st1 /\
    OutBytesTotal st2 = OutBytesTotal st1 /\ Latency st2 = Latency st1 /\
    (forall sg m e, Duration_Seconds (time_Since t2 t3) = S754_finite sg m e ->
       InBytesPerSec st2 = 0 /\ OutBytesPerSec st2 = 0) /\
    (time_Since t2 t3 = 0 ->
       InBytesPerSec st2 = arch S754_nan /\ OutBytesPerSec st2 = arch S754_nan).
Proof.
  destruct c as [m i r w cl aw n lr pl ls cs tr]; simpl in Hmu; subst m.
  eexists _, _. split; [unfold Connection_Statistics; run; reflexivity|].
  split; [unfold Connection_Statistics; run; reflexivity|].
  simpl. rewrite !Z.sub_diag.
  change (float64_of_int (wrap64 0)) with (S754_zero false).
  do 4 (split; [reflexivity|]). split.
  - intros sg m e Hsecs. rewrite Hsecs. split; reflexivity.
  - intros Hzero. rewrite Hzero. split; reflexivity.
Qed.

Lemma statistics_twice_witness :
  exists st1 st2,
    mu (conn boot) = mu_free /\
    Connection_Statistics arch_amd64 5 5 (conn boot) = Done st1 (set_lastStatistics st1 (conn boot)) /\
    Connection_Statistics arch_amd64 2000000005 2000000005 (set_lastStatistics st1 (conn boot))
    = Done st2 (set_lastStatistics st2 (conn boot)) /\
    InBytesPerSec st2 = 0 /\ OutBytesPerSec st2 = 0.
Proof.
  destruct (statistics_twice (conn boot) arch_amd64 5 5 2000000005 2000000005 eq_refl)
    as (st1 & st2 & E1 & E2 & _ & _ & _ & _ & H & _).
  exists st1, st2. split; [reflexivity|]. split; [exact E1|]. split; [exact E2|].
  eapply H. vm_compute. reflexivity.
Defined.

(** ** Panics *)

(** The channel a waking caller receives on. *)
Definition waits_on (a : action) : option nat :=
  match a with
  | WakeRequest rc | WakePing _ _ rc => Some rc
  | _ => None
  end.

Lemma Index_total idx s c : wf c -> exists c', Index idx s c = Done tt c'.
Proof.
  intros Hwf. wf_fields c Hwf.
  unfold Index, writeHeader, writeUint32, writeIndex, mwriter_write. run.
  destruct cl; repeat go Hwf; eexists; reflexivity.
Qed.

Lemma processRequest_go_total msgID req answer s c :
  wf c -> exists c', processRequest_go msgID req answer s c = Done tt c'.
Proof.
  intros Hwf. wf_fields c Hwf.
  unfold processRequest_go, writeUint32, writeResponse, mwriter_write. run.
  destruct cl; repeat go Hwf; eexists; reflexivity.
Qed.

Lemma Statistics_total arch t1 t2 c :
  mu c = mu_free -> exists st, Connection_Statistics arch t1 t2 c = Done st (set_lastStatistics st c).
Proof.
  intros Hmu. destruct c as [m i r w cl aw n lr pl ls cs tr]; simpl in Hmu; subst m.
  eexists. unfold Connection_Statistics. run. reflexivity.
Qed.

Lemma send_faults name offset size hash s t0 c f c' :
  wf c ->
  Request_send name offset size hash s c = Fault f c' \/ Ping_send t0 s c = Fault f c' ->
  f = NilMapWrite /\ closed c = true.
Proof.
  intros Hwf E.
  destruct (closed c) eqn:Hop.
  - pose proof (proj1 (wf_closed c Hwf) Hop) as Haw.
    wf_fields c Hwf. simpl in *. subst cl aw.
    destruct E as [E|E]; revert E;
      [unfold Request_send|unfold Ping_send]; unfold awaiting_assign, make_chan; run;
      intros [= <- _]; done.
  - exfalso.
    assert (exists m0, awaiting c = Some m0) as [m0 Hm].
    { destruct (awaiting c) eqn:E'; [eauto|]. apply (wf_closed c Hwf) in E'. congruence. }
    wf_fields c Hwf. simpl in *. subst cl aw.
    destruct E as [E|E]; revert E.
    + unfold Request_send, awaiting_assign, make_chan, writeHeader, writeUint32,
        writeRequest, mwriter_write. run.
      repeat go Hwf; intros E; discriminate E.
    + unfold Ping_send, awaiting_assign, make_chan, writeHeader, writeUint32,
        mwriter_write. run.
      repeat go Hwf; intros E; discriminate E.
Qed.

Lemma recv_faults rc t0 now c f c' :
  Request_recv rc c = Fault f c' \/ Ping_recv t0 now rc c = Fault f c' ->
  f = WouldBlock \/ (f = NoSuchChan /\ (length (chans c) <= rc)%nat).
Proof.
  unfold Request_recv, Ping_recv, chan_recv, mbind, M_bind.
  destruct (chans c !! rc) as [st|] eqn:Est.
  - destruct (sent st !! taken st); simpl.
    + intros [E|E]; discriminate E.
    + destruct (ch_closed st); simpl; intros [E|E]; try discriminate E;
        injection E as <- _; now left.
  - apply lookup_ge_None in Est. intros [E|E]; injection E as <- _; right; done.
Qed.

Lemma exec_panics (a : action) (σ : system) (f : fault)
  (Hwf : wf (conn σ)) (E : exec a σ = inl f) :
  (f = NilMapWrite /\ closed (conn σ) = true /\
   overwrites a (conn σ) = Some (nextId (conn σ))) \/
  (f = NoSuchChan /\ exists rc, waits_on a = Some rc /\ (length (chans (conn σ)) <= rc)%nat).
Proof.
  pose proof (wf_mu _ Hwf) as Hmu. pose proof (wf_channels_ready _ Hwf) as Hready.
  destruct a as [idx s | nm off sz hs s | rc | t0 s | t0 now rc | | arch t1 t2 | i
                 | mid req answer s | t | | | ];
    simpl in E; unfold mbind, M_bind, mret, M_ret in E.
  - destruct (Index_total idx s _ Hwf) as [c' E']. rewrite E' in E. discriminate E.
  - destruct (Request_send nm off sz hs s (conn σ)) as [r c'|f' c'] eqn:E';
      [discriminate E|].
    destruct (send_faults _ _ _ _ _ 0 _ _ _ Hwf (or_introl E')) as [-> Hcl].
    injection E as <-. left. done.
  - destruct (Request_recv rc (conn σ)) as [r c'|f' c'] eqn:E'; [discriminate E|].
    destruct (recv_faults _ 0 0 _ _ _ (or_introl E')) as [->|[-> Hge]]; [discriminate E|].
    injection E as <-. right. eauto.
  - destruct (Ping_send t0 s (conn σ)) as [r c'|f' c'] eqn:E'; [discriminate E|].
    destruct (send_faults "" 0 0 None _ _ _ _ _ Hwf (or_intror E')) as [-> Hcl].
    injection E as <-. left. done.
  - destruct (Ping_recv t0 now rc (conn σ)) as [r c'|f' c'] eqn:E'; [discriminate E|].
    destruct (recv_faults _ _ _ _ _ _ (or_intror E')) as [->|[-> Hge]]; [discriminate E|].
    injection E as <-. right. eauto.
  - discriminate E.
  - destruct (Statistics_total arch t1 t2 (conn σ) Hmu) as [st E'].
    rewrite E' in E. discriminate E.
  - unfold reader_turn in E. unfold mbind, M_bind, mret, M_ret in E.
    rewrite (isClosed_spec _ Hmu) in E.
    destruct (closed (conn σ)) eqn:Hop; [discriminate E|].
    destruct (readerLoop_body_total i _ Hwf Hop) as (b & c' & E'). rewrite E' in E.
    discriminate E.
  - destruct (processRequest_go_total mid req answer s _ Hwf) as [c' E'].
    rewrite E' in E. discriminate E.
  - unfold pinger_turn in E. unfold mbind, M_bind, mret, M_ret in E.
    rewrite (isClosed_spec _ Hmu) in E.
    destruct (closed (conn σ)) eqn:Hop; [discriminate E|].
    destruct (pingerLoop_body_total t _ Hwf) as (c' & E'). rewrite E' in E.
    discriminate E.
  - rewrite (close_spec _ Hmu Hready) in E. discriminate E.
  - rewrite (close_locked_spec _ Hmu Hready) in E. discriminate E.
  - destruct (owed σ); [discriminate E|]. rewrite ?close_notify_spec in E. discriminate E.
Qed.

Lemma run_panics acts : forall σ f,
  wf (conn σ) -> run acts σ = inl f ->
  exists pre a rest σ',
    acts = pre ++ a :: rest /\ run pre σ = inr σ' /\ wf (conn σ') /\ exec a σ' = inl f.
Proof.
  induction acts as [|a rest IH]; intros σ f Hwf E; simpl in E; [discriminate E|].
  destruct (exec a σ) as [f'|σ1] eqn:Ea.
  - injection E as ->. exists [], a, rest, σ. done.
  - destruct (IH σ1 f (exec_wf _ _ _ Hwf Ea) E) as (pre & a' & rest' & σ' & -> & Hr & Hwf' & Ha).
    exists (a :: pre), a', rest', σ'. simpl. rewrite Ea. done.
Qed.

(** X17.  Panics.  Take any sequence of uninterrupted runs of the
    goroutines on a new connection (a call of a method up to the point
    where it waits or returns, a wake-up, a turn of the reader or of the
    pinger, an answer to a request, [close()] whole or in its two
    stretches).  It never ends in an access to a guarded field without
    the mutex, in an unlock of a free mutex, or in a send on or a close of
    a closed channel.  When it panics, it does so in a [Request] or a
    [Ping] on a connection that an earlier run has closed, on the
    assignment to the nil table; the only other way for it to stop is a
    wake-up on a channel that was never made.  (The hand-over of the
    reader counts as one run here; X6 is about a [close()] that falls in
    the middle of it.) *)
Theorem runs_panic_on_closed_send_only (acts : list action) (σ0 : system) (f : fault)
  (Hinit : initial σ0) (Hrun : run acts σ0 = inl f) :
  exists pre a rest σ,
    acts = pre ++ a :: rest /\ run pre σ0 = inr σ /\ exec a σ = inl f /\
    ((f = NilMapWrite /\ closed (conn σ) = true /\
      overwrites a (conn σ) = Some (nextId (conn σ))) \/
     (f = NoSuchChan /\
      exists rc, waits_on a = Some rc /\ (length (chans (conn σ)) <= rc)%nat)).
Proof.
  destruct (run_panics acts σ0 f (initial_wf σ0 Hinit) Hrun)
    as (pre & a & rest & σ & Hacts & Hpre & Hwf & Ha).
  exists pre, a, rest, σ. split; [exact Hacts|]. split; [exact Hpre|].
  split; [exact Ha|]. exact (exec_panics a σ f Hwf Ha).
Qed.

Lemma runs_panic_on_closed_send_only_witness :
  exists pre a rest σ,
    initial boot /\
    run [CallIndex [] broken_sink; CallRequest "foo.txt" 0 1024 None sink_ok] boot
    = inl NilMapWrite /\
    [CallIndex [] broken_sink; CallRequest "foo.txt" 0 1024 None sink_ok]
    = pre ++ a :: rest /\
    run pre boot = inr σ /\ exec a σ = inl NilMapWrite.
Proof.
  assert (Hrun : run [CallIndex [] broken_sink; CallRequest "foo.txt" 0 1024 None sink_ok] boot
                 = inl NilMapWrite) by (vm_compute; reflexivity).
  destruct (runs_panic_on_closed_send_only _ boot NilMapWrite boot_initial Hrun)
    as (pre & a & rest & σ & H1 & H2 & H3 & _).
  exists pre, a, rest, σ. exact (conj boot_initial (conj Hrun (conj H1 (conj H2 H3)))).
Defined.

(** ** What [close()] leaves alone *)

(** X18.  [close()] touches the closed flag, the table, the channels of
    the table and the receiver, and nothing else.  On every well-formed
    connection it returns; it hands nothing to the stream and does not
    flush; the codecs with their counters and errors, [nextId], the time
    of the last receive, the latency and the statistics baseline are as
    before; no channel is made or dropped, and every channel holds the
    values it held, taken or not. *)
Theorem close_leaves_the_rest (c : Connection) (Hwf : wf c) :
  exists c',
    close c = Done tt c' /\ wf c' /\
    mreader c' = mreader c /\ mwriter c' = mwriter c /\ nextId c' = nextId c /\
    lastReceive c' = lastReceive c /\ peerLatency c' = peerLatency c /\
    lastStatistics c' = lastStatistics c /\
    length (chans c') = length (chans c) /\
    (forall ch st, chans c !! ch = Some st ->
       exists st', chans c' !! ch = Some st' /\ sent st' = sent st /\ taken st' = taken st) /\
    trace c' = trace c ++ (if closed c then [] else [ModelClose (ID c)]).
Proof.
  exists (after_close c).
  split; [apply close_spec; [exact (wf_mu c Hwf)|exact (wf_channels_ready c Hwf)]|].
  split; [exact (wf_after_close c Hwf)|].
  unfold after_close. destruct (closed c) eqn:Hop; simpl.
  - rewrite app_nil_r. repeat split; try done. intros ch st Hst. eauto.
  - repeat split; try done.
    + unfold close_each. now rewrite length_imap.
    + intros ch st Hst. rewrite close_each_lookup, Hst. simpl.
      destruct (decide _); eauto.
Qed.

Lemma close_leaves_the_rest_witness :
  exists c',
    wf (conn boot) /\ close (conn boot) = Done tt c' /\
    trace c' = trace (conn boot) ++ [ModelClose "peer"].
Proof.
  pose proof (initial_wf boot boot_initial) as Hwf.
  destruct (close_leaves_the_rest (conn boot) Hwf)
    as (c' & E & _ & _ & _ & _ & _ & _ & _ & _ & _ & Htr).
  exists c'. exact (conj Hwf (conj E Htr)).
Defined.

(** ** The pending table under every interleaving

    The runs above take a whole turn of the reader as one step.  The
    source gives the mutex up in the middle of a turn: the reader looks an
    entry up under the read lock, sends on the channel and closes it with
    no lock at all, and takes the mutex again to delete the entry.  Here
    every goroutine is cut at each point where it takes or gives up the
    mutex, and the pieces run in any order: a piece is a stretch under the
    mutex, or one step outside it (a send on a channel, the close of a
    channel, a receive, a read of the stream, a call that leaves the
    package).  What a goroutine decides between two of its pieces, such as
    whether to call [close()] after a failed write, is left open: any
    piece may come at any time, the pieces of [close()] included. *)

(** The stretch of [Index] under the mutex. *)
Definition Index_locked (idx : list FileInfo) (s : sink) : M (option error) :=
  Lock ;;
  id ← load nextId ;
  writeHeader {| version := 0; msgID := id; msgType := messageTypeIndex |} (on_header s) ;;
  writeIndex idx (on_body s) ;;
  err ← flush (on_flush s) ;
  n ← load nextId ;
  store (set_nextId (Z.land (wrap64 (n + 1)) 0xfff)) ;;
  Unlock ;;
  mret err.

(** The stretch under the mutex of the goroutine that answers a request. *)
Definition answer_locked (msgID : Z) (data : bytes) (s : sink) : M (option error) :=
  Lock ;;
  writeUint32 (encodeHeader {| version := 0; msgID := msgID;
                               msgType := messageTypeResponse |}) (on_header s) ;;
  writeResponse data (on_body s) ;;
  err ← flush (on_flush s) ;
  Unlock ;;
  mret err.

(** The stretches of the reader: noting the time of a receive, the
    look-up of an ID, the deletion of an entry, the Pong for a Ping. *)
Definition reader_touch (now : Z) : M unit :=
  Lock ;; store (set_lastReceive now) ;; Unlock.

Definition reader_lookup (k : Z) : M (option nat) :=
  RLock ;; rc ← awaiting_lookup k ; RUnlock ;; mret rc.

Definition reader_delete (k : Z) : M unit :=
  Lock ;; awaiting_delete k ;; Unlock.

Definition reader_pong (k : Z) (s : sink) : M (option error) :=
  Lock ;;
  writeUint32 (encodeHeader {| version := 0; msgID := k; msgType := messageTypePong |})
              (on_header s) ;;
  err ← flush (on_flush s) ;
  Unlock ;;
  mret err.

(** What the reader does with the ID of a Response or a Pong: [v] builds
    the value it sends. *)
Definition reader_deliver (k : Z) (v : Connection -> asyncResult) : M unit :=
  rc ← reader_lookup k ;
  match rc with
  | Some rc =>
      va ← peek v ;
      chan_send rc va ;;
      chan_close rc ;;
      reader_delete k
  | None => mret tt
  end.

(** The stretches of the pinger. *)
Definition pinger_read : M Z :=
  RLock ;; lr ← load lastReceive ; RUnlock ;; mret lr.

Definition pinger_update (lat : Z) : M unit :=
  Lock ;;
  old ← load peerLatency ;
  store (set_peerLatency (Z.quot (wrap64 (old + lat)) 2)) ;;
  Unlock.

(** Where the reader is in a hand-over: not in one; past the look-up of
    ID [k], which gave channel [rc], with [v] to send; past the send; past
    the close of the channel, with the entry still to delete. *)
Inductive hand_over :=
| Idle
| Sending (k : Z) (rc : nat) (v : asyncResult)
| Closing (k : Z) (rc : nat)
| Deleting (k : Z) (rc : nat).

Record fine := { fconn : Connection; hand : hand_over }.

(** One piece of some goroutine. *)
Inductive move :=
| SendIndex (idx : list FileInfo) (s : sink)
| SendRequest (name : string) (offset size : Z) (hash : bytes) (s : sink)
| SendPing (t0 : Z) (s : sink)
| Receive (rc : nat)
| TakeStatistics (arch : spec_float -> Z) (t1 t2 : Z)
| TestClosed
| Outside (e : event)
| CloseLocked
| CloseNotify
| Answer (msgID : Z) (data : bytes) (s : sink)
| PingerRead
| PingerUpdate (lat : Z)
| Decode (r : io)
| Touch (now : Z)
| PongBack (k : Z) (s : sink)
| LookUp (k : Z) (v : asyncResult)
| HandOver
| CloseChan
| DeleteEntry.

(** The outcome of a piece: the connection it leaves and where the reader
    is then; a piece that finds the mutex taken, or has nothing to
    receive, has not happened; a panic ends the program. *)
Definition settle {A} (σ : fine) (h : hand_over) (r : result A) : fault + fine :=
  match r with
  | Done _ c => inr {| fconn := c; hand := h |}
  | Fault WouldBlock _ => inr σ
  | Fault f _ => inl f
  end.

(** The pieces in which the reader is at the top of a turn or between two
    reads happen only when it is in no hand-over. *)
Definition at_rest (σ : fine) (r : fault + fine) : fault + fine :=
  match hand σ with
  | Idle => r
  | _ => inr σ
  end.

Definition fexec (m : move) (σ : fine) : fault + fine :=
  let c := fconn σ in
  match m with
  | SendIndex idx s => settle σ (hand σ) (Index_locked idx s c)
  | SendRequest name offset size hash s =>
      settle σ (hand σ) (Request_locked name offset size hash s c)
  | SendPing t0 s => settle σ (hand σ) (Ping_locked t0 s c)
  | Receive rc => settle σ (hand σ) (chan_recv rc c)
  | TakeStatistics arch t1 t2 => settle σ (hand σ) (Connection_Statistics arch t1 t2 c)
  | TestClosed => settle σ (hand σ) (isClosed c)
  | Outside e => settle σ (hand σ) (emit e c)
  | CloseLocked => settle σ (hand σ) (close_locked c)
  | CloseNotify => settle σ (hand σ) (close_notify c)
  | Answer msgID data s => settle σ (hand σ) (answer_locked msgID data s c)
  | PingerRead => settle σ (hand σ) (pinger_read c)
  | PingerUpdate lat => settle σ (hand σ) (pinger_update lat c)
  | Decode r => at_rest σ (settle σ Idle (mreader_read tt tt r c))
  | Touch now => at_rest σ (settle σ Idle (reader_touch now c))
  | PongBack k s => at_rest σ (settle σ Idle (reader_pong k s c))
  | LookUp k v =>
      at_rest σ
        match reader_lookup k c with
        | Done (Some rc) c' => inr {| fconn := c'; hand := Sending k rc v |}
        | Done None c' => inr {| fconn := c'; hand := Idle |}
        | Fault WouldBlock _ => inr σ
        | Fault f _ => inl f
        end
  | HandOver =>
      match hand σ with
      | Sending k rc v => settle σ (Closing k rc) (chan_send rc v c)
      | _ => inr σ
      end
  | CloseChan =>
      match hand σ with
      | Closing k rc => settle σ (Deleting k rc) (chan_close rc c)
      | _ => inr σ
      end
  | DeleteEntry =>
      match hand σ with
      | Deleting k rc => settle σ Idle (reader_delete k c)
      | _ => inr σ
      end
  end.

Fixpoint frun (ms : list move) (σ : fine) : fault + fine :=
  match ms with
  | [] => inr σ
  | m :: rest =>
      match fexec m σ with
      | inr σ' => frun rest σ'
      | inl f => inl f
      end
  end.

(** A connection just made, with the reader at the top of its loop. *)
Definition just_made (σ : fine) : Prop :=
  (exists nodeID t1 t2, NewConnection nodeID None t1 t2 = inr (fconn σ)) /\ hand σ = Idle.

(** The channel the reader has sent on and not yet taken out of the
    table. *)
Definition in_flight (h : hand_over) : option nat :=
  match h with
  | Closing _ rc | Deleting _ rc => Some rc
  | _ => None
  end.

(** What the reader's place in a hand-over says about its channel. *)
Definition hand_ok (h : hand_over) (c : Connection) : Prop :=
  match h with
  | Idle => True
  | Sending k rc v =>
      (exists st, chans c !! rc = Some st /\ sent st = []) /\
      forall k', registered c k' rc -> k' = k
  | Closing k rc =>
      (exists st v, chans c !! rc = Some st /\ sent st = [v]) /\
      forall k', registered c k' rc -> k' = k
  | Deleting k rc =>
      (exists st v, chans c !! rc = Some st /\ sent st = [v] /\ ch_closed st = true) /\
      forall k', registered c k' rc -> k' = k
  end.

(** What holds between any two pieces. *)
Record sound (σ : fine) : Prop := {
  sd_mu : mu (fconn σ) = mu_free;
  sd_closed : closed (fconn σ) = true -> awaiting (fconn σ) = None;
  sd_vacant : forall k ch, registered (fconn σ) k ch ->
    exists st, chans (fconn σ) !! ch = Some st /\
      (sent st = [] \/ in_flight (hand σ) = Some ch);
  sd_inj : forall k1 k2 ch,
    registered (fconn σ) k1 ch -> registered (fconn σ) k2 ch -> k1 = k2;
  sd_once : forall ch st, chans (fconn σ) !! ch = Some st -> (length (sent st) <= 1)%nat;
  sd_hand : hand_ok (hand σ) (fconn σ) }.

(** Whether a piece is the stretch of a correlated send. *)
Definition sends (m : move) : bool :=
  match m with
  | SendRequest _ _ _ _ _ | SendPing _ _ => true
  | _ => false
  end.

(** The ways in which the entry of [k] with channel [ch] leaves the table
    in a piece. *)
Definition overwritten (m : move) (σ σ' : fine) (k : Z) (ch : nat) : Prop :=
  sends m = true /\ nextId (fconn σ) = k /\
  registered (fconn σ') k (length (chans (fconn σ))) /\
  chans (fconn σ') !! ch = chans (fconn σ) !! ch.

Definition deleted (m : move) (σ σ' : fine) (k : Z) (ch : nat) : Prop :=
  m = DeleteEntry /\ closed (fconn σ') = closed (fconn σ) /\
  chans (fconn σ') = chans (fconn σ) /\
  exists rc, hand σ = Deleting k rc /\ hand σ' = Idle /\
    (ch = rc ->
     exists st v, chans (fconn σ) !! ch = Some st /\ sent st = [v] /\ ch_closed st = true).

Definition drained (m : move) (σ σ' : fine) (k : Z) (ch : nat) : Prop :=
  m = CloseLocked /\ closed (fconn σ) = false /\ closed (fconn σ') = true /\
  exists st, chans (fconn σ) !! ch = Some st /\
             chans (fconn σ') !! ch = Some (mark_closed st).

(** *** What the pieces do to the table and the channels *)

(** A piece that leaves the table, the channels and the closed flag
    alone. *)
Definition quiet (c c' : Connection) : Prop :=
  mu c' = mu_free /\ closed c' = closed c /\ awaiting c' = awaiting c /\ chans c' = chans c.

Ltac quiet_run Hmu :=
  let E := fresh "E" in
  match goal with
  | |- ?P ?c = Done _ ?c' -> _ =>
      destruct c as [m i r w cl aw n lr pl ls cs tr]; simpl in Hmu; subst m; run;
      repeat match goal with
             | |- context [match ?x with _ => _ end] =>
                 let z := innermost x in destruct z eqn:?; simpl
             end;
      intros E; first [discriminate E | injection E as <-; done | injection E as _ <-; done]
  end.

Lemma Index_locked_quiet idx s c res c' :
  mu c = mu_free -> Index_locked idx s c = Done res c' -> quiet c c'.
Proof.
  intros Hmu. unfold quiet, Index_locked, writeHeader, writeUint32, writeIndex, mwriter_write.
  quiet_run Hmu.
Qed.

Lemma answer_locked_quiet msgID data s c res c' :
  mu c = mu_free -> answer_locked msgID data s c = Done res c' -> quiet c c'.
Proof.
  intros Hmu. unfold quiet, answer_locked, writeUint32, writeResponse, mwriter_write.
  quiet_run Hmu.
Qed.

Lemma reader_touch_quiet now c res c' :
  mu c = mu_free -> reader_touch now c = Done res c' -> quiet c c'.
Proof. intros Hmu. unfold quiet, reader_touch. quiet_run Hmu. Qed.

Lemma reader_pong_quiet k s c res c' :
  mu c = mu_free -> reader_pong k s c = Done res c' -> quiet c c'.
Proof.
  intros Hmu. unfold quiet, reader_pong, writeUint32, mwriter_write. quiet_run Hmu.
Qed.

Lemma pinger_read_quiet c res c' :
  mu c = mu_free -> pinger_read c = Done res c' -> quiet c c'.
Proof. intros Hmu. unfold quiet, pinger_read. quiet_run Hmu. Qed.

Lemma pinger_update_quiet lat c res c' :
  mu c = mu_free -> pinger_update lat c = Done res c' -> quiet c c'.
Proof. intros Hmu. unfold quiet, pinger_update. quiet_run Hmu. Qed.

Lemma Statistics_quiet arch t1 t2 c res c' :
  mu c = mu_free -> Connection_Statistics arch t1 t2 c = Done res c' -> quiet c c'.
Proof. intros Hmu. unfold quiet, Connection_Statistics. quiet_run Hmu. Qed.

Lemma isClosed_quiet c res c' :
  mu c = mu_free -> isClosed c = Done res c' -> quiet c c'.
Proof. intros Hmu. unfold quiet, isClosed. quiet_run Hmu. Qed.

Lemma emit_quiet e c res c' : mu c = mu_free -> emit e c = Done res c' -> quiet c c'.
Proof. intros Hmu. unfold quiet. quiet_run Hmu. Qed.

Lemma close_notify_quiet c res c' :
  mu c = mu_free -> close_notify c = Done res c' -> quiet c c'.
Proof. intros Hmu. unfold quiet, close_notify. quiet_run Hmu. Qed.

Lemma mreader_read_quiet {A} (z x : A) rd c res c' :
  mu c = mu_free -> mreader_read z x rd c = Done res c' -> quiet c c'.
Proof.
  intros Hmu. unfold quiet.
  destruct c as [m i r w cl aw n lr pl ls cs tr]; simpl in Hmu; subst m.
  unfold mreader_read. simpl. destruct (rerr r); intros [= <- <-]; done.
Qed.

Lemma reader_lookup_spec k c :
  mu c = mu_free ->
  reader_lookup k c = Done (match awaiting c with None => None | Some m => m !! k end) c.
Proof.
  intros Hmu. destruct c as [m i r w cl aw n lr pl ls cs tr]; simpl in Hmu; subst m.
  unfold reader_lookup, awaiting_lookup. run. reflexivity.
Qed.

Lemma reader_delete_spec k c :
  mu c = mu_free ->
  reader_delete k c = Done tt (set_awaiting (delete k <$> awaiting c) c).
Proof.
  intros Hmu. destruct c as [m i r w cl aw n lr pl ls cs tr]; simpl in Hmu; subst m.
  unfold reader_delete, awaiting_delete. run. destruct aw; reflexivity.
Qed.

(** The stretch of a correlated send that completes has put a new channel
    in the table under [nextId]. *)
Lemma send_locked_reg name offset size hash s t0 c rc out c' :
  mu c = mu_free ->
  Request_locked name offset size hash s c = Done (rc, out) c' \/
  Ping_locked t0 s c = Done (rc, out) c' ->
  exists m, awaiting c = Some m /\ rc = length (chans c) /\ mu c' = mu_free /\
    closed c' = closed c /\ awaiting c' = Some (<[nextId c := rc]> m) /\
    chans c' = chans c ++ [chan_new].
Proof.
  intros Hmu E.
  destruct c as [m i r w cl aw n lr pl ls cs tr]; simpl in Hmu; subst m.
  destruct aw as [m0|].
  - exists m0. simpl. destruct E as [E|E]; revert E.
    + unfold Request_locked, awaiting_assign, make_chan, writeHeader, writeUint32,
        writeRequest, mwriter_write. run.
      repeat match goal with
             | |- context [match ?x with _ => _ end] =>
                 let z := innermost x in destruct z eqn:?; simpl
             end; intros [= <- <- <-]; done.
    + unfold Ping_locked, awaiting_assign, make_chan, writeHeader, writeUint32,
        mwriter_write. run.
      repeat match goal with
             | |- context [match ?x with _ => _ end] =>
                 let z := innermost x in destruct z eqn:?; simpl
             end; intros [= <- <- <-]; done.
  - exfalso. destruct E as [E|E]; revert E.
    + unfold Request_locked, awaiting_assign, make_chan. run. done.
    + unfold Ping_locked, awaiting_assign, make_chan. run. done.
Qed.

(** *** The invariant is kept *)

Lemma sound_lt σ k ch :
  sound σ -> registered (fconn σ) k ch -> (ch < length (chans (fconn σ)))%nat.
Proof.
  intros Hs Hreg. destruct (sd_vacant σ Hs k ch Hreg) as (st & Hst & _).
  eapply lookup_lt_Some; eauto.
Qed.

(** A piece that takes no entry's channel back into the table, puts new
    channels only at the end, and changes no value on a channel. *)
Lemma sound_evolve σ c' :
  sound σ -> mu c' = mu_free ->
  (closed c' = true -> awaiting c' = None) ->
  (forall k ch, registered c' k ch ->
     registered (fconn σ) k ch \/
     (ch = length (chans (fconn σ)) /\ chans c' !! ch = Some chan_new /\
      forall k2, registered c' k2 ch -> k2 = k)) ->
  (forall ch st, chans (fconn σ) !! ch = Some st ->
     exists st', chans c' !! ch = Some st' /\ sent st' = sent st /\
       (ch_closed st = true -> ch_closed st' = true)) ->
  (forall ch st', chans c' !! ch = Some st' -> (length (chans (fconn σ)) <= ch)%nat ->
     sent st' = []) ->
  sound {| fconn := c'; hand := hand σ |}.
Proof.
  intros Hs Hmu Hcl Hreg Hold Hnew.
  assert (Hout : forall k ch, registered (fconn σ) k ch -> ch <> length (chans (fconn σ))).
  { intros k ch Hr. pose proof (sound_lt σ k ch Hs Hr). lia. }
  split; simpl.
  - exact Hmu.
  - exact Hcl.
  - intros k ch Hr. destruct (Hreg k ch Hr) as [Hr0|(-> & Hch & _)].
    + destruct (sd_vacant σ Hs k ch Hr0) as (st & Hst & Hv).
      destruct (Hold ch st Hst) as (st' & Hst' & Hsent & _).
      exists st'. split; [done|]. now rewrite Hsent.
    + exists chan_new. split; [done|]. now left.
  - intros k1 k2 ch Hr1 Hr2.
    destruct (Hreg k1 ch Hr1) as [Hr1'|(-> & _ & Hu1)].
    + destruct (Hreg k2 ch Hr2) as [Hr2'|(-> & _ & _)].
      * eapply (sd_inj σ Hs); eauto.
      * exfalso. eapply Hout; eauto.
    + symmetry. now apply Hu1.
  - intros ch st' Hst'.
    destruct (le_lt_dec (length (chans (fconn σ))) ch) as [Hge|Hlt].
    + rewrite (Hnew ch st' Hst' Hge). simpl. lia.
    + destruct (lookup_lt_is_Some_2 _ _ Hlt) as [st Hst].
      destruct (Hold ch st Hst) as (st'' & Hst'' & Hsent & _).
      assert (st'' = st') as -> by congruence.
      rewrite Hsent. eapply (sd_once σ Hs); eauto.
  - pose proof (sd_hand σ Hs) as Hh.
    assert (Hkey : forall rc k, (exists st, chans (fconn σ) !! rc = Some st) ->
              (forall k', registered (fconn σ) k' rc -> k' = k) ->
              forall k', registered c' k' rc -> k' = k).
    { intros rc k (st & Hst) Hk k' Hr. destruct (Hreg k' rc Hr) as [Hr0|(-> & _)].
      - now apply Hk.
      - apply lookup_lt_Some in Hst. lia. }
    destruct (hand σ) as [|k rc v|k rc|k rc]; simpl in *.
    + done.
    + destruct Hh as ((st & Hst & Hv) & Hk). split; [|eapply Hkey; eauto].
      destruct (Hold rc st Hst) as (st' & Hst' & Hsent & _).
      exists st'. split; [done|]. congruence.
    + destruct Hh as ((st & v & Hst & Hv) & Hk). split; [|eapply Hkey; eauto].
      destruct (Hold rc st Hst) as (st' & Hst' & Hsent & _).
      exists st', v. split; [done|]. congruence.
    + destruct Hh as ((st & v & Hst & Hv & Hc) & Hk). split; [|eapply Hkey; eauto].
      destruct (Hold rc st Hst) as (st' & Hst' & Hsent & Hcl').
      exists st', v. split; [done|]. split; [congruence|auto].
Qed.

Lemma sound_quiet σ c' :
  sound σ -> quiet (fconn σ) c' -> sound {| fconn := c'; hand := hand σ |}.
Proof.
  intros Hs (Hmu & Hcl & Haw & Hch). apply sound_evolve; try done.
  - rewrite Hcl, Haw. apply (sd_closed σ Hs).
  - intros k ch Hr. left. unfold registered in *. now rewrite <- Haw.
  - intros ch st Hst. exists st. rewrite Hch. done.
  - intros ch st' Hst' Hge. rewrite Hch in Hst'. apply lookup_lt_Some in Hst'. lia.
Qed.

Lemma sound_reg σ c' m :
  sound σ -> awaiting (fconn σ) = Some m -> mu c' = mu_free ->
  closed c' = closed (fconn σ) ->
  awaiting c' = Some (<[nextId (fconn σ) := length (chans (fconn σ))]> m) ->
  chans c' = chans (fconn σ) ++ [chan_new] ->
  sound {| fconn := c'; hand := hand σ |}.
Proof.
  intros Hs Hm Hmu Hcl Haw Hch. apply sound_evolve; try done.
  - rewrite Hcl. intros E. apply (sd_closed σ Hs) in E. congruence.
  - intros k ch (m' & Hm' & Hk). rewrite Haw in Hm'. injection Hm' as <-.
    destruct (decide (nextId (fconn σ) = k)) as [<-|Hne].
    + rewrite lookup_insert_eq in Hk. injection Hk as <-. right.
      split; [done|]. split.
      * rewrite Hch, lookup_app_r, Nat.sub_diag by lia. done.
      * intros k2 (m2 & Hm2 & Hk2). rewrite Haw in Hm2. injection Hm2 as <-.
        destruct (decide (nextId (fconn σ) = k2)) as [|Hne]; [done|].
        rewrite lookup_insert_ne in Hk2 by done.
        assert (Hr : registered (fconn σ) k2 (length (chans (fconn σ)))) by (exists m; done).
        pose proof (sound_lt σ _ _ Hs Hr). lia.
    + rewrite lookup_insert_ne in Hk by done. left. exists m. done.
  - intros ch st Hst. exists st. rewrite Hch, lookup_app_l by (eapply lookup_lt_Some; eauto).
    done.
  - intros ch st' Hst' Hge. rewrite Hch in Hst'.
    apply lookup_app_Some in Hst' as [Hst'|[_ Hst']].
    + apply lookup_lt_Some in Hst'. lia.
    + apply list_lookup_singleton_Some in Hst' as [_ <-]. done.
Qed.

Lemma sound_drain σ c' :
  sound σ -> mu c' = mu_free -> awaiting c' = None ->
  length (chans c') = length (chans (fconn σ)) ->
  (forall i st, chans (fconn σ) !! i = Some st ->
     chans c' !! i =
     Some (if decide (i ∈ map_values (awaiting (fconn σ))) then mark_closed st else st)) ->
  sound {| fconn := c'; hand := hand σ |}.
Proof.
  intros Hs Hmu Haw Hlen Hch. apply sound_evolve; try done.
  - intros k ch (m & Hm & _). congruence.
  - intros ch st Hst. eexists. split; [apply (Hch ch st Hst)|].
    destruct (decide _); simpl; done.
  - intros ch st' Hst' Hge. apply lookup_lt_Some in Hst'. lia.
Qed.

Lemma sound_take σ rc res c' :
  sound σ -> chan_recv rc (fconn σ) = Done res c' ->
  sound {| fconn := c'; hand := hand σ |}.
Proof.
  intros Hs. unfold chan_recv.
  destruct (chans (fconn σ) !! rc) as [st|] eqn:Hst; [|done].
  destruct (sent st !! taken st) as [v|] eqn:Hv.
  - intros [= _ <-]. apply sound_evolve; simpl; try done.
    + apply (sd_mu σ Hs).
    + apply (sd_closed σ Hs).
    + intros k ch Hr. now left.
    + intros ch st0 Hst0. destruct (decide (ch = rc)) as [->|Hne].
      * rewrite list_lookup_insert_eq by (eapply lookup_lt_Some; eauto).
        eexists. split; [done|]. simpl. split; congruence.
      * rewrite list_lookup_insert_ne by done. eauto.
    + intros ch st' Hst' Hge. apply lookup_lt_Some in Hst'.
      rewrite length_insert in Hst'. lia.
  - destruct (ch_closed st); [|done]. intros [= _ <-].
    apply sound_quiet; [done|]. split; [apply (sd_mu σ Hs)|done].
Qed.

Lemma sound_lookup σ k rc v :
  sound σ -> hand σ = Idle -> registered (fconn σ) k rc ->
  sound {| fconn := fconn σ; hand := Sending k rc v |}.
Proof.
  intros Hs Hh Hreg. split; simpl.
  - apply (sd_mu σ Hs).
  - apply (sd_closed σ Hs).
  - intros k' ch Hr. destruct (sd_vacant σ Hs k' ch Hr) as (st & Hst & [Hv|Hf]).
    + eauto.
    + rewrite Hh in Hf. discriminate Hf.
  - apply (sd_inj σ Hs).
  - apply (sd_once σ Hs).
  - split.
    + destruct (sd_vacant σ Hs k rc Hreg) as (st & Hst & [Hv|Hf]); [eauto|].
      rewrite Hh in Hf. discriminate Hf.
    + intros k' Hr. eapply (sd_inj σ Hs); eauto.
Qed.

(** The channels with the one of the hand-over replaced. *)
Lemma sound_replace σ rc st st' h' :
  sound σ -> chans (fconn σ) !! rc = Some st ->
  (length (sent st') <= 1)%nat ->
  (forall ch, in_flight (hand σ) = Some ch -> ch = rc) ->
  in_flight h' = Some rc ->
  hand_ok h' (set_chans (<[rc := st']> (chans (fconn σ))) (fconn σ)) ->
  sound {| fconn := set_chans (<[rc := st']> (chans (fconn σ))) (fconn σ); hand := h' |}.
Proof.
  intros Hs Hst Hlen Hold Hf Hh. split; simpl.
  - apply (sd_mu σ Hs).
  - apply (sd_closed σ Hs).
  - intros k' ch Hr. destruct (decide (ch = rc)) as [->|Hne].
    + exists st'. split; [|now right].
      apply list_lookup_insert_eq. eapply lookup_lt_Some; eauto.
    + rewrite list_lookup_insert_ne by done.
      destruct (sd_vacant σ Hs k' ch Hr) as (st0 & Hst0 & [Hv|Hf0]); [eauto|].
      exfalso. apply Hne. now apply Hold.
  - apply (sd_inj σ Hs).
  - intros ch st0 Hst0. apply list_lookup_insert_Some in Hst0 as [(_ & <- & _)|[_ Hst0]].
    + done.
    + eapply (sd_once σ Hs); eauto.
  - exact Hh.
Qed.

Lemma sound_send σ k rc v c' :
  sound σ -> hand σ = Sending k rc v -> chan_send rc v (fconn σ) = Done tt c' ->
  sound {| fconn := c'; hand := Closing k rc |}.
Proof.
  intros Hs Hh. pose proof (sd_hand σ Hs) as Hok. rewrite Hh in Hok.
  destruct Hok as ((st & Hst & Hv) & Hk).
  unfold chan_send. rewrite Hst. destruct (ch_closed st); [done|]. intros [= <-].
  eapply sound_replace; eauto.
  - simpl. rewrite Hv. simpl. lia.
  - intros ch. rewrite Hh. discriminate.
  - split; [|exact Hk]. eexists _, v. simpl. split.
    + apply list_lookup_insert_eq. eapply lookup_lt_Some; eauto.
    + simpl. now rewrite Hv.
Qed.

Lemma sound_closechan σ k rc c' :
  sound σ -> hand σ = Closing k rc -> chan_close rc (fconn σ) = Done tt c' ->
  sound {| fconn := c'; hand := Deleting k rc |}.
Proof.
  intros Hs Hh. pose proof (sd_hand σ Hs) as Hok. rewrite Hh in Hok.
  destruct Hok as ((st & v & Hst & Hv) & Hk).
  unfold chan_close. rewrite Hst. destruct (ch_closed st); [done|]. intros [= <-].
  eapply sound_replace; eauto.
  - simpl. rewrite Hv. simpl. lia.
  - intros ch. rewrite Hh. simpl. congruence.
  - split; [|exact Hk]. eexists _, v. simpl. split.
    + apply list_lookup_insert_eq. eapply lookup_lt_Some; eauto.
    + done.
Qed.

Lemma sound_delete σ k rc :
  sound σ -> hand σ = Deleting k rc ->
  sound {| fconn := set_awaiting (delete k <$> awaiting (fconn σ)) (fconn σ); hand := Idle |}.
Proof.
  intros Hs Hh. pose proof (sd_hand σ Hs) as Hok. rewrite Hh in Hok.
  destruct Hok as (_ & Hk).
  assert (Hreg : forall k' ch,
    registered (set_awaiting (delete k <$> awaiting (fconn σ)) (fconn σ)) k' ch ->
    k' <> k /\ registered (fconn σ) k' ch).
  { intros k' ch (m & Hm & Hk'). simpl in Hm.
    destruct (awaiting (fconn σ)) as [m0|] eqn:E; [|done]. injection Hm as <-.
    apply lookup_delete_Some in Hk' as [Hne Hk']. split; [done|]. exists m0. done. }
  split; simpl.
  - apply (sd_mu σ Hs).
  - intros E. rewrite (sd_closed σ Hs E). done.
  - intros k' ch Hr. destruct (Hreg k' ch Hr) as [Hne Hr0].
    destruct (sd_vacant σ Hs k' ch Hr0) as (st & Hst & [Hv|Hf]); [eauto|].
    exfalso. rewrite Hh in Hf. injection Hf as <-. apply Hne. now apply Hk.
  - intros k1 k2 ch Hr1 Hr2. eapply (sd_inj σ Hs); [eapply Hreg|eapply Hreg]; eauto.
  - apply (sd_once σ Hs).
  - done.
Qed.

(** *** What a piece does to the entries *)

(** What holds across any piece that happens: the invariant is kept, no
    channel is dropped, an entry of the table afterwards was there before
    or has a new channel, and an entry that is gone was overwritten by a
    correlated send, deleted by the reader, or drained by [close()]. *)
Record fine_step (m : move) (σ σ' : fine) : Prop := {
  fs_sound : sound σ';
  fs_len : (length (chans (fconn σ)) <= length (chans (fconn σ')))%nat;
  fs_new : forall k ch, registered (fconn σ') k ch ->
    registered (fconn σ) k ch \/ (length (chans (fconn σ)) <= ch)%nat;
  fs_removed : forall k ch, registered (fconn σ) k ch -> ~ registered (fconn σ') k ch ->
    overwritten m σ σ' k ch \/ deleted m σ σ' k ch \/ drained m σ σ' k ch }.

Lemma fine_step_same m σ σ' :
  sound σ' -> awaiting (fconn σ') = awaiting (fconn σ) ->
  (length (chans (fconn σ)) <= length (chans (fconn σ')))%nat ->
  fine_step m σ σ'.
Proof.
  intros Hs Haw Hlen. split; [done|done| |].
  - intros k ch Hr. left. unfold registered in *. now rewrite <- Haw.
  - intros k ch Hr Hn. exfalso. apply Hn. unfold registered in *. now rewrite Haw.
Qed.

Lemma fine_step_refl m σ : sound σ -> fine_step m σ σ.
Proof. intros Hs. now apply fine_step_same. Qed.

Lemma fine_step_quiet m σ h {A} (r : result A) σ' :
  sound σ -> hand σ = h ->
  (forall x c', r = Done x c' -> quiet (fconn σ) c') ->
  settle σ h r = inr σ' -> fine_step m σ σ'.
Proof.
  intros Hs <- Hq. unfold settle. destruct r as [x c'|f c'].
  - intros [= <-]. destruct (Hq x c' eq_refl) as (Hmu & Hcl & Haw & Hch).
    apply fine_step_same; simpl.
    + apply sound_quiet; [done|]. done.
    + done.
    + now rewrite Hch.
  - destruct f; try done. intros [= <-]. now apply fine_step_refl.
Qed.

Lemma fine_step_reg m σ rc c' :
  sound σ -> sends m = true ->
  (exists mp, awaiting (fconn σ) = Some mp /\ rc = length (chans (fconn σ)) /\
     mu c' = mu_free /\ closed c' = closed (fconn σ) /\
     awaiting c' = Some (<[nextId (fconn σ) := rc]> mp) /\
     chans c' = chans (fconn σ) ++ [chan_new]) ->
  fine_step m σ {| fconn := c'; hand := hand σ |}.
Proof.
  intros Hs Hm (mp & Hmp & -> & Hmu & Hcl & Haw & Hch). split; simpl.
  - eapply sound_reg; eauto.
  - rewrite Hch, length_app. lia.
  - intros k ch (m' & Hm' & Hk). rewrite Haw in Hm'. injection Hm' as <-.
    destruct (decide (nextId (fconn σ) = k)) as [<-|Hne].
    + rewrite lookup_insert_eq in Hk. injection Hk as <-. now right.
    + rewrite lookup_insert_ne in Hk by done. left. exists mp. done.
  - intros k ch Hreg Hnr. left. unfold overwritten. simpl.
    destruct (decide (nextId (fconn σ) = k)) as [<-|Hne].
    + split; [done|]. split; [done|]. split.
      * eexists. split; [exact Haw|]. apply lookup_insert_eq.
      * rewrite Hch. apply lookup_app_l. eapply sound_lt; eauto.
    + exfalso. apply Hnr. destruct Hreg as (m' & Hm' & Hk).
      eexists. split; [exact Haw|]. rewrite lookup_insert_ne by done. congruence.
Qed.

Lemma fine_step_drain σ first c' :
  sound σ -> close_locked (fconn σ) = Done first c' ->
  fine_step CloseLocked σ {| fconn := c'; hand := hand σ |}.
Proof.
  intros Hs E. destruct (closed (fconn σ)) eqn:Hop.
  - destruct (close_again _ (sd_mu σ Hs) Hop) as [_ E']. rewrite E' in E.
    injection E as _ <-. destruct σ. now apply fine_step_refl.
  - apply (close_locked_done _ _ _ (sd_mu σ Hs) Hop) in E
      as (_ & A1 & A2 & A3 & _ & _ & _ & A7 & A8).
    split; simpl.
    + eapply sound_drain; eauto.
    + lia.
    + intros k ch (m & Hm & _). congruence.
    + intros k ch Hreg _. right. right. unfold drained. simpl.
      destruct (sd_vacant σ Hs k ch Hreg) as (st & Hst & _).
      split; [done|]. split; [done|]. split; [done|].
      exists st. split; [done|]. rewrite (A8 ch st Hst).
      destruct (decide _) as [|Hn]; [done|].
      exfalso. apply Hn. apply elem_of_map_values. eauto.
Qed.

Lemma fine_step_delete σ k rc :
  sound σ -> hand σ = Deleting k rc ->
  fine_step DeleteEntry σ
    {| fconn := set_awaiting (delete k <$> awaiting (fconn σ)) (fconn σ); hand := Idle |}.
Proof.
  intros Hs Hh. split; simpl.
  - eapply sound_delete; eauto.
  - lia.
  - intros k' ch (m & Hm & Hk'). simpl in Hm.
    destruct (awaiting (fconn σ)) as [m0|] eqn:E; [|done]. injection Hm as <-.
    apply lookup_delete_Some in Hk' as [_ Hk']. left. exists m0. done.
  - intros k' ch Hreg Hnr. right. left. unfold deleted. simpl.
    assert (k' = k) as ->.
    { destruct (decide (k' = k)) as [|Hne]; [done|]. exfalso. apply Hnr.
      destruct Hreg as (m0 & Hm0 & Hk'). exists (delete k m0). simpl. rewrite Hm0.
      split; [done|]. rewrite lookup_delete_ne by done. done. }
    split; [done|]. split; [done|]. split; [done|].
    exists rc. split; [done|]. split; [done|]. intros ->.
    pose proof (sd_hand σ Hs) as Hok. rewrite Hh in Hok. destruct Hok as [Hst _].
    exact Hst.
Qed.

Lemma settle_inv {A} σ h (r : result A) σ' :
  settle σ h r = inr σ' ->
  σ' = σ \/ exists x c', r = Done x c' /\ σ' = {| fconn := c'; hand := h |}.
Proof.
  unfold settle. destruct r as [x c'|f c'].
  - intros [= <-]. right. eauto.
  - destruct f; try done. intros [= <-]. now left.
Qed.

(** Every piece that happens is a [fine_step]. *)
Lemma fexec_step m σ σ' : sound σ -> fexec m σ = inr σ' -> fine_step m σ σ'.
Proof.
  intros Hs E. pose proof (sd_mu σ Hs) as Hmu.
  assert (Hrest : forall r, at_rest σ r = inr σ' -> hand σ = Idle -> r = inr σ')
    by (unfold at_rest; intros r Hr Hh; now rewrite Hh in Hr).
  destruct m as [idx s | nm off sz hs s | t0 s | rc | arch t1 t2 | | e | | | mid data s
                | | lat | rd | now | k s | k v | | | ];
    cbv beta iota zeta delta [fexec] in E.
  - eapply fine_step_quiet; [done|done| |exact E].
    intros x c'. now apply Index_locked_quiet.
  - apply settle_inv in E as [->|([rc out] & c' & E & ->)]; [now apply fine_step_refl|].
    apply fine_step_reg with (rc := rc); [done|done|].
    apply (send_locked_reg nm off sz hs s 0 _ rc out c' Hmu). now left.
  - apply settle_inv in E as [->|([rc out] & c' & E & ->)]; [now apply fine_step_refl|].
    apply fine_step_reg with (rc := rc); [done|done|].
    apply (send_locked_reg "" 0 0 None s t0 _ rc out c' Hmu). now right.
  - apply settle_inv in E as [->|(x & c' & E & ->)]; [now apply fine_step_refl|].
    apply fine_step_same; simpl.
    + eapply sound_take; eauto.
    + revert E. unfold chan_recv. destruct (chans (fconn σ) !! rc) as [st|]; [|done].
      destruct (sent st !! taken st); [intros [= _ <-]; done|].
      destruct (ch_closed st); [intros [= _ <-]; done|done].
    + revert E. unfold chan_recv. destruct (chans (fconn σ) !! rc) as [st|]; [|done].
      destruct (sent st !! taken st); [intros [= _ <-]; simpl; now rewrite length_insert|].
      destruct (ch_closed st); [intros [= _ <-]; done|done].
  - eapply fine_step_quiet; [done|done| |exact E].
    intros x c'. now apply Statistics_quiet.
  - eapply fine_step_quiet; [done|done| |exact E].
    intros x c'. now apply isClosed_quiet.
  - eapply fine_step_quiet; [done|done| |exact E].
    intros x c'. now apply emit_quiet.
  - apply settle_inv in E as [->|(first & c' & E & ->)]; [now apply fine_step_refl|].
    eapply fine_step_drain; eauto.
  - eapply fine_step_quiet; [done|done| |exact E].
    intros x c'. now apply close_notify_quiet.
  - eapply fine_step_quiet; [done|done| |exact E].
    intros x c'. now apply answer_locked_quiet.
  - eapply fine_step_quiet; [done|done| |exact E].
    intros x c'. now apply pinger_read_quiet.
  - eapply fine_step_quiet; [done|done| |exact E].
    intros x c'. now apply pinger_update_quiet.
  - destruct (hand σ) eqn:Hh; unfold at_rest in E; rewrite Hh in E;
      try (injection E as <-; now apply fine_step_refl).
    eapply fine_step_quiet; [done|exact Hh| |exact E].
    intros x c'. now apply mreader_read_quiet.
  - destruct (hand σ) eqn:Hh; unfold at_rest in E; rewrite Hh in E;
      try (injection E as <-; now apply fine_step_refl).
    eapply fine_step_quiet; [done|exact Hh| |exact E].
    intros x c'. now apply reader_touch_quiet.
  - destruct (hand σ) eqn:Hh; unfold at_rest in E; rewrite Hh in E;
      try (injection E as <-; now apply fine_step_refl).
    eapply fine_step_quiet; [done|exact Hh| |exact E].
    intros x c'. now apply reader_pong_quiet.
  - destruct (hand σ) eqn:Hh; unfold at_rest in E; rewrite Hh in E;
      try (injection E as <-; now apply fine_step_refl).
    rewrite (reader_lookup_spec k _ Hmu) in E.
    destruct (awaiting (fconn σ)) as [mp|] eqn:Haw.
    + destruct (mp !! k) as [rc|] eqn:Hk; injection E as <-.
      * apply fine_step_same; simpl; [|done|done].
        apply sound_lookup; [done|done|]. exists mp. done.
      * destruct σ; simpl in *; subst. now apply fine_step_refl.
    + injection E as <-. destruct σ; simpl in *; subst. now apply fine_step_refl.
  - destruct (hand σ) as [|k rc v|k rc|k rc] eqn:Hh;
      try (injection E as <-; now apply fine_step_refl).
    apply settle_inv in E as [->|([] & c' & E & ->)]; [now apply fine_step_refl|].
    apply fine_step_same; simpl.
    + eapply sound_send; eauto.
    + revert E. unfold chan_send. destruct (chans (fconn σ) !! rc) as [st|]; [|done].
      destruct (ch_closed st); [done|]. now intros [= <-].
    + revert E. unfold chan_send. destruct (chans (fconn σ) !! rc) as [st|]; [|done].
      destruct (ch_closed st); [done|]. intros [= <-]. simpl. now rewrite length_insert.
  - destruct (hand σ) as [|k rc v|k rc|k rc] eqn:Hh;
      try (injection E as <-; now apply fine_step_refl).
    apply settle_inv in E as [->|([] & c' & E & ->)]; [now apply fine_step_refl|].
    apply fine_step_same; simpl.
    + eapply sound_closechan; eauto.
    + revert E. unfold chan_close. destruct (chans (fconn σ) !! rc) as [st|]; [|done].
      destruct (ch_closed st); [done|]. now intros [= <-].
    + revert E. unfold chan_close. destruct (chans (fconn σ) !! rc) as [st|]; [|done].
      destruct (ch_closed st); [done|]. intros [= <-]. simpl. now rewrite length_insert.
  - destruct (hand σ) as [|k rc v|k rc|k rc] eqn:Hh;
      try (injection E as <-; now apply fine_step_refl).
    rewrite (reader_delete_spec k _ Hmu) in E. injection E as <-.
    eapply fine_step_delete; eauto.
Qed.

(** *** The methods are their pieces, one after the other *)

Ltac pieces :=
  unfold mbind, M_bind, mret, M_ret;
  repeat first
    [ reflexivity
    | match goal with
      | |- context [match ?x with _ => _ end] =>
          let y := innermost x in destruct y; try reflexivity
      end ].

Lemma Index_pieces idx s c :
  Index idx s c =
  (err ← Index_locked idx s ;
   we ← peek (fun c => werr (mwriter c)) ;
   if notnil err || notnil we then close else mret tt) c.
Proof. unfold Index, Index_locked. pieces. Qed.

Lemma processRequest_go_pieces msgID req answer s c :
  processRequest_go msgID req answer s c =
  (id ← peek ID ;
   emit (ModelRequest id req) ;;
   err ← answer_locked msgID answer.1 s ;
   emit (BuffersPut answer.1) ;;
   we ← peek (fun c => werr (mwriter c)) ;
   if notnil we || notnil err then close else mret tt) c.
Proof. unfold processRequest_go, answer_locked. pieces. Qed.

Lemma pingerLoop_body_pieces t c :
  pingerLoop_body t c =
  (lr ← pinger_read ;
   (if pingIdleTime <? time_Since lr (tick_now t) then
      emit (Go GoPing) ;;
      match tick_select t with
      | Some lat => pinger_update lat
      | None => close
      end
    else mret tt) ;;
   emit (Slept Second)) c.
Proof. unfold pingerLoop_body, pinger_read, pinger_update. pieces. Qed.

Lemma readerLoop_body_pieces inb c :
  readerLoop_body inb c =
  (hdr ← readHeader (in_header inb) (in_header_io inb) ;
   re ← peek (fun c => rerr (mreader c)) ;
   if notnil re then
     close ;; mret true
   else if negb (version hdr =? 0) then
     id ← peek ID ;
     emit (LogUnknownVersion id (version hdr)) ;;
     close ;; mret true
   else
     reader_touch (in_now inb) ;;
     (if msgType hdr =? messageTypeIndex then
        files ← readIndex (in_files inb) (in_body_io inb) ;
        re ← peek (fun c => rerr (mreader c)) ;
        if notnil re then close
        else id ← peek ID ; emit (ModelIndex id files)
      else if msgType hdr =? messageTypeRequest then
        processRequest (msgID hdr) (in_request inb) (in_body_io inb) ;;
        re ← peek (fun c => rerr (mreader c)) ;
        we ← peek (fun c => werr (mwriter c)) ;
        if notnil re || notnil we then close else mret tt
      else if msgType hdr =? messageTypeResponse then
        data ← readResponse (in_data inb) (in_body_io inb) ;
        re ← peek (fun c => rerr (mreader c)) ;
        if notnil re then close
        else reader_deliver (msgID hdr)
               (fun c => {| val := data; err := rerr (mreader c) |})
      else if msgType hdr =? messageTypePing then
        err ← reader_pong (msgID hdr) (in_sink inb) ;
        we ← peek (fun c => werr (mwriter c)) ;
        if notnil err || notnil we then close else mret tt
      else if msgType hdr =? messageTypePong then
        reader_deliver (msgID hdr) (fun _ => asyncResult_zero)
      else
        id ← peek ID ;
        emit (LogUnknownType id (msgType hdr)) ;;
        close) ;;
     mret false) c.
Proof.
  unfold readerLoop_body, reader_touch, reader_deliver, reader_lookup, reader_delete,
    reader_pong.
  pieces.
Qed.

(** The four pieces of a hand-over, one after the other with nothing in
    between, are what [reader_deliver] does. *)
Lemma deliver_is_four_moves σ k v c' :
  mu (fconn σ) = mu_free -> hand σ = Idle ->
  reader_deliver k v (fconn σ) = Done tt c' ->
  frun [LookUp k (v (fconn σ)); HandOver; CloseChan; DeleteEntry] σ
  = inr {| fconn := c'; hand := Idle |}.
Proof.
  intros Hmu Hh. destruct σ as [c h]. simpl in *. subst h.
  unfold reader_deliver, mbind, M_bind. unfold at_rest. simpl.
  rewrite (reader_lookup_spec k c Hmu).
  destruct (match awaiting c with Some m => m !! k | None => None end) as [rc|].
  - unfold peek. simpl.
    destruct (chan_send rc (v c) c) as [[] c1|] eqn:E1; [|done]. simpl.
    destruct (chan_close rc c1) as [[] c2|] eqn:E2; [|done]. simpl.
    intros E3. rewrite E3. reflexivity.
  - unfold mret, M_ret. intros [= <-]. reflexivity.
Qed.

(** *** Runs of pieces *)

Lemma just_made_sound σ : just_made σ -> sound σ.
Proof.
  intros [(id & t1 & t2 & E) Hh]. injection E as E.
  split; rewrite <- ?E, ?Hh; simpl; try done.
  - intros k ch (m & [= <-] & Hk). now rewrite lookup_empty in Hk.
  - intros k1 k2 ch (m & [= <-] & Hk). now rewrite lookup_empty in Hk.
Qed.

Lemma frun_sound ms : forall σ σ', sound σ -> frun ms σ = inr σ' -> sound σ'.
Proof.
  induction ms as [|m rest IH]; intros σ σ' Hs E; simpl in E.
  - now injection E as <-.
  - destruct (fexec m σ) as [f|σ1] eqn:Em; [done|].
    eapply IH; [|exact E]. eapply fs_sound, fexec_step; eauto.
Qed.

(** A channel that is outside the table stays outside. *)
Lemma frun_stays_out ms : forall σ σ' ch,
  sound σ -> (ch < length (chans (fconn σ)))%nat ->
  (forall k, ~ registered (fconn σ) k ch) ->
  frun ms σ = inr σ' -> forall k, ~ registered (fconn σ') k ch.
Proof.
  induction ms as [|m rest IH]; intros σ σ' ch Hs Hlt Hout E; simpl in E.
  - now injection E as <-.
  - destruct (fexec m σ) as [f|σ1] eqn:Em; [done|].
    pose proof (fexec_step m σ σ1 Hs Em) as [A1 A2 A3 A4].
    eapply (IH σ1 σ' ch A1); [lia| |exact E].
    intros k Hr. destruct (A3 k ch Hr) as [Hr'|Hge]; [now apply (Hout k)|lia].
Qed.

(** A Response or a Pong that the reader decodes and whose ID is not in
    the table: nothing but the reads and the time of the receive. *)
Lemma reader_discards_absent inb c k :
  mu c = mu_free -> decodes c inb -> carries inb = Some k ->
  (forall ch, ~ registered c k ch) ->
  exists r2,
    readerLoop_body inb c
    = Done false (after_read (in_header_io inb) r2 (in_now inb) c).
Proof.
  intros Hmu (Hop & Hre & Hh & Hv & Hb) Hcar Habs.
  destruct c as [m i [rt re] w cl aw n lr pl ls cs tr]; simpl in *. subst m re cl.
  destruct inb as [[v hid t] [hn he] now fs q d [bn be] sk]; simpl in *. subst v he.
  unfold carries in Hcar. simpl in Hcar.
  assert (Hk : match aw with Some m => m !! hid | None => None end = None).
  { destruct aw as [m0|]; [|done]. destruct (m0 !! hid) as [ch|] eqn:E; [|done]. exfalso.
    destruct ((t =? messageTypeResponse) || (t =? messageTypePong)); [|done].
    injection Hcar as <-. apply (Habs ch). exists m0. done. }
  destruct (t =? messageTypeResponse) eqn:E3.
  - apply Z.eqb_eq in E3. subst t. rewrite (Hb eq_refl). exists (io_ok bn).
    unfold readerLoop_body, awaiting_lookup, readHeader, readResponse, mreader_read,
      after_read.
    unfold messageTypeResponse, messageTypeIndex, messageTypeRequest,
      messageTypePing, messageTypePong.
    run_cbn. rewrite Hk. reflexivity.
  - destruct (t =? messageTypePong) eqn:E5; [|done].
    apply Z.eqb_eq in E5. subst t. exists (io_ok 0).
    unfold readerLoop_body, awaiting_lookup, readHeader, readResponse, mreader_read,
      after_read.
    unfold messageTypeResponse, messageTypeIndex, messageTypeRequest,
      messageTypePing, messageTypePong.
    run_cbn. rewrite Hk, Z.add_0_r. reflexivity.
Qed.

(** C4, as amended.  With every goroutine cut at each point where it takes
    or gives up the mutex and the pieces run in any order on a new
    connection: no channel ever holds more than one value.  An entry that
    a piece takes out of the table has left in one of three ways.  A
    correlated send assigned its ID again: the old channel stays as it
    was, outside the table.  Or the reader, at the end of a hand-over for
    that ID, deleted the entry under the ID: when this is still the entry
    it had looked up, its channel got one value and was closed; when a
    send has assigned the ID again since the look-up, the entry deleted is
    that later one and its channel is left as it was.  Or [close()]
    drained the table and closed the channel with what it held.  In every
    case the entry's channel never enters the table again, and a closed
    connection has no entries.  The look-up of an ID that is not in the
    table changes nothing, and a turn of the reader that decodes a
    Response or a Pong with such an ID changes nothing but what the codec
    has read and the time of the receive. *)
Theorem pending_entries_leave_once (ms : list move) (σ0 σ σ' : fine)
  (m : move) (k : Z) (ch : nat)
  (Hinit : just_made σ0) (Hrun : frun ms σ0 = inr σ) (Hexec : fexec m σ = inr σ') :
  (forall ch' st, chans (fconn σ') !! ch' = Some st -> (length (sent st) <= 1)%nat) /\
  (registered (fconn σ) k ch -> ~ registered (fconn σ') k ch ->
     (overwritten m σ σ' k ch \/ deleted m σ σ' k ch \/ drained m σ σ' k ch) /\
     forall ms' σ'' k', frun ms' σ' = inr σ'' -> ~ registered (fconn σ'') k' ch) /\
  (closed (fconn σ') = true -> forall k' ch', ~ registered (fconn σ') k' ch') /\
  (forall v, m = LookUp k v -> (forall ch', ~ registered (fconn σ) k ch') -> σ' = σ) /\
  (forall inb, decodes (fconn σ) inb -> carries inb = Some k ->
     (forall ch', ~ registered (fconn σ) k ch') ->
     exists r2, readerLoop_body inb (fconn σ)
                = Done false (after_read (in_header_io inb) r2 (in_now inb) (fconn σ))).
Proof.
  assert (Hs : sound σ)
    by (apply (frun_sound ms σ0 σ); [now apply just_made_sound | done]).
  pose proof (fexec_step m σ σ' Hs Hexec) as [A1 A2 A3 A4].
  split; [apply (sd_once _ A1)|]. split; [|split; [|split]].
  - intros Hreg Hnr. split; [now apply A4|].
    intros ms' σ'' k' Hrun'.
    apply (frun_stays_out ms' σ' σ'' ch A1); [| |done].
    + pose proof (sound_lt _ _ _ Hs Hreg). lia.
    + intros k2 Hr2. destruct (A3 k2 ch Hr2) as [Hr|Hge].
      * pose proof (sd_inj _ Hs _ _ _ Hreg Hr) as <-. done.
      * pose proof (sound_lt _ _ _ Hs Hreg). lia.
  - intros Hcl k' ch' (mp & Hm & _). apply (sd_closed _ A1) in Hcl. congruence.
  - intros v -> Habs. cbv beta iota zeta delta [fexec] in Hexec.
    unfold at_rest in Hexec. destruct (hand σ) eqn:Hh; try (now injection Hexec as <-).
    rewrite (reader_lookup_spec k _ (sd_mu σ Hs)) in Hexec.
    destruct (awaiting (fconn σ)) as [mp|] eqn:Haw.
    + destruct (mp !! k) as [rc|] eqn:Hk.
      * exfalso. apply (Habs rc). exists mp. done.
      * injection Hexec as <-. destruct σ; simpl in *; now subst.
    + injection Hexec as <-. destruct σ; simpl in *; now subst.
  - intros inb Hdec Hcar Habs.
    exact (reader_discards_absent inb (fconn σ) k (sd_mu σ Hs) Hdec Hcar Habs).
Qed.

(** A new connection with the reader at the top of its loop. *)
Definition fine_boot : fine := {| fconn := conn boot; hand := Idle |}.

(** A [Request], and the reader up to its close of the channel. *)
Definition hand_over_run : list move :=
  [SendRequest "foo.txt" 0 1024 None sink_ok; Decode (io_ok 4); Touch 7; Decode (io_ok 5);
   LookUp 0 {| val := Some [Byte.x78]; err := None |}; HandOver; CloseChan].

Lemma fine_boot_just_made : just_made fine_boot.
Proof. split; [exists "peer"%string, 0, 0|]; reflexivity. Qed.

Lemma pending_entries_leave_once_witness :
  exists σ σ',
    just_made fine_boot /\ frun hand_over_run fine_boot = inr σ /\
    fexec DeleteEntry σ = inr σ' /\
    registered (fconn σ) 0 0%nat /\ deleted DeleteEntry σ σ' 0 0%nat /\
    chans (fconn σ') !! 0%nat
    = Some {| sent := [{| val := Some [Byte.x78]; err := None |}]; taken := 0;
              ch_closed := true |}.
Proof.
  assert (H1 : exists σ, frun hand_over_run fine_boot = inr σ)
    by (vm_compute; eexists; reflexivity).
  destruct H1 as [σ H1].
  assert (H2 : exists σ', fexec DeleteEntry σ = inr σ').
  { vm_compute in H1. injection H1 as <-. vm_compute. eexists; reflexivity. }
  destruct H2 as [σ' H2].
  assert (Hreg : registered (fconn σ) 0 0%nat).
  { vm_compute in H1. injection H1 as <-. eexists. split; reflexivity. }
  assert (Haw : awaiting (fconn σ') = Some ∅ /\
                chans (fconn σ') !! 0%nat
                = Some {| sent := [{| val := Some [Byte.x78]; err := None |}]; taken := 0;
                          ch_closed := true |}).
  { vm_compute in H1. injection H1 as <-. vm_compute in H2. injection H2 as <-.
    vm_compute. split; reflexivity. }
  destruct Haw as [Haw Hch].
  assert (Hnr : ~ registered (fconn σ') 0 0%nat).
  { intros (mp & Hm & Hk). rewrite Haw in Hm. injection Hm as <-.
    rewrite lookup_empty in Hk. discriminate Hk. }
  destruct (pending_entries_leave_once _ fine_boot σ σ' _ 0 0%nat
              fine_boot_just_made H1 H2) as (_ & Hleave & _).
  destruct (Hleave Hreg Hnr) as [[Ho|[Hd|Hd]] _].
  - destruct Ho as (Ho & _). discriminate Ho.
  - exists σ, σ'.
    exact (conj fine_boot_just_made (conj H1 (conj H2 (conj Hreg (conj Hd Hch))))).
  - destruct Hd as (Hd & _). discriminate Hd.
Defined.

(** *** An entry deleted after its ID was assigned again *)

Lemma frun_app l1 l2 σ :
  frun (l1 ++ l2) σ = match frun l1 σ with inr σ1 => frun l2 σ1 | inl f => inl f end.
Proof.
  revert σ. induction l1 as [|a l1 IH]; intros σ; simpl; [done|].
  destruct (fexec a σ); [done|]. apply IH.
Qed.

Lemma frun_app_inr l1 l2 σ σ1 σ2 :
  frun l1 σ = inr σ1 -> frun l2 σ1 = inr σ2 -> frun (l1 ++ l2) σ = inr σ2.
Proof. intros H1 H2. now rewrite frun_app, H1. Qed.

Lemma Index_locked_healthy idx c :
  mu c = mu_free -> werr (mwriter c) = None ->
  exists c', Index_locked idx sink_ok c = Done None c' /\
    mu c' = mu_free /\ werr (mwriter c') = None /\ closed c' = closed c /\
    awaiting c' = awaiting c /\ chans c' = chans c /\
    nextId c' = Z.land (wrap64 (nextId c + 1)) 0xfff.
Proof.
  intros Hmu Hw.
  destruct c as [m i r [wt we] cl aw n lr pl ls cs tr]; simpl in *; subst m we.
  eexists. split; [unfold Index_locked, writeHeader, writeUint32, writeIndex, mwriter_write;
                   run; reflexivity|].
  simpl. done.
Qed.

Lemma frun_indexes idx n : forall σ,
  mu (fconn σ) = mu_free -> werr (mwriter (fconn σ)) = None ->
  0 <= nextId (fconn σ) < 4096 ->
  exists σ', frun (replicate n (SendIndex idx sink_ok)) σ = inr σ' /\
    hand σ' = hand σ /\
    mu (fconn σ') = mu_free /\ werr (mwriter (fconn σ')) = None /\
    closed (fconn σ') = closed (fconn σ) /\ awaiting (fconn σ') = awaiting (fconn σ) /\
    chans (fconn σ') = chans (fconn σ) /\
    nextId (fconn σ') = (nextId (fconn σ) + Z.of_nat n) mod 4096.
Proof.
  induction n as [|n IH]; intros σ Hmu Hw Hn.
  - exists σ. simpl. rewrite Z.add_0_r, Z.mod_small by done. done.
  - destruct (Index_locked_healthy idx (fconn σ) Hmu Hw)
      as (c1 & E & A1 & A2 & A3 & A4 & A5 & A6).
    rewrite nextId_step in A6 by done.
    destruct (IH {| fconn := c1; hand := hand σ |})
      as (σ' & Er & B0 & B1 & B2 & B3 & B4 & B5 & B6); simpl; try done.
    { rewrite A6. now apply Z.mod_pos_bound. }
    exists σ'. simpl in *. rewrite E. simpl. split; [exact Er|].
    rewrite B3, B4, B5, B6, A3, A4, A5, A6, Zplus_mod_idemp_l.
    repeat split; try done. f_equal. lia.
Qed.

(** A [Request]; the reader, for its Response, up to the close of the
    channel; 4095 [Index] messages; a [Ping]. *)
Definition reuse_run : list move :=
  hand_over_run ++ replicate 4095 (SendIndex [] sink_ok) ++ [SendPing 0 sink_ok].

(** The reader has delivered the Response to the [Request] with ID 0 and
    is about to delete the entry; by then [nextId] has come round and a
    [Ping] has put its own channel under ID 0.  The reader's [delete]
    takes the entry of the [Ping] out: the connection stays open, the
    channel of the [Ping] is as [make] left it and in no entry, and its
    caller goes on waiting. *)
Lemma entry_deleted_after_reuse :
  exists σ σ',
    frun reuse_run fine_boot = inr σ /\
    hand σ = Deleting 0 0%nat /\ registered (fconn σ) 0 1%nat /\
    fexec DeleteEntry σ = inr σ' /\
    deleted DeleteEntry σ σ' 0 1%nat /\
    closed (fconn σ') = false /\ awaiting (fconn σ') = Some ∅ /\
    chans (fconn σ') !! 1%nat = Some chan_new /\
    chan_recv 1%nat (fconn σ') = Fault WouldBlock (fconn σ').
Proof.
  assert (exists σ1, frun hand_over_run fine_boot = inr σ1 /\
            hand σ1 = Deleting 0 0%nat /\
            mu (fconn σ1) = mu_free /\ werr (mwriter (fconn σ1)) = None /\
            closed (fconn σ1) = false /\ awaiting (fconn σ1) = Some {[ 0 := 0%nat ]} /\
            chans (fconn σ1)
            = [{| sent := [{| val := Some [Byte.x78]; err := None |}]; taken := 0;
                  ch_closed := true |}] /\
            nextId (fconn σ1) = 1)
    as (σ1 & H1 & A0 & A1 & A2 & A3 & A4 & A5 & A6)
    by (vm_compute; eexists; repeat split; reflexivity).
  destruct (frun_indexes [] 4095 σ1 A1 A2) as (σ2 & H2 & B0 & B1 & B2 & B3 & B4 & B5 & B6);
    [rewrite A6; done|].
  rewrite A0 in B0. rewrite A3 in B3. rewrite A4 in B4. rewrite A5 in B5. rewrite A6 in B6.
  assert (B6' : nextId (fconn σ2) = 0) by (rewrite B6; vm_compute; reflexivity).
  destruct σ2 as [c2 h2]. simpl in B0, B1, B2, B3, B4, B5, B6'. clear B6. subst h2.
  destruct c2 as [m i r [wt we] cl aw n lr pl ls cs tr].
  simpl in B1, B2, B3, B4, B5, B6'. subst m we cl aw cs n.
  eexists _, _. split.
  { unfold reuse_run. apply (frun_app_inr _ _ _ _ _ H1), (frun_app_inr _ _ _ _ _ H2).
    unfold frun. cbv beta iota zeta delta [fexec].
    unfold Ping_locked, awaiting_assign, make_chan, writeHeader, writeUint32,
      mwriter_write. run. reflexivity. }
  split; [reflexivity|].
  split; [eexists; split; [reflexivity|]; apply lookup_insert_eq|].
  split.
  { cbv beta iota zeta delta [fexec]. simpl.
    unfold reader_delete, awaiting_delete. run. reflexivity. }
  simpl. rewrite delete_insert_eq, delete_singleton_eq.
  split.
  { split; [done|]. split; [done|]. split; [done|].
    exists 0%nat. split; [done|]. split; [done|]. discriminate. }
  repeat split.
Qed.
